(** * ldns-testns: the canned-reply DNS test server

    A shallow embedding of [examples/nsd-test/ldns-testns.c]: the data-file
    parser ([read_datafile] and the three directive interpreters), the entry
    matcher ([find_match]), the response builder ([get_answer]) and the two
    request handlers ([handle_udp], [handle_tcp]).

    Conventions of the embedding.
    - A C string is a [string]; reading at its end yields the NUL character.
    - C integers are [Z]; a conversion to a fixed width is written out with
      [Z.modulo].
    - Packets live in a store [gmap loc ldns_pkt]; an entry holds the location
      of its canned reply, as the C struct holds a pointer.
    - The linked list of entries is a Rocq list; the pointer [current] into it
      is an index.
    - [error()] prints and exits: it is the result [Fatal]. *)

From Stdlib Require Import ZArith Ascii String List Bool Lia.
From stdpp Require Import base option list gmap strings.

Local Open Scope string_scope.
Local Open Scope Z_scope.

(** ** Outcomes *)

(** The messages of [error()], with the arguments each call site passes. *)
Inductive fatal_error :=
  | ErrOpen (name : string)
  | ErrPrevEntry (name : string) (lineno : Z)
  | ErrExpectedBegin (name : string) (lineno : Z) (line : string)
  | ErrBadSection (name : string) (lineno : Z) (parse : string)
  | ErrOrigin (name : string) (lineno : Z) (status : Z) (parse : string)
  | ErrRR (name : string) (lineno : Z) (status : Z) (parse : string)
  | ErrMatchEq (line : string)
  | ErrMatch (parse : string)
  | ErrReply (parse : string)
  | ErrAdjust (parse : string).

(** [Stuck] is how the model says that it cannot follow the C code: a loop
    ran out of fuel or [current] pointed outside the list.  The safety lemmas
    below show that [read_line] never produces it. *)
Inductive result (A : Type) :=
  | Ok (a : A)
  | Fatal (m : fatal_error)
  | Stuck.
Arguments Ok {A} a.
Arguments Fatal {A} m.
Arguments Stuck {A}.

Definition bind {A B} (k : A -> result B) (r : result A) : result B :=
  match r with
  | Ok a => k a
  | Fatal m => Fatal m
  | Stuck => Stuck
  end.

#[global] Instance result_bind : MBind result := @bind.
#[global] Instance result_ret : MRet result := @Ok.

(** ** Grammar primitives *)

(** The character a C string pointer points at. *)
Definition peek (s : string) : ascii :=
  match s with
  | EmptyString => Ascii.zero
  | String c _ => c
  end.

(** [s + 1], for a string that is not at its end. *)
Definition advance (s : string) : string :=
  match s with
  | EmptyString => EmptyString
  | String _ s' => s'
  end.

Definition isendline (c : ascii) : bool :=
  Ascii.eqb c ";" || Ascii.eqb c "#" || Ascii.eqb c "010" || Ascii.eqb c Ascii.zero.

(** [isspace] in the C locale: space, and the controls 9 to 13. *)
Definition isspace (c : ascii) : bool :=
  let n := N_of_ascii c in
  (n =? 32)%N || ((9 <=? n)%N && (n <=? 13)%N).

Definition isdigit (c : ascii) : bool :=
  let n := N_of_ascii c in
  (48 <=? n)%N && (n <=? 57)%N.

(** The loop [while (isspace( *s )) s++]. *)
Fixpoint skip_space (s : string) : string :=
  match s with
  | EmptyString => EmptyString
  | String c s' => if isspace c then skip_space s' else s
  end.

(** [strncmp(s, keyword, strlen(keyword)) == 0], returning [s + strlen(keyword)]. *)
Fixpoint strip_prefix (keyword s : string) : option string :=
  match keyword with
  | EmptyString => Some s
  | String k keyword' =>
      match s with
      | EmptyString => None
      | String c s' => if Ascii.eqb c k then strip_prefix keyword' s' else None
      end
  end.

(** [str_keyword(&str, keyword)]: [Some] of the moved [str] when it returns
    true, [None] (and [str] untouched) when it returns false. *)
Definition str_keyword (str keyword : string) : option string :=
  match strip_prefix keyword str with
  | None => None
  | Some rest => Some (skip_space rest)
  end.

(** *** The C library's number parsers *)

Definition digit_val (c : ascii) : Z := Z.of_N (N_of_ascii c) - 48.

(** The digits at the head of [s], accumulated in base 10, and what follows. *)
Fixpoint read_digits (s : string) (acc : Z) : Z * string :=
  match s with
  | EmptyString => (acc, s)
  | String c s' =>
      if isdigit c then read_digits s' (10 * acc + digit_val c) else (acc, s)
  end.

Definition LONG_MAX : Z := 2 ^ 63 - 1.
Definition LONG_MIN : Z := - 2 ^ 63.

Definition clamp_long (v : Z) : Z :=
  if v >? LONG_MAX then LONG_MAX else if v <? LONG_MIN then LONG_MIN else v.

(** [strtol(nptr, &endptr, 10)] on an LP64 platform: white space, an optional
    sign, decimal digits; the value is clamped to the range of [long]; with no
    digit at all the value is 0 and [endptr] is [nptr]. *)
Definition strtol (nptr : string) : Z * string :=
  let s := skip_space nptr in
  let '(neg, s1) :=
    if Ascii.eqb (peek s) "-" then (true, advance s)
    else if Ascii.eqb (peek s) "+" then (false, advance s)
    else (false, s) in
  if isdigit (peek s1) then
    let '(v, rest) := read_digits s1 0 in
    (clamp_long (if neg then - v else v), rest)
  else (0, nptr).

(** The conversion of a [long] to [int]. *)
Definition to_int (v : Z) : Z := (v + 2 ^ 31) mod 2 ^ 32 - 2 ^ 31.

(** [atoi(s)], which is [(int)strtol(s, NULL, 10)]. *)
Definition atoi (s : string) : Z := to_int (fst (strtol s)).

Definition to_uint16 (v : Z) : Z := v mod 2 ^ 16.
Definition to_uint32 (v : Z) : Z := v mod 2 ^ 32.

(** ** The codec's data

    The message, record and name types belong to the ldns library, whose
    headers are not part of this program's source file. *)

(** Modelled from the spec: [ldns_rdf], one field of a record's data or a
    domain name ("record metadata" of the external codec): a type tag and the
    bytes. *)
Record ldns_rdf := mk_rdf {
  ldns_rdf_get_type : Z;
  ldns_rdf_data : list Z
}.

(** Modelled from the spec: [ldns_rr], a protocol record with its owner name,
    time-to-live, class, record type and data fields.  A record of a decoded
    or parsed message always has an owner name. *)
Record ldns_rr := mk_rr {
  ldns_rr_owner : ldns_rdf;
  ldns_rr_ttl : Z;
  ldns_rr_get_class : Z;
  ldns_rr_get_type : Z;
  ldns_rr_rdfs : list ldns_rdf
}.

(** Modelled from the spec: [ldns_rr_list_rr] and [ldns_rr_rdf], the element
    at an index, NULL when there is none. *)
Definition ldns_rr_list_rr (l : list ldns_rr) (n : nat) : option ldns_rr := l !! n.
Definition ldns_rr_rdf (rr : ldns_rr) (n : nat) : option ldns_rdf := ldns_rr_rdfs rr !! n.

(** Modelled from the spec: [ldns_pkt_section], "one of
    Question/Answer/Authority/Additional". *)
Inductive ldns_pkt_section :=
  | LDNS_SECTION_QUESTION
  | LDNS_SECTION_ANSWER
  | LDNS_SECTION_AUTHORITY
  | LDNS_SECTION_ADDITIONAL.

(** Modelled from the spec: [ldns_pkt], the message: transaction id, "opcode,
    response code, ... boolean flags, four ordered sections of protocol
    records".  The projections carry the names of the library's accessors. *)
Record ldns_pkt := mk_pkt {
  ldns_pkt_id : Z;
  ldns_pkt_qr : bool;
  ldns_pkt_aa : bool;
  ldns_pkt_tc : bool;
  ldns_pkt_rd : bool;
  ldns_pkt_cd : bool;
  ldns_pkt_ra : bool;
  ldns_pkt_ad : bool;
  ldns_pkt_get_opcode : Z;
  ldns_pkt_get_rcode : Z;
  ldns_pkt_question : list ldns_rr;
  ldns_pkt_answer : list ldns_rr;
  ldns_pkt_authority : list ldns_rr;
  ldns_pkt_additional : list ldns_rr
}.

(** Modelled from the spec: the opcode and response-code names of the REPLY
    vocabulary, declared in the library's headers; the numbers are those of
    the wire format. *)
Definition LDNS_PACKET_QUERY : Z := 0.
Definition LDNS_PACKET_IQUERY : Z := 1.
Definition LDNS_PACKET_STATUS : Z := 2.
Definition LDNS_PACKET_NOTIFY : Z := 4.
Definition LDNS_PACKET_UPDATE : Z := 5.

Definition LDNS_RCODE_NOERROR : Z := 0.
Definition LDNS_RCODE_FORMERR : Z := 1.
Definition LDNS_RCODE_SERVFAIL : Z := 2.
Definition LDNS_RCODE_NXDOMAIN : Z := 3.
Definition LDNS_RCODE_NOTIMPL : Z := 4.
Definition LDNS_RCODE_YXDOMAIN : Z := 6.
Definition LDNS_RCODE_YXRRSET : Z := 7.
Definition LDNS_RCODE_NXRRSET : Z := 8.
Definition LDNS_RCODE_NOTAUTH : Z := 9.
Definition LDNS_RCODE_NOTZONE : Z := 10.

Definition ldns_status := Z.
Definition LDNS_STATUS_OK : ldns_status := 0.

(** Modelled from the spec: the mutators of the external codec ("accessor/
    mutator functions for header fields, sections"), on a packet value. *)
Definition pkt_set_id (v : Z) (p : ldns_pkt) : ldns_pkt :=
  mk_pkt v (ldns_pkt_qr p) (ldns_pkt_aa p) (ldns_pkt_tc p) (ldns_pkt_rd p)
    (ldns_pkt_cd p) (ldns_pkt_ra p) (ldns_pkt_ad p) (ldns_pkt_get_opcode p)
    (ldns_pkt_get_rcode p) (ldns_pkt_question p) (ldns_pkt_answer p)
    (ldns_pkt_authority p) (ldns_pkt_additional p).

Definition pkt_set_opcode (v : Z) (p : ldns_pkt) : ldns_pkt :=
  mk_pkt (ldns_pkt_id p) (ldns_pkt_qr p) (ldns_pkt_aa p) (ldns_pkt_tc p)
    (ldns_pkt_rd p) (ldns_pkt_cd p) (ldns_pkt_ra p) (ldns_pkt_ad p) v
    (ldns_pkt_get_rcode p) (ldns_pkt_question p) (ldns_pkt_answer p)
    (ldns_pkt_authority p) (ldns_pkt_additional p).

Definition pkt_set_rcode (v : Z) (p : ldns_pkt) : ldns_pkt :=
  mk_pkt (ldns_pkt_id p) (ldns_pkt_qr p) (ldns_pkt_aa p) (ldns_pkt_tc p)
    (ldns_pkt_rd p) (ldns_pkt_cd p) (ldns_pkt_ra p) (ldns_pkt_ad p)
    (ldns_pkt_get_opcode p) v (ldns_pkt_question p) (ldns_pkt_answer p)
    (ldns_pkt_authority p) (ldns_pkt_additional p).

Definition pkt_set_qr (v : bool) (p : ldns_pkt) : ldns_pkt :=
  mk_pkt (ldns_pkt_id p) v (ldns_pkt_aa p) (ldns_pkt_tc p) (ldns_pkt_rd p)
    (ldns_pkt_cd p) (ldns_pkt_ra p) (ldns_pkt_ad p) (ldns_pkt_get_opcode p)
    (ldns_pkt_get_rcode p) (ldns_pkt_question p) (ldns_pkt_answer p)
    (ldns_pkt_authority p) (ldns_pkt_additional p).

Definition pkt_set_aa (v : bool) (p : ldns_pkt) : ldns_pkt :=
  mk_pkt (ldns_pkt_id p) (ldns_pkt_qr p) v (ldns_pkt_tc p) (ldns_pkt_rd p)
    (ldns_pkt_cd p) (ldns_pkt_ra p) (ldns_pkt_ad p) (ldns_pkt_get_opcode p)
    (ldns_pkt_get_rcode p) (ldns_pkt_question p) (ldns_pkt_answer p)
    (ldns_pkt_authority p) (ldns_pkt_additional p).

Definition pkt_set_tc (v : bool) (p : ldns_pkt) : ldns_pkt :=
  mk_pkt (ldns_pkt_id p) (ldns_pkt_qr p) (ldns_pkt_aa p) v (ldns_pkt_rd p)
    (ldns_pkt_cd p) (ldns_pkt_ra p) (ldns_pkt_ad p) (ldns_pkt_get_opcode p)
    (ldns_pkt_get_rcode p) (ldns_pkt_question p) (ldns_pkt_answer p)
    (ldns_pkt_authority p) (ldns_pkt_additional p).

Definition pkt_set_rd (v : bool) (p : ldns_pkt) : ldns_pkt :=
  mk_pkt (ldns_pkt_id p) (ldns_pkt_qr p) (ldns_pkt_aa p) (ldns_pkt_tc p) v
    (ldns_pkt_cd p) (ldns_pkt_ra p) (ldns_pkt_ad p) (ldns_pkt_get_opcode p)
    (ldns_pkt_get_rcode p) (ldns_pkt_question p) (ldns_pkt_answer p)
    (ldns_pkt_authority p) (ldns_pkt_additional p).

Definition pkt_set_cd (v : bool) (p : ldns_pkt) : ldns_pkt :=
  mk_pkt (ldns_pkt_id p) (ldns_pkt_qr p) (ldns_pkt_aa p) (ldns_pkt_tc p)
    (ldns_pkt_rd p) v (ldns_pkt_ra p) (ldns_pkt_ad p) (ldns_pkt_get_opcode p)
    (ldns_pkt_get_rcode p) (ldns_pkt_question p) (ldns_pkt_answer p)
    (ldns_pkt_authority p) (ldns_pkt_additional p).

Definition pkt_set_ra (v : bool) (p : ldns_pkt) : ldns_pkt :=
  mk_pkt (ldns_pkt_id p) (ldns_pkt_qr p) (ldns_pkt_aa p) (ldns_pkt_tc p)
    (ldns_pkt_rd p) (ldns_pkt_cd p) v (ldns_pkt_ad p) (ldns_pkt_get_opcode p)
    (ldns_pkt_get_rcode p) (ldns_pkt_question p) (ldns_pkt_answer p)
    (ldns_pkt_authority p) (ldns_pkt_additional p).

Definition pkt_set_ad (v : bool) (p : ldns_pkt) : ldns_pkt :=
  mk_pkt (ldns_pkt_id p) (ldns_pkt_qr p) (ldns_pkt_aa p) (ldns_pkt_tc p)
    (ldns_pkt_rd p) (ldns_pkt_cd p) (ldns_pkt_ra p) v (ldns_pkt_get_opcode p)
    (ldns_pkt_get_rcode p) (ldns_pkt_question p) (ldns_pkt_answer p)
    (ldns_pkt_authority p) (ldns_pkt_additional p).

(** Modelled from the spec: [ldns_pkt_push_rr], "append the resulting record
    to the target section". *)
Definition pkt_push_rr (s : ldns_pkt_section) (rr : ldns_rr) (p : ldns_pkt) : ldns_pkt :=
  mk_pkt (ldns_pkt_id p) (ldns_pkt_qr p) (ldns_pkt_aa p) (ldns_pkt_tc p)
    (ldns_pkt_rd p) (ldns_pkt_cd p) (ldns_pkt_ra p) (ldns_pkt_ad p)
    (ldns_pkt_get_opcode p) (ldns_pkt_get_rcode p)
    (match s with LDNS_SECTION_QUESTION => ldns_pkt_question p ++ [rr] | _ => ldns_pkt_question p end)
    (match s with LDNS_SECTION_ANSWER => ldns_pkt_answer p ++ [rr] | _ => ldns_pkt_answer p end)
    (match s with LDNS_SECTION_AUTHORITY => ldns_pkt_authority p ++ [rr] | _ => ldns_pkt_authority p end)
    (match s with LDNS_SECTION_ADDITIONAL => ldns_pkt_additional p ++ [rr] | _ => ldns_pkt_additional p end).

(** Modelled from the spec: the value of a packet fresh from [ldns_pkt_new],
    "an empty canned reply message". *)
Definition empty_pkt : ldns_pkt :=
  mk_pkt 0 false false false false false false false 0 0 [] [] [] [].

(** *** The packet store *)

Definition loc := positive.

(** What a read through a packet pointer yields.  Reading a location that
    holds no packet is undefined in C; the model reads [empty_pkt] there. *)
#[global] Instance ldns_pkt_inhabited : Inhabited ldns_pkt := populate empty_pkt.

(** Modelled from the spec: [ldns_pkt_new], a fresh packet. *)
Definition ldns_pkt_new (h : gmap loc ldns_pkt) : loc * gmap loc ldns_pkt :=
  let l := fresh (dom h) in (l, <[l := empty_pkt]> h).

(** Modelled from the spec: [ldns_pkt_clone], "deep-clone its canned reply
    message": a fresh packet with the contents of the original. *)
Definition ldns_pkt_clone (h : gmap loc ldns_pkt) (l : loc) : loc * gmap loc ldns_pkt :=
  let l' := fresh (dom h) in (l', <[l' := h !!! l]> h).

(** Modelled from the spec: [ldns_pkt_free]. *)
Definition ldns_pkt_free (h : gmap loc ldns_pkt) (l : option loc) : gmap loc ldns_pkt :=
  match l with
  | Some l => delete l h
  | None => h
  end.

(** ** The codec's functions

    What the program calls in the library and cannot be read off its own
    source: a parameter of the development. *)

Inductive codec_result (A : Type) :=
  | CodecOk (a : A)
  | CodecErr (status : ldns_status).
Arguments CodecOk {A} a.
Arguments CodecErr {A} status.

Class Codec := {
  (** [ldns_str2rdf_dname(&rdf, str)] *)
  ldns_str2rdf_dname : string -> codec_result ldns_rdf;
  (** [ldns_rr_new_frm_str(&rr, str, default_ttl, origin, &prev)]: the record
      and the new previous-name context. *)
  ldns_rr_new_frm_str :
    string -> Z -> option ldns_rdf -> option ldns_rdf ->
    codec_result (ldns_rr * option ldns_rdf);
  (** [ldns_dname_compare(a, b)]: 0 when the names are equal, letter case
      ignored. *)
  ldns_dname_compare : ldns_rdf -> ldns_rdf -> Z;
  (** [ldns_rdf2native_int32(rdf)] *)
  ldns_rdf2native_int32 : ldns_rdf -> Z;
  (** [ldns_wire2pkt(&pkt, data, len)] *)
  ldns_wire2pkt : list Z -> codec_result ldns_pkt;
  (** [ldns_pkt2wire(&dest, pkt, &size)] for a packet pointer that may be
      NULL: the status, [*dest] and [*size]. *)
  ldns_pkt2wire : option ldns_pkt -> ldns_status * option (list Z) * Z
}.

(** ** Entries *)

Inductive transport_type := transport_any | transport_udp | transport_tcp.

#[global] Instance transport_type_eq_dec : EqDecision transport_type.
Proof. solve_decision. Defined.

Record entry := mk_entry {
  match_opcode : bool;
  match_qtype : bool;
  match_qname : bool;
  match_serial : bool;
  ixfr_soa_serial : Z;
  match_transport : transport_type;
  reply : loc;
  copy_id : bool
}.

Definition set_match_opcode (v : bool) (e : entry) : entry :=
  mk_entry v (match_qtype e) (match_qname e) (match_serial e)
    (ixfr_soa_serial e) (match_transport e) (reply e) (copy_id e).
Definition set_match_qtype (v : bool) (e : entry) : entry :=
  mk_entry (match_opcode e) v (match_qname e) (match_serial e)
    (ixfr_soa_serial e) (match_transport e) (reply e) (copy_id e).
Definition set_match_qname (v : bool) (e : entry) : entry :=
  mk_entry (match_opcode e) (match_qtype e) v (match_serial e)
    (ixfr_soa_serial e) (match_transport e) (reply e) (copy_id e).
Definition set_match_serial (v : bool) (e : entry) : entry :=
  mk_entry (match_opcode e) (match_qtype e) (match_qname e) v
    (ixfr_soa_serial e) (match_transport e) (reply e) (copy_id e).
Definition set_ixfr_soa_serial (v : Z) (e : entry) : entry :=
  mk_entry (match_opcode e) (match_qtype e) (match_qname e) (match_serial e)
    v (match_transport e) (reply e) (copy_id e).
Definition set_match_transport (v : transport_type) (e : entry) : entry :=
  mk_entry (match_opcode e) (match_qtype e) (match_qname e) (match_serial e)
    (ixfr_soa_serial e) v (reply e) (copy_id e).
Definition set_copy_id (v : bool) (e : entry) : entry :=
  mk_entry (match_opcode e) (match_qtype e) (match_qname e) (match_serial e)
    (ixfr_soa_serial e) (match_transport e) (reply e) v.

Definition new_entry (h : gmap loc ldns_pkt) : entry * gmap loc ldns_pkt :=
  let '(r, h') := ldns_pkt_new h in
  (mk_entry false false false false 0 transport_any r false, h').

(** ** Directive interpreters *)

(** The body of [matchline]'s loop; [fuel] bounds the number of iterations,
    each of which consumes at least one character of [parse]. *)
Fixpoint matchline_loop (fuel : nat) (line parse : string) (e : entry) : result entry :=
  match fuel with
  | O => Stuck
  | S fuel =>
      if Ascii.eqb (peek parse) Ascii.zero then Ok e
      else if isendline (peek parse) then Ok e
      else match str_keyword parse "opcode" with
      | Some parse => matchline_loop fuel line parse (set_match_opcode true e)
      | None =>
      match str_keyword parse "qtype" with
      | Some parse => matchline_loop fuel line parse (set_match_qtype true e)
      | None =>
      match str_keyword parse "qname" with
      | Some parse => matchline_loop fuel line parse (set_match_qname true e)
      | None =>
      match str_keyword parse "UDP" with
      | Some parse => matchline_loop fuel line parse (set_match_transport transport_udp e)
      | None =>
      match str_keyword parse "TCP" with
      | Some parse => matchline_loop fuel line parse (set_match_transport transport_tcp e)
      | None =>
      match str_keyword parse "serial" with
      | Some parse =>
          let e := set_match_serial true e in
          if negb (Ascii.eqb (peek parse) "=") && negb (Ascii.eqb (peek parse) ":")
          then Fatal (ErrMatchEq line)
          else
            let '(v, parse) := strtol (advance parse) in
            matchline_loop fuel line (skip_space parse)
              (set_ixfr_soa_serial (to_uint32 v) e)
      | None => Fatal (ErrMatch parse)
      end end end end end end
  end.

Definition matchline (line : string) (e : entry) : result entry :=
  matchline_loop (S (String.length line)) line line e.

(** The vocabulary of [replyline], in the order of its if-else chain, each
    keyword with the setter it applies to the canned reply. *)
Definition reply_keywords : list (string * (ldns_pkt -> ldns_pkt)) :=
  [ ("QUERY", pkt_set_opcode LDNS_PACKET_QUERY);
    ("IQUERY", pkt_set_opcode LDNS_PACKET_IQUERY);
    ("STATUS", pkt_set_opcode LDNS_PACKET_STATUS);
    ("NOTIFY", pkt_set_opcode LDNS_PACKET_NOTIFY);
    ("UPDATE", pkt_set_opcode LDNS_PACKET_UPDATE);
    ("NOERROR", pkt_set_rcode LDNS_RCODE_NOERROR);
    ("FORMERR", pkt_set_rcode LDNS_RCODE_FORMERR);
    ("SERVFAIL", pkt_set_rcode LDNS_RCODE_SERVFAIL);
    ("NXDOMAIN", pkt_set_rcode LDNS_RCODE_NXDOMAIN);
    ("NOTIMPL", pkt_set_rcode LDNS_RCODE_NOTIMPL);
    ("YXDOMAIN", pkt_set_rcode LDNS_RCODE_YXDOMAIN);
    ("YXRRSET", pkt_set_rcode LDNS_RCODE_YXRRSET);
    ("NXRRSET", pkt_set_rcode LDNS_RCODE_NXRRSET);
    ("NOTAUTH", pkt_set_rcode LDNS_RCODE_NOTAUTH);
    ("NOTZONE", pkt_set_rcode LDNS_RCODE_NOTZONE);
    ("QR", pkt_set_qr true);
    ("AA", pkt_set_aa true);
    ("TC", pkt_set_tc true);
    ("RD", pkt_set_rd true);
    ("CD", pkt_set_cd true);
    ("RA", pkt_set_ra true);
    ("AD", pkt_set_ad true) ].

(** An if-else chain of [str_keyword] tests: the first keyword of the table
    that [parse] starts with, the moved [parse] and the keyword's action. *)
Fixpoint first_keyword {A} (table : list (string * A)) (parse : string) : option (string * A) :=
  match table with
  | [] => None
  | (keyword, a) :: table =>
      match str_keyword parse keyword with
      | Some parse => Some (parse, a)
      | None => first_keyword table parse
      end
  end.

(** [replyline] writes through [e->reply]: it updates the store at [r]. *)
Fixpoint replyline_loop (fuel : nat) (parse : string) (r : loc) (h : gmap loc ldns_pkt)
  : result (gmap loc ldns_pkt) :=
  match fuel with
  | O => Stuck
  | S fuel =>
      if Ascii.eqb (peek parse) Ascii.zero then Ok h
      else if isendline (peek parse) then Ok h
      else match first_keyword reply_keywords parse with
      | Some (parse, set) => replyline_loop fuel parse r (alter set r h)
      | None => Fatal (ErrReply parse)
      end
  end.

Definition replyline (line : string) (e : entry) (h : gmap loc ldns_pkt)
  : result (gmap loc ldns_pkt) :=
  replyline_loop (S (String.length line)) line (reply e) h.

Fixpoint adjustline_loop (fuel : nat) (parse : string) (e : entry) : result entry :=
  match fuel with
  | O => Stuck
  | S fuel =>
      if Ascii.eqb (peek parse) Ascii.zero then Ok e
      else if isendline (peek parse) then Ok e
      else match str_keyword parse "copy_id" with
      | Some parse => adjustline_loop fuel parse (set_copy_id true e)
      | None => Fatal (ErrAdjust parse)
      end
  end.

Definition adjustline (line : string) (e : entry) : result entry :=
  adjustline_loop (S (String.length line)) line e.

(** ** The data-file parser *)

(** What the program prints on its standard output, one constructor per
    [printf] that the model follows. *)
Inductive out_event :=
  | OutParsing (word : string)
  | OutReadEntries (entry_num : Z)
  | OutBadPacket (status : ldns_status)
  | OutQuery (count id : Z) (transport : string) (inlen : Z) (query_rr : option ldns_rr)
  | OutAnswerSize (answer_size : Z)
  | OutErrorCreating (status : ldns_status)
  | OutRecvfromFailed
  | OutAcceptFailed
  | OutReadFailed
  | OutTooLarge (tcplen buffer : Z).

(** The local variables of [read_datafile], the packet store and the output.
    [entries] is the list that starts at the C variable [list]; the C
    variable [last] is its last element. *)
Record pstate := mk_pstate {
  entries : list entry;
  current : option nat;
  lineno : Z;
  add_section : ldns_pkt_section;
  default_ttl : Z;
  origin : option ldns_rdf;
  prev_rr : option ldns_rdf;
  entry_num : Z;
  heap : gmap loc ldns_pkt;
  stdout : list out_event
}.

Definition init_pstate : pstate :=
  mk_pstate [] None 0 LDNS_SECTION_QUESTION 0 None None 0 ∅ [].

Definition set_entries (v : list entry) (st : pstate) : pstate :=
  mk_pstate v (current st) (lineno st) (add_section st) (default_ttl st)
    (origin st) (prev_rr st) (entry_num st) (heap st) (stdout st).
Definition set_current (v : option nat) (st : pstate) : pstate :=
  mk_pstate (entries st) v (lineno st) (add_section st) (default_ttl st)
    (origin st) (prev_rr st) (entry_num st) (heap st) (stdout st).
Definition set_lineno (v : Z) (st : pstate) : pstate :=
  mk_pstate (entries st) (current st) v (add_section st) (default_ttl st)
    (origin st) (prev_rr st) (entry_num st) (heap st) (stdout st).
Definition set_add_section (v : ldns_pkt_section) (st : pstate) : pstate :=
  mk_pstate (entries st) (current st) (lineno st) v (default_ttl st)
    (origin st) (prev_rr st) (entry_num st) (heap st) (stdout st).
Definition set_default_ttl (v : Z) (st : pstate) : pstate :=
  mk_pstate (entries st) (current st) (lineno st) (add_section st) v
    (origin st) (prev_rr st) (entry_num st) (heap st) (stdout st).
Definition set_origin (v : option ldns_rdf) (st : pstate) : pstate :=
  mk_pstate (entries st) (current st) (lineno st) (add_section st)
    (default_ttl st) v (prev_rr st) (entry_num st) (heap st) (stdout st).
Definition set_prev_rr (v : option ldns_rdf) (st : pstate) : pstate :=
  mk_pstate (entries st) (current st) (lineno st) (add_section st)
    (default_ttl st) (origin st) v (entry_num st) (heap st) (stdout st).
Definition set_entry_num (v : Z) (st : pstate) : pstate :=
  mk_pstate (entries st) (current st) (lineno st) (add_section st)
    (default_ttl st) (origin st) (prev_rr st) v (heap st) (stdout st).
Definition set_heap (v : gmap loc ldns_pkt) (st : pstate) : pstate :=
  mk_pstate (entries st) (current st) (lineno st) (add_section st)
    (default_ttl st) (origin st) (prev_rr st) (entry_num st) v (stdout st).
Definition set_stdout (v : list out_event) (st : pstate) : pstate :=
  mk_pstate (entries st) (current st) (lineno st) (add_section st)
    (default_ttl st) (origin st) (prev_rr st) (entry_num st) (heap st) v.

(** The text up to the first white space or end of content: what [get_origin]
    leaves of [parse] when it writes a NUL at [end]. *)
Fixpoint snip_word (s : string) : string :=
  match s with
  | EmptyString => EmptyString
  | String c s' =>
      if negb (isspace c) && negb (isendline c) then String c (snip_word s')
      else EmptyString
  end.

Section Parser.
Context `{Codec}.

Definition get_origin (name : string) (st : pstate) (parse : string) : result pstate :=
  let st := set_origin None st in
  let word := snip_word parse in
  let st := set_stdout (stdout st ++ [OutParsing word])%list st in
  match ldns_str2rdf_dname word with
  | CodecOk d => Ok (set_origin (Some d) st)
  | CodecErr status => Fatal (ErrOrigin name (lineno st) status parse)
  end.

(** The part of the loop body below the comment "working inside an entry",
    for the open entry [e] at index [cur]. *)
Definition read_entry_line (name : string) (st : pstate) (line parse : string)
    (cur : nat) (e : entry) : result pstate :=
  match str_keyword parse "MATCH" with
  | Some parse =>
      e' ← matchline parse e;
      Ok (set_entries (<[cur := e']> (entries st)) st)
  | None =>
  match str_keyword parse "REPLY" with
  | Some parse =>
      h ← replyline parse e (heap st);
      Ok (set_heap h st)
  | None =>
  match str_keyword parse "ADJUST" with
  | Some parse =>
      e' ← adjustline parse e;
      Ok (set_entries (<[cur := e']> (entries st)) st)
  | None =>
  match str_keyword parse "SECTION" with
  | Some parse =>
      match str_keyword parse "QUESTION" with
      | Some _ => Ok (set_add_section LDNS_SECTION_QUESTION st)
      | None =>
      match str_keyword parse "ANSWER" with
      | Some _ => Ok (set_add_section LDNS_SECTION_ANSWER st)
      | None =>
      match str_keyword parse "AUTHORITY" with
      | Some _ => Ok (set_add_section LDNS_SECTION_AUTHORITY st)
      | None =>
      match str_keyword parse "ADDITIONAL" with
      | Some _ => Ok (set_add_section LDNS_SECTION_ADDITIONAL st)
      | None => Fatal (ErrBadSection name (lineno st) parse)
      end end end end
  | None =>
  match str_keyword parse "ENTRY_END" with
  | Some _ => Ok (set_entry_num (entry_num st + 1) (set_current None st))
  | None =>
      match ldns_rr_new_frm_str parse (default_ttl st) (origin st) (prev_rr st) with
      | CodecErr status => Fatal (ErrRR name (lineno st) status parse)
      | CodecOk (n, prev) =>
          Ok (set_heap (alter (pkt_push_rr (add_section st) n) (reply e) (heap st))
                (set_prev_rr prev st))
      end
  end end end end end.

(** One iteration of the [while(fgets(...))] loop, on the line [line]. *)
Definition read_line (name : string) (st : pstate) (line : string) : result pstate :=
  let st := set_lineno (lineno st + 1) st in
  let parse := skip_space line in
  if isendline (peek parse) then Ok st
  else match str_keyword parse "ENTRY_BEGIN" with
  | Some _ =>
      match current st with
      | Some _ => Fatal (ErrPrevEntry name (lineno st))
      | None =>
          let '(e, h) := new_entry (heap st) in
          Ok (set_current (Some (length (entries st)))
                (set_entries (entries st ++ [e])%list (set_heap h st)))
      end
  | None =>
  match str_keyword parse "$ORIGIN" with
  | Some parse => get_origin name st parse
  | None =>
  match str_keyword parse "$TTL" with
  | Some parse => Ok (set_default_ttl (to_uint16 (atoi parse)) st)
  | None =>
      match current st with
      | None => Fatal (ErrExpectedBegin name (lineno st) line)
      | Some cur =>
          match entries st !! cur with
          | None => Stuck
          | Some e => read_entry_line name st line parse cur e
          end
      end
  end end end.

(** The loop over the lines that [fgets] delivers. *)
Fixpoint read_lines (name : string) (st : pstate) (lines : list string) : result pstate :=
  match lines with
  | [] => Ok st
  | line :: lines =>
      match read_line name st line with
      | Ok st => read_lines name st lines
      | Fatal m => Fatal m
      | Stuck => Stuck
      end
  end.

(** [read_datafile(name)]; [file] is [None] when [fopen] fails, else the
    lines of the file as [fgets] returns them.  The result is the list, the
    packet store it points into, and the output. *)
Definition read_datafile (name : string) (file : option (list string))
  : result (list entry * gmap loc ldns_pkt * list out_event) :=
  match file with
  | None => Fatal (ErrOpen name)
  | Some lines =>
      st ← read_lines name init_pstate lines;
      Ok (entries st, heap st, (stdout st ++ [OutReadEntries (entry_num st)])%list)
  end.
End Parser.

(** ** The entry matcher and the response builder *)

Section Matcher.
Context `{Codec}.

Definition get_qtype (p : ldns_pkt) : Z :=
  match ldns_rr_list_rr (ldns_pkt_question p) 0 with
  | None => 0
  | Some rr => ldns_rr_get_type rr
  end.

Definition get_owner (p : ldns_pkt) : option ldns_rdf :=
  match ldns_rr_list_rr (ldns_pkt_question p) 0 with
  | None => None
  | Some rr => Some (ldns_rr_owner rr)
  end.

(** The diagnostic [printf] of the value found is not followed. *)
Definition get_serial (p : ldns_pkt) : Z :=
  match ldns_rr_list_rr (ldns_pkt_authority p) 0 with
  | None => 0
  | Some rr =>
      match ldns_rr_rdf rr 2 with
      | None => 0
      | Some rdf => ldns_rdf2native_int32 rdf
      end
  end.

(** [find_match(entries, query_pkt, transport)]: each [continue] of the C
    loop is the recursive call on the rest of the list.  The query packet is
    only read; it is passed by value. *)
Fixpoint find_match (h : gmap loc ldns_pkt) (entries : list entry)
    (query_pkt : ldns_pkt) (transport : transport_type) : option entry :=
  match entries with
  | [] => None
  | p :: next =>
      if match_opcode p
         && negb (ldns_pkt_get_opcode query_pkt =? ldns_pkt_get_opcode (h !!! reply p))
      then find_match h next query_pkt transport
      else if match_qtype p
              && negb (get_qtype query_pkt =? get_qtype (h !!! reply p))
      then find_match h next query_pkt transport
      else if match_qname p
              && match get_owner query_pkt, get_owner (h !!! reply p) with
                 | Some a, Some b => negb (ldns_dname_compare a b =? 0)
                 | _, _ => true
                 end
      then find_match h next query_pkt transport
      else if match_serial p
              && negb (get_serial (h !!! reply p) =? ixfr_soa_serial p)
      then find_match h next query_pkt transport
      else if negb (bool_decide (match_transport p = transport_any))
              && negb (bool_decide (match_transport p = transport))
      then find_match h next query_pkt transport
      else Some p
  end.

(** [get_answer]: the answer packet (NULL when nothing matches) and the
    store after the call. *)
Definition get_answer (h : gmap loc ldns_pkt) (entries : list entry)
    (query_pkt : ldns_pkt) (transport : transport_type)
  : option loc * gmap loc ldns_pkt :=
  match find_match h entries query_pkt transport with
  | None => (None, h)
  | Some m =>
      let '(answer_pkt, h) := ldns_pkt_clone h (reply m) in
      if copy_id m
      then (Some answer_pkt, alter (pkt_set_id (ldns_pkt_id query_pkt)) answer_pkt h)
      else (Some answer_pkt, h)
  end.

(** ** The request handlers *)

Record query_result := mk_query_result {
  outbuf : option (list Z);
  answer_size : Z;
  count : Z;
  printed : list out_event;
  store : gmap loc ldns_pkt
}.

(** [handle_query(inbuf, inlen, entries, &count, &answer_size, transport)];
    [answer_size0] and [count0] are the values behind the two pointers
    when it is called. *)
Definition handle_query (inbuf : list Z) (inlen : Z) (h : gmap loc ldns_pkt)
    (entries : list entry) (count0 answer_size0 : Z) (transport : transport_type)
  : query_result :=
  match ldns_wire2pkt (take (Z.to_nat inlen) inbuf) with
  | CodecErr status =>
      mk_query_result None answer_size0 count0 [OutBadPacket status] h
  | CodecOk query_pkt =>
      let query_rr := ldns_rr_list_rr (ldns_pkt_question query_pkt) 0 in
      let count := count0 + 1 in
      let out1 :=
        OutQuery count (ldns_pkt_id query_pkt)
          (if bool_decide (transport = transport_tcp) then "TCP" else "UDP")
          inlen query_rr in
      let '(answer_pkt, h) := get_answer h entries query_pkt transport in
      let '(status, dest, size) :=
        ldns_pkt2wire (match answer_pkt with
                       | Some l => Some (h !!! l)
                       | None => None
                       end) in
      let out2 := OutAnswerSize size in
      let h := ldns_pkt_free h answer_pkt in
      if negb (status =? LDNS_STATUS_OK)
      then mk_query_result None size count [out1; out2; OutErrorCreating status] h
      else mk_query_result dest size count [out1; out2] h
  end.

Record udp_result := mk_udp_result {
  udp_sent : option (list Z);
  udp_count : Z;
  udp_printed : list out_event;
  udp_store : gmap loc ldns_pkt
}.

(** [handle_udp]: [nb] is what [recvfrom] returns and [inbuf] the buffer it
    filled; [udp_sent] is the datagram handed to [sendto], which the model
    takes to succeed. *)
Definition handle_udp (nb : Z) (inbuf : list Z) (h : gmap loc ldns_pkt)
    (entries : list entry) (count0 : Z) : udp_result :=
  if nb <? 1 then mk_udp_result None count0 [OutRecvfromFailed] h
  else
    let r := handle_query inbuf nb h entries count0 0 transport_udp in
    match outbuf r with
    | None => mk_udp_result None (count r) (printed r) (store r)
    | Some out =>
        mk_udp_result (Some (take (Z.to_nat (answer_size r)) out))
          (count r) (printed r) (store r)
    end.

(** What successive calls of [read] on the connection return: an error, or
    the bytes the kernel has ready (a call takes at most what it asks for).
    When the list is used up the peer has closed and [read] returns 0. *)
Inductive read_event :=
  | ReadError
  | ReadData (bytes : list Z).

Definition sys_read (inbound : list read_event) (n : nat)
  : Z * list Z * list read_event :=
  match inbound with
  | [] => (0, [], [])
  | ReadError :: inbound => (-1, [], inbound)
  | ReadData bytes :: inbound =>
      (Z.of_nat (length (take n bytes)), take n bytes,
       match drop n bytes with
       | [] => inbound
       | rest => ReadData rest :: inbound
       end)
  end.

(** [memcpy] into a buffer at an offset. *)
Definition write_at (buf : list Z) (off : nat) (data : list Z) : list Z :=
  (take off buf ++ data ++ drop (off + length data) buf)%list.

(** [read_n_bytes(sock, buf, sz)], started with [count]: the buffer, the
    rest of the connection and the output; [None] when the loop has not
    finished within [fuel] iterations. *)
Fixpoint read_n_bytes (fuel : nat) (inbound : list read_event) (buf : list Z)
    (count sz : nat) : option (list Z * list read_event * list out_event) :=
  if (sz <=? count)%nat then Some (buf, inbound, [])
  else
    match fuel with
    | O => None
    | S fuel =>
        let '(nb, data, inbound) := sys_read inbound (sz - count) in
        if nb <? 0 then Some (buf, inbound, [OutReadFailed])
        else read_n_bytes fuel inbound (write_at buf count data)
               (count + length data) sz
    end.

Definition INBUF_SIZE : Z := 4096.

(** [ntohs] of a 16-bit variable, given the memory that starts with its
    two bytes. *)
Definition ntohs (mem : list Z) : Z :=
  match mem with
  | b0 :: b1 :: _ => b0 * 256 + b1
  | _ => 0
  end.

(** The two bytes in memory of [htons(v)]. *)
Definition htons (v : Z) : list Z := [to_uint16 v / 256; to_uint16 v mod 256].

Record tcp_result := mk_tcp_result {
  tcp_written : list Z;
  tcp_closed : bool;
  tcp_count : Z;
  tcp_printed : list out_event;
  tcp_store : gmap loc ldns_pkt
}.

(** The block of [handle_tcp] under the comment "tcp recv": the length
    prefix and the payload.  [tcplen_mem] and [inbuf] are the contents of
    the two local variables before anything is read into them. *)
Inductive recv_result :=
  | RecvTooLarge (tcplen : Z) (printed : list out_event)
  | RecvQuery (tcplen : Z) (inbuf : list Z) (printed : list out_event).

Definition tcp_recv (fuel : nat) (inbound : list read_event)
    (tcplen_mem inbuf : list Z) : option recv_result :=
  '(tcplen_mem, inbound, out1) ← read_n_bytes fuel inbound tcplen_mem 0 2;
  let tcplen := ntohs tcplen_mem in
  if tcplen >=? INBUF_SIZE
  then Some (RecvTooLarge tcplen (out1 ++ [OutTooLarge tcplen INBUF_SIZE])%list)
  else
    '(inbuf, inbound, out2) ← read_n_bytes fuel inbound inbuf 0 (Z.to_nat tcplen);
    Some (RecvQuery tcplen inbuf (out1 ++ out2)%list).

(** [handle_tcp]: [s] is what [accept] returns and [inbound] what the
    accepted connection delivers.  [tcp_written] is what [write_n_bytes]
    hands to [write], which the model takes to succeed. *)
Definition handle_tcp (fuel : nat) (s : Z) (inbound : list read_event)
    (tcplen_mem inbuf : list Z) (h : gmap loc ldns_pkt) (entries : list entry)
    (count0 : Z) : option tcp_result :=
  if s <? 0 then Some (mk_tcp_result [] false count0 [OutAcceptFailed] h)
  else
    rcv ← tcp_recv fuel inbound tcplen_mem inbuf;
    match rcv with
    | RecvTooLarge _ out => Some (mk_tcp_result [] true count0 out h)
    | RecvQuery tcplen inbuf out0 =>
        let r := handle_query inbuf tcplen h entries count0 0 transport_tcp in
        match outbuf r with
        | None =>
            Some (mk_tcp_result [] true (count r) (out0 ++ printed r)%list (store r))
        | Some out =>
            Some (mk_tcp_result
                    (htons (answer_size r) ++ take (Z.to_nat (answer_size r)) out)%list
                    true (count r) (out0 ++ printed r)%list (store r))
        end
    end.
End Matcher.

(** ** A small codec to run the model on concrete inputs

    Names are kept as the bytes of their text and compared without regard to
    letter case; a record line is an owner name alone, of type 1; a message on
    the wire is its twelve-byte header, of which only the id is kept; no bytes
    come out of a missing packet. *)

Definition bytes_of_string (s : string) : list Z :=
  map (fun c => Z.of_N (N_of_ascii c)) (list_ascii_of_string s).

Definition lower_byte (b : Z) : Z :=
  if (65 <=? b) && (b <=? 90) then b + 32 else b.

Definition example_dname (s : string) : ldns_rdf := mk_rdf 6 (bytes_of_string s).

Definition example_rr (owner : string) (ttl : Z) : ldns_rr :=
  mk_rr (example_dname owner) ttl 1 1 [].

Definition example_int32 (rdf : ldns_rdf) : Z :=
  match ldns_rdf_data rdf with
  | [a; b; c; d] => ((a * 256 + b) * 256 + c) * 256 + d
  | _ => 0
  end.

Definition example_wire2pkt (data : list Z) : codec_result ldns_pkt :=
  match data with
  | hi :: lo :: _ =>
      if (length data <? 12)%nat then CodecErr 1
      else CodecOk (pkt_set_id (hi * 256 + lo) empty_pkt)
  | _ => CodecErr 1
  end.

Definition example_pkt2wire (p : option ldns_pkt) : ldns_status * option (list Z) * Z :=
  match p with
  | None => (1, None, 0)
  | Some p =>
      (LDNS_STATUS_OK,
       Some [ldns_pkt_id p / 256; ldns_pkt_id p mod 256; 0; 0; 0; 0; 0; 0; 0; 0; 0; 0],
       12)
  end.

#[global] Instance example_codec : Codec := {
  ldns_str2rdf_dname s :=
    match s with
    | EmptyString => CodecErr 1
    | _ => CodecOk (example_dname s)
    end;
  ldns_rr_new_frm_str s ttl origin prev :=
    match snip_word s with
    | EmptyString => CodecErr 1
    | w => CodecOk (example_rr w ttl, Some (example_dname w))
    end;
  ldns_dname_compare a b :=
    if bool_decide (map lower_byte (ldns_rdf_data a) = map lower_byte (ldns_rdf_data b))
    then 0 else 1;
  ldns_rdf2native_int32 := example_int32;
  ldns_wire2pkt := example_wire2pkt;
  ldns_pkt2wire := example_pkt2wire
}.

(** ** The matcher as the specification words it

    Each predicate of an entry, stated on the inbound message [q], the canned
    reply [r] and the transport, and their conjunction over the active ones. *)

Section MatcherSpec.
Context `{Codec}.

Definition first_question (p : ldns_pkt) : option ldns_rr := head (ldns_pkt_question p).

Definition spec_opcode_holds (q r : ldns_pkt) : Prop :=
  ldns_pkt_get_opcode q = ldns_pkt_get_opcode r.

Definition spec_qtype_holds (q r : ldns_pkt) : Prop :=
  from_option ldns_rr_get_type 0 (first_question q)
  = from_option ldns_rr_get_type 0 (first_question r).

Definition spec_qname_holds (q r : ldns_pkt) : Prop :=
  exists a b, first_question q = Some a /\ first_question r = Some b
              /\ ldns_dname_compare (ldns_rr_owner a) (ldns_rr_owner b) = 0.

Definition spec_soa_serial (r : ldns_pkt) : Z :=
  match head (ldns_pkt_authority r) with
  | None => 0
  | Some rr => from_option ldns_rdf2native_int32 0 (ldns_rr_rdfs rr !! 2%nat)
  end.

Definition spec_serial_holds (r : ldns_pkt) (v : Z) : Prop := spec_soa_serial r = v.

Definition spec_transport_holds (m t : transport_type) : Prop :=
  m = transport_any \/ m = t.

Definition entry_matches (h : gmap loc ldns_pkt) (q : ldns_pkt)
    (t : transport_type) (e : entry) : Prop :=
  (match_opcode e = true -> spec_opcode_holds q (h !!! reply e))
  /\ (match_qtype e = true -> spec_qtype_holds q (h !!! reply e))
  /\ (match_qname e = true -> spec_qname_holds q (h !!! reply e))
  /\ (match_serial e = true -> spec_serial_holds (h !!! reply e) (ixfr_soa_serial e))
  /\ spec_transport_holds (match_transport e) t.

(** The entry [e], alone in a list, is the one [find_match] returns. *)
Definition entry_fires (h : gmap loc ldns_pkt) (e : entry) (q : ldns_pkt)
    (t : transport_type) : Prop :=
  find_match h [e] q t = Some e.
End MatcherSpec.

(** ** Lines of the data file, as the grammar classifies them *)

(** The section that the text after the SECTION keyword names. *)
Definition section_named (parse : string) : option ldns_pkt_section :=
  match str_keyword parse "QUESTION" with
  | Some _ => Some LDNS_SECTION_QUESTION
  | None =>
  match str_keyword parse "ANSWER" with
  | Some _ => Some LDNS_SECTION_ANSWER
  | None =>
  match str_keyword parse "AUTHORITY" with
  | Some _ => Some LDNS_SECTION_AUTHORITY
  | None =>
  match str_keyword parse "ADDITIONAL" with
  | Some _ => Some LDNS_SECTION_ADDITIONAL
  | None => None
  end end end end.

(** The line has content and its content starts with [keyword]. *)
Definition directive_line (keyword line : string) : Prop :=
  isendline (peek (skip_space line)) = false
  /\ is_Some (str_keyword (skip_space line) keyword).

Definition keywords : list string :=
  [ "ENTRY_BEGIN"; "$ORIGIN"; "$TTL"; "MATCH"; "REPLY"; "ADJUST"; "SECTION"; "ENTRY_END" ].

(** The line has content and starts with no keyword: a record specification. *)
Definition record_line (line : string) : Prop :=
  isendline (peek (skip_space line)) = false
  /\ Forall (fun keyword => str_keyword (skip_space line) keyword = None) keywords.

(** Two keywords that differ at a position both have: no string starts with
    both. *)
Fixpoint diverge (k1 k2 : string) : bool :=
  match k1, k2 with
  | String a k1, String b k2 => if Ascii.eqb a b then diverge k1 k2 else true
  | _, _ => false
  end.

(** What the parser maintains between lines: [current] is the last element of
    the list; the counter counts the closed entries; every canned reply is
    allocated, and no two entries share one. *)
Record pstate_inv (st : pstate) : Prop := mk_pstate_inv {
  inv_current : forall i, current st = Some i -> S i = length (entries st);
  inv_entry_num :
    entry_num st + match current st with Some _ => 1 | None => 0 end
    = Z.of_nat (length (entries st));
  inv_alloc : Forall (fun e => is_Some (heap st !! reply e)) (entries st);
  inv_nodup : NoDup (reply <$> entries st)
}.

(** ** What a line does to the parse state

    The successful outcomes of one loop iteration as a step relation, in the
    terms of the grammar: [line_effect line st st'] relates the state [st]
    (with the line already counted) to the state after the line.  The lemma
    [read_line_effect] below derives it from [read_line]. *)

Section ParserSteps.
Context `{Codec}.

Inductive line_effect (line : string) (st : pstate) : pstate -> Prop :=
  | LineSkip :
      isendline (peek (skip_space line)) = true ->
      line_effect line st st
  | LineBegin r :
      directive_line "ENTRY_BEGIN" line ->
      current st = None ->
      heap st !! r = None ->
      line_effect line st
        (set_current (Some (length (entries st)))
           (set_entries
              (entries st ++ [mk_entry false false false false 0 transport_any r false])%list
              (set_heap (<[r := empty_pkt]> (heap st)) st)))
  | LineOrigin parse d :
      str_keyword (skip_space line) "$ORIGIN" = Some parse ->
      ldns_str2rdf_dname (snip_word parse) = CodecOk d ->
      line_effect line st
        (set_origin (Some d)
           (set_stdout (stdout st ++ [OutParsing (snip_word parse)])%list st))
  | LineTtl parse :
      str_keyword (skip_space line) "$TTL" = Some parse ->
      line_effect line st (set_default_ttl (to_uint16 (atoi parse)) st)
  | LineMatch cur e e' :
      directive_line "MATCH" line ->
      current st = Some cur ->
      entries st !! cur = Some e ->
      reply e' = reply e ->
      line_effect line st (set_entries (<[cur := e']> (entries st)) st)
  | LineReply cur e h' :
      directive_line "REPLY" line ->
      current st = Some cur ->
      entries st !! cur = Some e ->
      (forall l, is_Some (h' !! l) <-> is_Some (heap st !! l)) ->
      (forall l, l <> reply e -> h' !! l = heap st !! l) ->
      line_effect line st (set_heap h' st)
  | LineAdjust cur e e' :
      directive_line "ADJUST" line ->
      current st = Some cur ->
      entries st !! cur = Some e ->
      reply e' = reply e ->
      line_effect line st (set_entries (<[cur := e']> (entries st)) st)
  | LineSection cur parse sec :
      isendline (peek (skip_space line)) = false ->
      str_keyword (skip_space line) "SECTION" = Some parse ->
      section_named parse = Some sec ->
      current st = Some cur ->
      line_effect line st (set_add_section sec st)
  | LineEnd cur :
      directive_line "ENTRY_END" line ->
      current st = Some cur ->
      line_effect line st (set_entry_num (entry_num st + 1) (set_current None st))
  | LineRecord cur e n prev :
      record_line line ->
      current st = Some cur ->
      entries st !! cur = Some e ->
      ldns_rr_new_frm_str (skip_space line) (default_ttl st) (origin st) (prev_rr st)
      = CodecOk (n, prev) ->
      line_effect line st
        (set_heap (alter (pkt_push_rr (add_section st) n) (reply e) (heap st))
           (set_prev_rr prev st)).
End ParserSteps.

(** ** Notions used in the statements *)

(** Every field of [a] other than the transaction id is that of [r]. *)
Definition same_but_id (a r : ldns_pkt) : Prop :=
  ldns_pkt_qr a = ldns_pkt_qr r
  /\ ldns_pkt_aa a = ldns_pkt_aa r
  /\ ldns_pkt_tc a = ldns_pkt_tc r
  /\ ldns_pkt_rd a = ldns_pkt_rd r
  /\ ldns_pkt_cd a = ldns_pkt_cd r
  /\ ldns_pkt_ra a = ldns_pkt_ra r
  /\ ldns_pkt_ad a = ldns_pkt_ad r
  /\ ldns_pkt_get_opcode a = ldns_pkt_get_opcode r
  /\ ldns_pkt_get_rcode a = ldns_pkt_get_rcode r
  /\ ldns_pkt_question a = ldns_pkt_question r
  /\ ldns_pkt_answer a = ldns_pkt_answer r
  /\ ldns_pkt_authority a = ldns_pkt_authority r
  /\ ldns_pkt_additional a = ldns_pkt_additional r.

(** The line is not a SECTION directive. *)
Definition no_section_directive (line : string) : Prop :=
  str_keyword (skip_space line) "SECTION" = None.

(** The state of the parser after the lines [lines] of a file it accepts. *)
Definition state_after `{Codec} (name : string) (lines : list string) : pstate :=
  match read_lines name init_pstate lines with
  | Ok st => st
  | _ => init_pstate
  end.

(** The lines that are valid inside an entry only. *)
Definition entry_only_line (line : string) : Prop :=
  directive_line "MATCH" line \/ directive_line "REPLY" line
  \/ directive_line "ADJUST" line \/ directive_line "SECTION" line
  \/ directive_line "ENTRY_END" line \/ record_line line.

(** The number that a string of decimal digits denotes. *)
Fixpoint decimal_value (digits : list ascii) : Z :=
  match digits with
  | [] => 0
  | c :: digits => digit_val c * 10 ^ Z.of_nat (length digits) + decimal_value digits
  end.

(** The line is not a $TTL directive. *)
Definition no_ttl_directive (line : string) : Prop :=
  str_keyword (skip_space line) "$TTL" = None.

(** The bytes that the connection delivers before its first error. *)
Fixpoint bytes_ready (inbound : list read_event) : list Z :=
  match inbound with
  | ReadData bytes :: inbound => bytes ++ bytes_ready inbound
  | _ => []
  end.

(** ** Examples

    Packets, entries, data files and requests on which the model is run,
    with the example codec. *)

(** A store, a list of entries and queries for the examples. *)
Definition example_reply : ldns_pkt :=
  pkt_push_rr LDNS_SECTION_QUESTION (example_rr "www.example.com." 3600)
    (pkt_set_aa true (pkt_set_qr true (pkt_set_id 7 empty_pkt))).

Definition example_store : gmap loc ldns_pkt := {[ 1%positive := example_reply ]}.

Definition example_entry : entry :=
  mk_entry false false true false 0 transport_any 1%positive true.

Definition example_query : ldns_pkt :=
  pkt_push_rr LDNS_SECTION_QUESTION (example_rr "WWW.Example.COM." 0)
    (pkt_set_id 4242 empty_pkt).

(** Data files for the examples, each line with the newline that [fgets]
    leaves at its end. *)
Definition nl : string := String "010" EmptyString.

Definition text_lines (lines : list string) : list string :=
  map (fun line => line +:+ nl) lines.

Definition example_section_file : list string :=
  text_lines
    [ "ENTRY_BEGIN";
      "SECTION ANSWER";
      "ENTRY_END" ].

Definition example_dangling : list string :=
  text_lines
    [ "ENTRY_BEGIN";
      "REPLY QR";
      "ENTRY_END";
      "ENTRY_BEGIN";
      "MATCH UDP" ].

Definition example_ttl : list string :=
  text_lines
    [ "ENTRY_BEGIN";
      "$TTL 86400";
      "www.example.com." ].

Definition example_record_first : list string :=
  text_lines
    [ "; a record before any entry";
      "www.example.com. IN A 10.0.0.1" ].

(** A query on the wire for the example codec: id 42 and no question. *)
Definition example_wire : list Z := [0; 42; 1; 0; 0; 0; 0; 0; 0; 0; 0; 0].

(** An entry without any active predicate, with its own canned reply, and a
    store that holds both canned replies. *)
Definition example_wildcard : entry :=
  mk_entry false false false false 0 transport_any 2%positive false.

Definition example_store2 : gmap loc ldns_pkt :=
  <[ 2%positive := pkt_set_id 9 empty_pkt ]> example_store.

(** An SOA record as the example codec holds it: its third data field is the
    serial 100. *)
Definition example_soa : ldns_rr :=
  mk_rr (example_dname "example.com.") 3600 1 6
    [ example_dname "ns.example.com."; example_dname "admin.example.com.";
      mk_rdf 2 [0; 0; 0; 100] ].

Definition example_serial_store : gmap loc ldns_pkt :=
  {[ 1%positive := pkt_push_rr LDNS_SECTION_AUTHORITY example_soa empty_pkt ]}.

Definition example_serial_entry (v : Z) : entry :=
  mk_entry false false false true v transport_any 1%positive false.

(** A codec that differs from the example codec at the missing packet only:
    its encoder answers NULL with a message of twelve zero bytes and the
    status OK. *)
Definition lenient_pkt2wire (p : option ldns_pkt) : ldns_status * option (list Z) * Z :=
  match p with
  | None => (LDNS_STATUS_OK, Some [0; 0; 0; 0; 0; 0; 0; 0; 0; 0; 0; 0], 12)
  | Some _ => example_pkt2wire p
  end.

Definition lenient_codec : Codec := {|
  ldns_str2rdf_dname := @ldns_str2rdf_dname example_codec;
  ldns_rr_new_frm_str := @ldns_rr_new_frm_str example_codec;
  ldns_dname_compare := @ldns_dname_compare example_codec;
  ldns_rdf2native_int32 := example_int32;
  ldns_wire2pkt := example_wire2pkt;
  ldns_pkt2wire := lenient_pkt2wire
|}.

(** ** Notions used in the further properties *)

(** No keyword of the table can hide a later one: every keyword differs
    from each keyword after it at a position that both have. *)
Fixpoint unshadowed {A} (table : list (string * A)) : bool :=
  match table with
  | [] => true
  | (k, _) :: table => forallb (fun ka => diverge ka.1 k) table && unshadowed table
  end.

(** The text of a REPLY line: keywords of [replyline], each followed by the
    white space [tok.2] (which may be empty), then [tail]. *)
Definition reply_text (toks : list (string * (ldns_pkt -> ldns_pkt) * string))
    (tail : string) : string :=
  fold_right (fun tok s => tok.1.1 +:+ tok.2 +:+ s) tail toks.

(** The words of a MATCH line; a serial has its separator and its digits. *)
Inductive match_token :=
  | TokOpcode
  | TokQtype
  | TokQname
  | TokUDP
  | TokTCP
  | TokSerial (sep : ascii) (digits : list ascii).

(** The text of a word. *)
Definition match_token_text (tok : match_token) : string :=
  match tok with
  | TokOpcode => "opcode"
  | TokQtype => "qtype"
  | TokQname => "qname"
  | TokUDP => "UDP"
  | TokTCP => "TCP"
  | TokSerial sep digits => "serial" +:+ String sep (string_of_list_ascii digits)
  end.

(** What [matchline] does to the entry at a word. *)
Definition match_token_effect (tok : match_token) (e : entry) : entry :=
  match tok with
  | TokOpcode => set_match_opcode true e
  | TokQtype => set_match_qtype true e
  | TokQname => set_match_qname true e
  | TokUDP => set_match_transport transport_udp e
  | TokTCP => set_match_transport transport_tcp e
  | TokSerial _ digits =>
      set_ixfr_soa_serial (to_uint32 (clamp_long (decimal_value digits)))
        (set_match_serial true e)
  end.

(** A serial is written with [=] or [:] and at least one decimal digit. *)
Definition match_token_ok (tok : match_token) : Prop :=
  match tok with
  | TokSerial sep digits =>
      (sep = "="%char \/ sep = ":"%char)
      /\ digits <> [] /\ Forall (fun c => isdigit c = true) digits
  | _ => True
  end.

(** The text of a MATCH line: words, each followed by the white space
    [tok.2] (which may be empty), then [tail]. *)
Definition match_text (toks : list (match_token * string)) (tail : string) : string :=
  fold_right (fun tok s => match_token_text tok.1 +:+ tok.2 +:+ s) tail toks.

(** ** What the directive interpreters keep *)

(** What [e'] keeps of the predicates of [e]: a match flag that is set in
    [e] is set in [e'], and a transport that is chosen in [e] is not
    [transport_any] in [e']. *)
Definition flags_kept (e e' : entry) : Prop :=
  (match_opcode e = true -> match_opcode e' = true)
  /\ (match_qtype e = true -> match_qtype e' = true)
  /\ (match_qname e = true -> match_qname e' = true)
  /\ (match_serial e = true -> match_serial e' = true)
  /\ (match_transport e <> transport_any -> match_transport e' <> transport_any).

(** ** Notions for the parser's context and messages *)

(** The line is not a $ORIGIN directive. *)
Definition no_origin_directive (line : string) : Prop :=
  str_keyword (skip_space line) "$ORIGIN" = None.

(** The line number that a message of [error()] carries, when it has one. *)
Definition error_lineno (m : fatal_error) : option Z :=
  match m with
  | ErrPrevEntry _ n | ErrExpectedBegin _ n _ | ErrBadSection _ n _
  | ErrOrigin _ n _ _ | ErrRR _ n _ _ => Some n
  | _ => None
  end.

(** An entry without any active predicate. *)
Definition catch_all (e : entry) : Prop :=
  match_opcode e = false /\ match_qtype e = false /\ match_qname e = false
  /\ match_serial e = false /\ match_transport e = transport_any.

(** The packet that [get_answer] builds from the entry [m] for the query
    [q]: the canned reply, with the id of the query when [copy_id] is set. *)
Definition answer_of (h : gmap loc ldns_pkt) (m : entry) (q : ldns_pkt) : ldns_pkt :=
  if copy_id m then pkt_set_id (ldns_pkt_id q) (h !!! reply m) else h !!! reply m.

(** ** Errors on the connection, and the write side *)

(** The connection delivers no read error. *)
Definition no_read_error (inbound : list read_event) : Prop :=
  Forall (fun ev => ev <> ReadError) inbound.

(** What successive calls of [write] on the connection return: an error, or
    the number of bytes the kernel takes (a call gives at most what it is
    offered).  When the list is used up the peer has gone and [write] fails. *)
Inductive write_event :=
  | WriteError
  | WriteAccept (n : nat).

(** One call of [write] that offers [data]: what it returns, the bytes it
    takes and the rest of the connection. *)
Definition sys_write (outbound : list write_event) (data : list Z)
  : Z * list Z * list write_event :=
  match outbound with
  | [] => (-1, [], [])
  | WriteError :: outbound => (-1, [], outbound)
  | WriteAccept n :: outbound =>
      (Z.of_nat (length (take n data)), take n data, outbound)
  end.

(** [write_n_bytes(sock, buf, sz)], started with [count]: the bytes handed
    to the connection, the rest of the connection and whether the message of
    a failed [write] was printed; [None] when the loop has not finished within
    [fuel] iterations. *)
Fixpoint write_n_bytes (fuel : nat) (outbound : list write_event) (buf : list Z)
    (count sz : nat) : option (list Z * list write_event * bool) :=
  if (sz <=? count)%nat then Some ([], outbound, false)
  else
    match fuel with
    | O => None
    | S fuel =>
        let '(nb, sent, outbound) :=
          sys_write outbound (take (sz - count) (drop count buf)) in
        if nb <? 0 then Some ([], outbound, true)
        else
          '(more, outbound, failed) ←
            write_n_bytes fuel outbound buf (count + length sent) sz;
          Some (sent ++ more, outbound, failed)%list
    end.

(** * Properties *)

(** ** Grammar primitives *)

Lemma skip_space_length s : (String.length (skip_space s) <= String.length s)%nat.
Proof.
  induction s as [|c s IH]; simpl; [lia|].
  destruct (isspace c); simpl; lia.
Qed.

Lemma strip_prefix_length keyword : forall s rest,
  strip_prefix keyword s = Some rest ->
  String.length s = (String.length keyword + String.length rest)%nat.
Proof.
  induction keyword as [|k keyword IH]; intros s rest Hs; simpl in *.
  - congruence.
  - destruct s as [|c s]; [discriminate|].
    destruct (Ascii.eqb c k); [|discriminate].
    simpl. rewrite (IH _ _ Hs). reflexivity.
Qed.

Lemma str_keyword_length str keyword rest :
  str_keyword str keyword = Some rest ->
  (String.length rest + String.length keyword <= String.length str)%nat.
Proof.
  unfold str_keyword. destruct (strip_prefix keyword str) as [r|] eqn:Hr; [|discriminate].
  intros [= <-]. pose proof (skip_space_length r).
  rewrite (strip_prefix_length _ _ _ Hr). lia.
Qed.

Lemma read_digits_length s : forall acc,
  (String.length (snd (read_digits s acc)) <= String.length s)%nat.
Proof.
  induction s as [|c s IH]; intros acc; simpl; [lia|].
  destruct (isdigit c); simpl; [|lia].
  specialize (IH (10 * acc + digit_val c)). lia.
Qed.

Lemma advance_length s : (String.length (advance s) <= String.length s)%nat.
Proof. destruct s; simpl; lia. Qed.

Lemma strtol_length nptr :
  (String.length (snd (strtol nptr)) <= String.length nptr)%nat.
Proof.
  unfold strtol.
  pose proof (skip_space_length nptr) as Hs.
  pose proof (advance_length (skip_space nptr)) as Ha.
  pose proof (read_digits_length (skip_space nptr) 0) as Hd.
  pose proof (read_digits_length (advance (skip_space nptr)) 0) as Hd'.
  repeat match goal with
         | |- context [if ?b then _ else _] => destruct b
         | |- context [let '(_, _) := ?p in _] => destruct p
         end; simpl in *; lia.
Qed.

Lemma diverge_excl k1 : forall k2 s rest,
  diverge k1 k2 = true -> strip_prefix k1 s = Some rest -> strip_prefix k2 s = None.
Proof.
  induction k1 as [|a k1 IH]; intros k2 s rest Hd Hs; simpl in *; [discriminate|].
  destruct k2 as [|b k2]; [discriminate|].
  destruct s as [|c s]; [discriminate|]. simpl.
  destruct (Ascii.eqb_spec c a) as [->|]; [|discriminate].
  destruct (Ascii.eqb_spec a b) as [->|Hab]; [eauto|reflexivity].
Qed.

Lemma str_keyword_excl k1 k2 s :
  diverge k1 k2 = true -> is_Some (str_keyword s k1) -> str_keyword s k2 = None.
Proof.
  unfold str_keyword. intros Hd [r Hr].
  destruct (strip_prefix k1 s) as [r1|] eqn:H1; [|discriminate].
  rewrite (diverge_excl _ _ _ _ Hd H1). reflexivity.
Qed.

(** ** The entry matcher *)

Section MatcherProps.
Context `{Codec}.

Lemma get_qtype_spec p :
  get_qtype p = from_option ldns_rr_get_type 0 (first_question p).
Proof.
  unfold get_qtype, first_question, ldns_rr_list_rr.
  rewrite head_lookup. destruct (ldns_pkt_question p !! 0%nat); reflexivity.
Qed.

Lemma get_owner_spec p : get_owner p = ldns_rr_owner <$> first_question p.
Proof.
  unfold get_owner, first_question, ldns_rr_list_rr.
  rewrite head_lookup. destruct (ldns_pkt_question p !! 0%nat); reflexivity.
Qed.

Lemma get_serial_spec p : get_serial p = spec_soa_serial p.
Proof.
  unfold get_serial, spec_soa_serial, ldns_rr_list_rr, ldns_rr_rdf.
  rewrite head_lookup. destruct (ldns_pkt_authority p !! 0%nat) as [rr|]; [|reflexivity].
  destruct (ldns_rr_rdfs rr !! 2%nat); reflexivity.
Qed.

Lemma qtype_test q r :
  negb (get_qtype q =? get_qtype r) = false <-> spec_qtype_holds q r.
Proof.
  unfold spec_qtype_holds. rewrite <- !get_qtype_spec, negb_false_iff. apply Z.eqb_eq.
Qed.

Lemma qname_test q r :
  match get_owner q, get_owner r with
  | Some a, Some b => negb (ldns_dname_compare a b =? 0)
  | _, _ => true
  end = false <-> spec_qname_holds q r.
Proof.
  unfold spec_qname_holds. rewrite !get_owner_spec.
  destruct (first_question q) as [a|], (first_question r) as [b|]; simpl.
  - rewrite negb_false_iff, Z.eqb_eq. split.
    + intros Hc. exists a, b. auto.
    + intros (a' & b' & [= <-] & [= <-] & Hc). exact Hc.
  - split; [discriminate|]. intros (? & ? & _ & [=] & _).
  - split; [discriminate|]. intros (? & ? & [=] & _).
  - split; [discriminate|]. intros (? & ? & [=] & _).
Qed.

Lemma serial_test r v :
  negb (get_serial r =? v) = false <-> spec_serial_holds r v.
Proof.
  unfold spec_serial_holds. rewrite <- get_serial_spec, negb_false_iff. apply Z.eqb_eq.
Qed.

Lemma transport_test (m t : transport_type) :
  negb (bool_decide (m = transport_any)) && negb (bool_decide (m = t)) = false
  <-> spec_transport_holds m t.
Proof.
  unfold spec_transport_holds.
  destruct (decide (m = transport_any)) as [->|Hn].
  - rewrite bool_decide_eq_true_2 by reflexivity. simpl. tauto.
  - rewrite (bool_decide_eq_false_2 _ Hn). simpl.
    rewrite negb_false_iff, bool_decide_eq_true. tauto.
Qed.

Lemma active_test (flag test : bool) (P : Prop) :
  (test = false <-> P) -> (flag && test = false <-> (flag = true -> P)).
Proof. destruct flag, test; simpl; intuition congruence. Qed.

(** One iteration of the loop: the entry is returned when its conjunction
    holds, and the scan moves on when it does not. *)
Lemma find_match_head h p next q t :
  (entry_matches h q t p /\ find_match h (p :: next) q t = Some p)
  \/ (~ entry_matches h q t p
      /\ find_match h (p :: next) q t = find_match h next q t).
Proof.
  pose proof (active_test (match_qtype p) _ _ (qtype_test q (h !!! reply p))) as T2.
  pose proof (active_test (match_qname p) _ _ (qname_test q (h !!! reply p))) as T3.
  pose proof (active_test (match_serial p) _ _
                (serial_test (h !!! reply p) (ixfr_soa_serial p))) as T4.
  pose proof (transport_test (match_transport p) t) as T5.
  unfold entry_matches. simpl.
  destruct (match_opcode p && negb (_ =? _)) eqn:E1.
  { right. split; [|reflexivity]. intros (Ho & _).
    apply andb_true_iff in E1 as [Hf Hn]. apply negb_true_iff, Z.eqb_neq in Hn.
    apply Hn, Ho, Hf. }
  destruct (match_qtype p && _) eqn:E2.
  { right. split; [|reflexivity]. intros (_ & Ht & _).
    apply T2 in Ht. discriminate. }
  destruct (match_qname p && _) eqn:E3.
  { right. split; [|reflexivity]. intros (_ & _ & Hn & _).
    apply T3 in Hn. discriminate. }
  destruct (match_serial p && _) eqn:E4.
  { right. split; [|reflexivity]. intros (_ & _ & _ & Hs & _).
    apply T4 in Hs. discriminate. }
  destruct (negb _ && negb _) eqn:E5.
  { right. split; [|reflexivity]. intros (_ & _ & _ & _ & Ht).
    apply T5 in Ht. discriminate. }
  left. split; [|reflexivity].
  repeat split.
  - intros Hf. apply andb_false_iff in E1 as [E1|E1]; [congruence|].
    apply negb_false_iff, Z.eqb_eq in E1. exact E1.
  - apply T2. reflexivity.
  - apply T3. reflexivity.
  - apply T4. reflexivity.
  - apply T5. reflexivity.
Qed.

(** C1. [find_match] returns the first entry, in the order of the list,
    whose active predicates all hold (an inactive predicate asks nothing):
    every entry before the one returned has an active predicate that fails,
    and NULL is returned exactly when no entry of the list matches. *)
Theorem find_match_first_in_order h entries q t :
  match find_match h entries q t with
  | Some e =>
      exists before after,
        entries = (before ++ e :: after)%list
        /\ Forall (fun e' => ~ entry_matches h q t e') before
        /\ entry_matches h q t e
  | None => Forall (fun e' => ~ entry_matches h q t e') entries
  end.
Proof.
  induction entries as [|p next IH].
  - simpl. constructor.
  - destruct (find_match_head h p next q t) as [[Hm ->]|[Hn ->]].
    + exists [], next. split; [reflexivity|]. split; [constructor|exact Hm].
    + destruct (find_match h next q t) as [e|].
      * destruct IH as (before & after & -> & Hb & He).
        exists (p :: before), after. split; [reflexivity|].
        split; [constructor; assumption|exact He].
      * constructor; assumption.
Qed.
End MatcherProps.

Section PredicateProps.
Context `{Codec}.

Lemma entry_fires_iff h e q t : entry_fires h e q t <-> entry_matches h q t e.
Proof.
  unfold entry_fires.
  destruct (find_match_head h e [] q t) as [[Hm ->]|[Hn ->]]; simpl.
  - tauto.
  - split; [discriminate|contradiction].
Qed.

(** C2. With the serial predicate active, an entry is selected exactly when
    it is selected without that predicate and the serial read from the first
    record of the canned reply's authority section (its third data field; 0
    when the section is empty or the record has no such field) equals the
    literal of the entry.  The added condition mentions the canned reply and
    the literal only: it is the same for every inbound message and
    transport.  So an entry whose other active predicates hold is selected
    when that serial is the literal and is not when it is another number; and
    [find_match], at an entry with no other predicate, returns it when the
    serial is the literal and goes on to the next entry when it is not. *)
Theorem serial_match_reads_reply h e q t :
  (entry_fires h (set_match_serial true e) q t
   <-> entry_fires h (set_match_serial false e) q t
       /\ get_serial (h !!! reply e) = ixfr_soa_serial e)
  /\ (forall r,
        get_serial r =
          match ldns_pkt_authority r with
          | [] => 0
          | rr :: _ =>
              match ldns_rr_rdfs rr with
              | _ :: _ :: rdf :: _ => ldns_rdf2native_int32 rdf
              | _ => 0
              end
          end)
  /\ (forall v l c q' t',
        entry_fires h (mk_entry false false false true v transport_any l c) q t
        <-> entry_fires h (mk_entry false false false true v transport_any l c) q' t')
  /\ (entry_matches h q t (set_match_serial false e) ->
      (entry_fires h (set_match_serial true e) q t
       <-> get_serial (h !!! reply e) = ixfr_soa_serial e))
  /\ (forall v l c next,
        find_match h (mk_entry false false false true v transport_any l c :: next) q t
        = if get_serial (h !!! l) =? v
          then Some (mk_entry false false false true v transport_any l c)
          else find_match h next q t).
Proof.
  split; [|split; [|split; [|split]]].
  - rewrite !entry_fires_iff. unfold entry_matches, spec_serial_holds. simpl.
    rewrite <- get_serial_spec. intuition congruence.
  - intros r. unfold get_serial, ldns_rr_list_rr, ldns_rr_rdf.
    destruct (ldns_pkt_authority r) as [|rr rest]; [reflexivity|]. simpl.
    destruct (ldns_rr_rdfs rr) as [|x [|y [|z l]]]; reflexivity.
  - intros v l c q' t'. rewrite !entry_fires_iff. unfold entry_matches. simpl.
    unfold spec_transport_holds. intuition congruence.
  - rewrite entry_fires_iff. unfold entry_matches, spec_serial_holds. simpl.
    rewrite <- get_serial_spec. intuition congruence.
  - intros v l c next. cbn [find_match match_opcode match_qtype match_qname match_serial
                              match_transport reply ixfr_soa_serial andb].
    destruct (get_serial (h !!! l) =? v); reflexivity.
Qed.

(** C7. With the query-type predicate active, an entry is selected exactly
    when it is selected without it and the two record types are equal, where
    a message without a first question has type 0 (two messages without
    questions agree).  With the query-name predicate active, it is selected
    exactly when it is selected without it, both messages have a first
    question and [ldns_dname_compare] finds the two owner names equal; a
    missing question on either side makes the entry fail.  So an entry whose
    other active predicates hold is selected with the query-type predicate
    exactly when the two types are equal, and it is when neither message has
    a question; with the query-name predicate it is selected exactly when
    both first questions are there and their owner names compare equal.
    [find_match], at an entry with one of the two predicates and no other,
    returns the entry or goes on to the next one accordingly. *)
Theorem question_predicates h e q t :
  (entry_fires h (set_match_qtype true e) q t
   <-> entry_fires h (set_match_qtype false e) q t
       /\ get_qtype q = get_qtype (h !!! reply e))
  /\ (forall p,
        get_qtype p =
          match ldns_pkt_question p with
          | [] => 0
          | rr :: _ => ldns_rr_get_type rr
          end)
  /\ (ldns_pkt_question q = [] -> ldns_pkt_question (h !!! reply e) = [] ->
      get_qtype q = get_qtype (h !!! reply e))
  /\ (entry_fires h (set_match_qname true e) q t
      <-> entry_fires h (set_match_qname false e) q t
          /\ exists a qs b rs,
               ldns_pkt_question q = a :: qs
               /\ ldns_pkt_question (h !!! reply e) = b :: rs
               /\ ldns_dname_compare (ldns_rr_owner a) (ldns_rr_owner b) = 0)
  /\ (ldns_pkt_question q = [] \/ ldns_pkt_question (h !!! reply e) = [] ->
      ~ entry_fires h (set_match_qname true e) q t)
  /\ (entry_matches h q t (set_match_qtype false e) ->
      (entry_fires h (set_match_qtype true e) q t
       <-> get_qtype q = get_qtype (h !!! reply e))
      /\ (ldns_pkt_question q = [] -> ldns_pkt_question (h !!! reply e) = [] ->
          entry_fires h (set_match_qtype true e) q t))
  /\ (entry_matches h q t (set_match_qname false e) ->
      (entry_fires h (set_match_qname true e) q t
       <-> exists a qs b rs,
             ldns_pkt_question q = a :: qs
             /\ ldns_pkt_question (h !!! reply e) = b :: rs
             /\ ldns_dname_compare (ldns_rr_owner a) (ldns_rr_owner b) = 0))
  /\ (forall v l c next,
        find_match h (mk_entry false true false false v transport_any l c :: next) q t
        = if get_qtype q =? get_qtype (h !!! l)
          then Some (mk_entry false true false false v transport_any l c)
          else find_match h next q t)
  /\ (forall v l c next,
        find_match h (mk_entry false false true false v transport_any l c :: next) q t
        = match ldns_pkt_question q, ldns_pkt_question (h !!! l) with
          | a :: _, b :: _ =>
              if ldns_dname_compare (ldns_rr_owner a) (ldns_rr_owner b) =? 0
              then Some (mk_entry false false true false v transport_any l c)
              else find_match h next q t
          | _, _ => find_match h next q t
          end).
Proof.
  assert (Hqn : spec_qname_holds q (h !!! reply e) <->
                exists a qs b rs,
                  ldns_pkt_question q = a :: qs
                  /\ ldns_pkt_question (h !!! reply e) = b :: rs
                  /\ ldns_dname_compare (ldns_rr_owner a) (ldns_rr_owner b) = 0).
  { unfold spec_qname_holds, first_question. split.
    - intros (a & b & Ha & Hb & Hc).
      destruct (ldns_pkt_question q) as [|a' qs]; [discriminate|].
      destruct (ldns_pkt_question (h !!! reply e)) as [|b' rs]; [discriminate|].
      simpl in *. exists a', qs, b', rs. repeat split; congruence.
    - intros (a & qs & b & rs & -> & -> & Hc). exists a, b. auto. }
  assert (Hnil : ldns_pkt_question q = [] -> ldns_pkt_question (h !!! reply e) = [] ->
                 get_qtype q = get_qtype (h !!! reply e)).
  { intros Hq Hr. unfold get_qtype, ldns_rr_list_rr. rewrite Hq, Hr. reflexivity. }
  assert (Hty : entry_matches h q t (set_match_qtype false e) ->
                (entry_fires h (set_match_qtype true e) q t
                 <-> get_qtype q = get_qtype (h !!! reply e))).
  { rewrite entry_fires_iff. unfold entry_matches, spec_qtype_holds. simpl.
    rewrite <- !get_qtype_spec. intuition congruence. }
  split; [|split; [|split; [|split; [|split; [|split; [|split; [|split]]]]]]].
  - rewrite !entry_fires_iff. unfold entry_matches, spec_qtype_holds. simpl.
    rewrite <- !get_qtype_spec. intuition congruence.
  - intros p. unfold get_qtype, ldns_rr_list_rr.
    destruct (ldns_pkt_question p); reflexivity.
  - exact Hnil.
  - rewrite !entry_fires_iff. unfold entry_matches. simpl. rewrite <- Hqn.
    intuition congruence.
  - intros Hno. rewrite entry_fires_iff. unfold entry_matches. simpl.
    intros (_ & _ & Hn & _). specialize (Hn eq_refl). apply Hqn in Hn.
    destruct Hn as (a & qs & b & rs & Ha & Hb & _).
    destruct Hno; congruence.
  - intros Hm. split; [exact (Hty Hm)|].
    intros Hq Hr. apply (Hty Hm), Hnil; assumption.
  - rewrite entry_fires_iff. unfold entry_matches. simpl. rewrite <- Hqn.
    intuition congruence.
  - intros v l c next. cbn [find_match match_opcode match_qtype match_qname match_serial
                              match_transport reply ixfr_soa_serial andb].
    destruct (get_qtype q =? get_qtype (h !!! l)); reflexivity.
  - intros v l c next. cbn [find_match match_opcode match_qtype match_qname match_serial
                              match_transport reply ixfr_soa_serial andb].
    unfold get_owner, ldns_rr_list_rr.
    destruct (ldns_pkt_question q) as [|a qs];
      destruct (ldns_pkt_question (h !!! l)) as [|b rs]; try reflexivity.
    simpl. destruct (ldns_dname_compare (ldns_rr_owner a) (ldns_rr_owner b) =? 0);
      reflexivity.
Qed.
End PredicateProps.

(** ** The response builder *)

Section BuilderProps.
Context `{Codec}.

Lemma same_but_id_refl r : same_but_id r r.
Proof. repeat split. Qed.

Lemma same_but_id_set_id v r : same_but_id (pkt_set_id v r) r.
Proof. repeat split. Qed.

(** C3. When [find_match] selects the entry [e], whose canned reply is [r],
    [get_answer] returns a packet at a location that was free before the
    call; its transaction id is the inbound one when [copy_id] is set and
    the canned one when it is not, and every other field is that of [r].
    The store is unchanged at every other location: the canned reply of [e]
    is still [r]. *)
Theorem get_answer_clones_reply h entries q t e r :
  find_match h entries q t = Some e ->
  h !! reply e = Some r ->
  exists l h' a,
    get_answer h entries q t = (Some l, h')
    /\ h !! l = None
    /\ h' !! l = Some a
    /\ ldns_pkt_id a = (if copy_id e then ldns_pkt_id q else ldns_pkt_id r)
    /\ same_but_id a r
    /\ h' !! reply e = Some r
    /\ forall l', l' <> l -> h' !! l' = h !! l'.
Proof.
  intros Hfind Hr. unfold get_answer. rewrite Hfind. unfold ldns_pkt_clone.
  rewrite (lookup_total_correct _ _ _ Hr).
  set (l := fresh (dom h)).
  assert (Hl : h !! l = None) by (apply not_elem_of_dom, is_fresh).
  assert (Hne : reply e <> l) by congruence.
  destruct (copy_id e).
  - exists l, (alter (pkt_set_id (ldns_pkt_id q)) l (<[l:=r]> h)),
      (pkt_set_id (ldns_pkt_id q) r).
    repeat apply conj; try reflexivity; try exact Hl.
    + rewrite lookup_alter_eq, lookup_insert_eq. reflexivity.
    + rewrite lookup_alter_ne, lookup_insert_ne by congruence. exact Hr.
    + intros l' Hl'. rewrite lookup_alter_ne, lookup_insert_ne by congruence.
      reflexivity.
  - exists l, (<[l:=r]> h), r.
    repeat apply conj; try reflexivity; try exact Hl.
    + apply lookup_insert_eq.
    + rewrite lookup_insert_ne by congruence. exact Hr.
    + intros l' Hl'. rewrite lookup_insert_ne by congruence. reflexivity.
Qed.
End BuilderProps.

Lemma get_answer_clones_reply_witness :
  exists l h' a,
    get_answer example_store [example_entry] example_query transport_udp = (Some l, h')
    /\ example_store !! l = None
    /\ h' !! l = Some a
    /\ ldns_pkt_id a = 4242
    /\ same_but_id a example_reply
    /\ h' !! reply example_entry = Some example_reply
    /\ forall l', l' <> l -> h' !! l' = example_store !! l'.
Proof.
  apply (get_answer_clones_reply example_store [example_entry] example_query
           transport_udp example_entry example_reply).
  - vm_compute. reflexivity.
  - vm_compute. reflexivity.
Defined.

(** ** Directive interpreters: the loops end, and what they leave alone *)

Lemma first_keyword_length {A} (table : list (string * A)) parse parse' a :
  Forall (fun ka => (0 < String.length ka.1)%nat) table ->
  first_keyword table parse = Some (parse', a) ->
  (String.length parse' < String.length parse)%nat.
Proof.
  induction 1 as [|[k x] table Hk _ IH]; simpl; [discriminate|].
  destruct (str_keyword parse k) as [p|] eqn:Hp; [|exact IH].
  intros [= <- <-]. apply str_keyword_length in Hp. simpl in Hk. lia.
Qed.

Lemma reply_keywords_nonempty :
  Forall (fun ka => (0 < String.length ka.1)%nat) reply_keywords.
Proof. unfold reply_keywords. repeat constructor; simpl; lia. Qed.

(** A step of a directive loop on a keyword that is not empty. *)
Ltac keyword_step IH :=
  match goal with
  | Hk : str_keyword _ _ = Some _ |- _ =>
      apply str_keyword_length in Hk; simpl in Hk; apply IH; lia
  end.

Lemma matchline_loop_ends fuel : forall line parse e,
  (String.length parse < fuel)%nat -> matchline_loop fuel line parse e <> Stuck.
Proof.
  induction fuel as [|fuel IH]; intros line parse e Hlen; [lia|]. simpl.
  destruct (Ascii.eqb (peek parse) Ascii.zero); [discriminate|].
  destruct (isendline (peek parse)); [discriminate|].
  destruct (str_keyword parse "opcode") eqn:K1; [keyword_step IH|].
  destruct (str_keyword parse "qtype") eqn:K2; [keyword_step IH|].
  destruct (str_keyword parse "qname") eqn:K3; [keyword_step IH|].
  destruct (str_keyword parse "UDP") eqn:K4; [keyword_step IH|].
  destruct (str_keyword parse "TCP") eqn:K5; [keyword_step IH|].
  destruct (str_keyword parse "serial") as [p|] eqn:K6; [|discriminate].
  destruct (negb _ && negb _); [discriminate|].
  pose proof (strtol_length (advance p)) as Hs.
  destruct (strtol (advance p)) as [v rest]. simpl in Hs.
  apply IH. apply str_keyword_length in K6. simpl in K6.
  pose proof (skip_space_length rest). pose proof (advance_length p). lia.
Qed.

Lemma replyline_loop_ends fuel : forall parse r h,
  (String.length parse < fuel)%nat -> replyline_loop fuel parse r h <> Stuck.
Proof.
  induction fuel as [|fuel IH]; intros parse r h Hlen; [lia|]. cbn [replyline_loop].
  destruct (Ascii.eqb (peek parse) Ascii.zero); [discriminate|].
  destruct (isendline (peek parse)); [discriminate|].
  destruct (first_keyword reply_keywords parse) as [[p set]|] eqn:K; [|discriminate].
  apply IH. apply (first_keyword_length _ _ _ _ reply_keywords_nonempty) in K. lia.
Qed.

Lemma adjustline_loop_ends fuel : forall parse e,
  (String.length parse < fuel)%nat -> adjustline_loop fuel parse e <> Stuck.
Proof.
  induction fuel as [|fuel IH]; intros parse e Hlen; [lia|]. simpl.
  destruct (Ascii.eqb (peek parse) Ascii.zero); [discriminate|].
  destruct (isendline (peek parse)); [discriminate|].
  destruct (str_keyword parse "copy_id") eqn:K1; [keyword_step IH|discriminate].
Qed.

(** [matchline] and [adjustline] write the match and adjust fields only. *)
Lemma matchline_loop_reply fuel : forall line parse e e',
  matchline_loop fuel line parse e = Ok e' -> reply e' = reply e.
Proof.
  induction fuel as [|fuel IH]; intros line parse e e'; simpl; [discriminate|].
  repeat match goal with
         | |- context [if ?b then _ else _] => destruct b
         | |- context [match str_keyword ?p ?k with _ => _ end] =>
             destruct (str_keyword p k)
         | |- context [let '(_, _) := ?x in _] => destruct x
         end;
    try discriminate; try (intros [= <-]; reflexivity);
    intros Hl; apply IH in Hl; exact Hl.
Qed.

Lemma adjustline_loop_reply fuel : forall parse e e',
  adjustline_loop fuel parse e = Ok e' -> reply e' = reply e.
Proof.
  induction fuel as [|fuel IH]; intros parse e e'; simpl; [discriminate|].
  repeat match goal with
         | |- context [if ?b then _ else _] => destruct b
         | |- context [match str_keyword ?p ?k with _ => _ end] =>
             destruct (str_keyword p k)
         end;
    try discriminate; try (intros [= <-]; reflexivity);
    intros Hl; apply IH in Hl; exact Hl.
Qed.

(** [replyline] writes into packets that exist; it allocates and frees
    nothing, and touches the canned reply of its entry only. *)
Lemma replyline_loop_store fuel : forall parse r h h',
  replyline_loop fuel parse r h = Ok h' ->
  (forall l, is_Some (h' !! l) <-> is_Some (h !! l))
  /\ (forall l, l <> r -> h' !! l = h !! l).
Proof.
  induction fuel as [|fuel IH]; intros parse r h h'; cbn [replyline_loop];
    [discriminate|].
  destruct (Ascii.eqb (peek parse) Ascii.zero); [intros [= <-]; tauto|].
  destruct (isendline (peek parse)); [intros [= <-]; tauto|].
  destruct (first_keyword reply_keywords parse) as [[p set]|]; [|discriminate].
  intros Hl. apply IH in Hl as [Hs Hf]. split.
  - intros l. rewrite Hs. rewrite lookup_alter_is_Some. reflexivity.
  - intros l Hne. rewrite (Hf l Hne). apply lookup_alter_ne. congruence.
Qed.

(** ** The data-file parser *)

Lemma bind_Ok {A B} (r : result A) (k : A -> result B) b :
  r ≫= k = Ok b -> exists a, r = Ok a /\ k a = Ok b.
Proof. destruct r; simpl; [eauto|discriminate|discriminate]. Qed.

Section ParserProps.
Context `{Codec}.
Lemma read_line_effect name st line st' :
  read_line name st line = Ok st' ->
  line_effect line (set_lineno (lineno st + 1) st) st'.
Proof.
  unfold read_line.
  set (st1 := set_lineno (lineno st + 1) st).
  set (parse := skip_space line).
  destruct (isendline (peek parse)) eqn:Hend.
  { intros [= <-]. apply LineSkip. exact Hend. }
  destruct (str_keyword parse "ENTRY_BEGIN") as [p|] eqn:K1.
  { destruct (current st1) eqn:Hcur; [discriminate|].
    unfold new_entry, ldns_pkt_new. intros [= <-].
    apply (LineBegin line st1 (fresh (dom (heap st1)))).
    - split; [exact Hend|]. fold parse. rewrite K1. eauto.
    - exact Hcur.
    - apply not_elem_of_dom, is_fresh. }
  destruct (str_keyword parse "$ORIGIN") as [p|] eqn:K2.
  { unfold get_origin. simpl.
    destruct (ldns_str2rdf_dname (snip_word p)) as [d|] eqn:Hd; [|discriminate].
    intros [= <-]. exact (LineOrigin line st1 p d K2 Hd). }
  destruct (str_keyword parse "$TTL") as [p|] eqn:K3.
  { intros [= <-]. exact (LineTtl line st1 p K3). }
  destruct (current st1) as [cur|] eqn:Hcur; [|discriminate].
  destruct (entries st1 !! cur) as [e|] eqn:He; [|discriminate].
  unfold read_entry_line.
  destruct (str_keyword parse "MATCH") as [p|] eqn:K4.
  { intros Hb. apply bind_Ok in Hb as (e' & Hm & [= <-]).
    apply (LineMatch line st1 cur e e'); try assumption.
    - split; [exact Hend|]. fold parse. rewrite K4. eauto.
    - eapply matchline_loop_reply, Hm. }
  destruct (str_keyword parse "REPLY") as [p|] eqn:K5.
  { intros Hb. apply bind_Ok in Hb as (h' & Hm & [= <-]).
    apply replyline_loop_store in Hm as [Hs Hf].
    apply (LineReply line st1 cur e h'); try assumption.
    split; [exact Hend|]. fold parse. rewrite K5. eauto. }
  destruct (str_keyword parse "ADJUST") as [p|] eqn:K6.
  { intros Hb. apply bind_Ok in Hb as (e' & Hm & [= <-]).
    apply (LineAdjust line st1 cur e e'); try assumption.
    - split; [exact Hend|]. fold parse. rewrite K6. eauto.
    - eapply adjustline_loop_reply, Hm. }
  destruct (str_keyword parse "SECTION") as [p|] eqn:K7.
  { destruct (str_keyword p "QUESTION") eqn:S1.
    { intros [= <-]. apply (LineSection line st1 cur p LDNS_SECTION_QUESTION);
        try assumption. unfold section_named. rewrite S1. reflexivity. }
    destruct (str_keyword p "ANSWER") eqn:S2.
    { intros [= <-]. apply (LineSection line st1 cur p LDNS_SECTION_ANSWER);
        try assumption. unfold section_named. rewrite S1, S2. reflexivity. }
    destruct (str_keyword p "AUTHORITY") eqn:S3.
    { intros [= <-]. apply (LineSection line st1 cur p LDNS_SECTION_AUTHORITY);
        try assumption. unfold section_named. rewrite S1, S2, S3. reflexivity. }
    destruct (str_keyword p "ADDITIONAL") eqn:S4; [|discriminate].
    intros [= <-]. apply (LineSection line st1 cur p LDNS_SECTION_ADDITIONAL);
      try assumption. unfold section_named. rewrite S1, S2, S3, S4. reflexivity. }
  destruct (str_keyword parse "ENTRY_END") as [p|] eqn:K8.
  { intros [= <-]. apply (LineEnd line st1 cur); [|exact Hcur].
    split; [exact Hend|]. fold parse. rewrite K8. eauto. }
  destruct (ldns_rr_new_frm_str _ _ _ _) as [[n prev]|] eqn:Hrr; [|discriminate].
  intros [= <-]. apply (LineRecord line st1 cur e n prev); try assumption.
  split; [exact Hend|]. fold parse. unfold keywords.
  repeat constructor; assumption.
Qed.

Lemma line_effect_lineno line st st' :
  line_effect line st st' -> lineno st' = lineno st.
Proof. destruct 1; reflexivity. Qed.

Lemma line_effect_inv line st st' :
  pstate_inv st -> line_effect line st st' -> pstate_inv st'.
Proof.
  intros [Hc Hn Ha Hd] Heff.
  destruct Heff as [Hend|r Hdir Hcur Hr|p d Hk Hd'|p Hk|cur e e' Hdir Hcur He Hre
                   |cur e h' Hdir Hcur He Hs Hf|cur e e' Hdir Hcur He Hre
                   |cur p sec Hend Hk Hsec Hcur|cur Hdir Hcur|cur e n prev Hrec Hcur He Hrr];
    constructor; simpl; try assumption.
  - intros i [= <-]. rewrite length_app. simpl. lia.
  - rewrite Hcur in Hn. rewrite length_app. simpl. lia.
  - apply Forall_app. split.
    + eapply Forall_impl; [exact Ha|]. intros e He. simpl in He.
      apply lookup_insert_is_Some. destruct (decide (r = reply e)); auto.
    + constructor; [|constructor]. apply lookup_insert_is_Some. left. reflexivity.
  - rewrite fmap_app. apply NoDup_app. split; [exact Hd|]. split.
    + intros l Hl Hl'. apply list_elem_of_singleton in Hl'. simpl in Hl'. subst l.
      apply list_elem_of_fmap in Hl as (e & Heq & He).
      rewrite Forall_forall in Ha. destruct (Ha e He) as [x Hx]. congruence.
    + apply NoDup_singleton.
  - intros i Hi. rewrite length_insert. auto.
  - rewrite length_insert. exact Hn.
  - apply Forall_insert; [exact Ha|]. rewrite Hre.
    rewrite Forall_forall in Ha. apply Ha. eapply list_elem_of_lookup_2, He.
  - rewrite list_fmap_insert, list_insert_id; [exact Hd|].
    rewrite list_lookup_fmap, He, Hre. reflexivity.
  - eapply Forall_impl; [exact Ha|]. intros x Hx. apply Hs, Hx.
  - intros i Hi. rewrite length_insert. auto.
  - rewrite length_insert. exact Hn.
  - apply Forall_insert; [exact Ha|]. rewrite Hre.
    rewrite Forall_forall in Ha. apply Ha. eapply list_elem_of_lookup_2, He.
  - rewrite list_fmap_insert, list_insert_id; [exact Hd|].
    rewrite list_lookup_fmap, He, Hre. reflexivity.
  - discriminate.
  - rewrite Hcur in Hn. lia.
  - eapply Forall_impl; [exact Ha|]. intros x Hx.
    apply lookup_alter_is_Some, Hx.
Qed.

Lemma pstate_inv_init : pstate_inv init_pstate.
Proof. constructor; simpl; [discriminate|reflexivity|constructor|constructor]. Qed.

Lemma pstate_inv_set_lineno v st : pstate_inv st -> pstate_inv (set_lineno v st).
Proof. intros [Hc Hn Ha Hd]. constructor; assumption. Qed.

Lemma read_line_inv name st line st' :
  pstate_inv st -> read_line name st line = Ok st' -> pstate_inv st'.
Proof.
  intros Hinv Hl. apply read_line_effect in Hl.
  eapply line_effect_inv; [|exact Hl]. apply pstate_inv_set_lineno, Hinv.
Qed.

Lemma read_line_lineno name st line st' :
  read_line name st line = Ok st' -> lineno st' = lineno st + 1.
Proof. intros Hl. apply read_line_effect, line_effect_lineno in Hl. exact Hl. Qed.

Lemma read_lines_inv name lines : forall st st',
  pstate_inv st -> read_lines name st lines = Ok st' -> pstate_inv st'.
Proof.
  induction lines as [|line lines IH]; intros st st' Hinv; simpl.
  - intros [= <-]. exact Hinv.
  - destruct (read_line name st line) as [st1| |] eqn:Hl; try discriminate.
    apply IH. eapply read_line_inv; eassumption.
Qed.

Lemma read_lines_lineno name lines : forall st st',
  read_lines name st lines = Ok st' ->
  lineno st' = lineno st + Z.of_nat (length lines).
Proof.
  induction lines as [|line lines IH]; intros st st'; simpl.
  - intros [= <-]. lia.
  - destruct (read_line name st line) as [st1| |] eqn:Hl; try discriminate.
    intros Hr. apply IH in Hr. apply read_line_lineno in Hl. lia.
Qed.

Lemma read_lines_app name before : forall st after,
  read_lines name st (before ++ after) =
    match read_lines name st before with
    | Ok st' => read_lines name st' after
    | Fatal m => Fatal m
    | Stuck => Stuck
    end.
Proof.
  induction before as [|line before IH]; intros st after; simpl; [reflexivity|].
  destruct (read_line name st line); auto.
Qed.

(** The model follows the C code on every line: [read_line] is never
    [Stuck] on a state the parser can be in. *)
Lemma read_line_not_stuck name st line :
  pstate_inv st -> read_line name st line <> Stuck.
Proof.
  intros [Hc _ _ _]. unfold read_line. cbn [current entries heap set_lineno].
  destruct (isendline _); [discriminate|].
  destruct (str_keyword _ "ENTRY_BEGIN").
  { destruct (current st); [discriminate|].
    unfold new_entry, ldns_pkt_new. discriminate. }
  destruct (str_keyword _ "$ORIGIN").
  { unfold get_origin. destruct (ldns_str2rdf_dname _); discriminate. }
  destruct (str_keyword _ "$TTL"); [discriminate|].
  destruct (current st) as [cur|] eqn:Hcur; [|discriminate].
  destruct (entries st !! cur) as [e|] eqn:He.
  2: { apply lookup_ge_None in He. specialize (Hc cur eq_refl). lia. }
  unfold read_entry_line.
  destruct (str_keyword _ "MATCH") as [p|].
  { pose proof (matchline_loop_ends (S (String.length p)) p p e) as Hm.
    unfold matchline.
    set (res := matchline_loop (S (String.length p)) p p e) in *.
    destruct res; cbn [mbind result_bind bind];
      [discriminate|discriminate|]. exfalso. apply Hm; [lia|reflexivity]. }
  destruct (str_keyword _ "REPLY") as [p|].
  { pose proof (replyline_loop_ends (S (String.length p)) p (reply e) (heap st)) as Hm.
    unfold replyline. change (heap (set_lineno (lineno st + 1) st)) with (heap st).
    set (res := replyline_loop (S (String.length p)) p (reply e) (heap st)) in *.
    destruct res; cbn [mbind result_bind bind];
      [discriminate|discriminate|]. exfalso. apply Hm; [lia|reflexivity]. }
  destruct (str_keyword _ "ADJUST") as [p|].
  { pose proof (adjustline_loop_ends (S (String.length p)) p e) as Hm.
    unfold adjustline.
    set (res := adjustline_loop (S (String.length p)) p e) in *.
    destruct res; cbn [mbind result_bind bind];
      [discriminate|discriminate|]. exfalso. apply Hm; [lia|reflexivity]. }
  destruct (str_keyword _ "SECTION").
  { repeat case_match; discriminate. }
  destruct (str_keyword _ "ENTRY_END"); [discriminate|].
  destruct (ldns_rr_new_frm_str _ _ _ _) as [[n prev]|]; discriminate.
Qed.

Lemma read_lines_not_stuck name lines : forall st,
  pstate_inv st -> read_lines name st lines <> Stuck.
Proof.
  induction lines as [|line lines IH]; intros st Hinv; simpl; [discriminate|].
  destruct (read_line name st line) as [st1| |] eqn:Hl.
  - apply IH. eapply read_line_inv; eassumption.
  - discriminate.
  - exfalso. eapply read_line_not_stuck; eassumption.
Qed.
End ParserProps.

(** ** The target section *)

Section SectionProps.
Context `{Codec}.

Lemma directive_excl k1 k2 line :
  diverge k1 k2 = true -> directive_line k1 line ->
  str_keyword (skip_space line) k2 = None.
Proof. intros Hd [_ Hk]. eapply str_keyword_excl; eassumption. Qed.

Lemma line_effect_add_section line st st' :
  line_effect line st st' -> no_section_directive line ->
  add_section st' = add_section st.
Proof.
  unfold no_section_directive. destruct 1; try reflexivity. congruence.
Qed.

Lemma line_effect_section_directive line st st' parse :
  line_effect line st st' ->
  directive_line "SECTION" line ->
  str_keyword (skip_space line) "SECTION" = Some parse ->
  section_named parse = Some (add_section st').
Proof.
  intros Heff Hdir Hk.
  pose proof (fun k Hd => directive_excl "SECTION" k line Hd Hdir) as Hex.
  destruct Heff as [Hend|r [_ [x Hx]] _ _|p d Hx _|p Hx|cur e e' [_ [x Hx]] _ _ _
                   |cur e h' [_ [x Hx]] _ _ _ _|cur e e' [_ [x Hx]] _ _ _
                   |cur p sec Hend Hx Hsec Hcur|cur [_ [x Hx]] _
                   |cur e n prev [_ Hrec] _ _ _].
  - destruct Hdir as [Hd _]. congruence.
  - rewrite (Hex "ENTRY_BEGIN" eq_refl) in Hx. discriminate.
  - rewrite (Hex "$ORIGIN" eq_refl) in Hx. discriminate.
  - rewrite (Hex "$TTL" eq_refl) in Hx. discriminate.
  - rewrite (Hex "MATCH" eq_refl) in Hx. discriminate.
  - rewrite (Hex "REPLY" eq_refl) in Hx. discriminate.
  - rewrite (Hex "ADJUST" eq_refl) in Hx. discriminate.
  - simpl. congruence.
  - rewrite (Hex "ENTRY_END" eq_refl) in Hx. discriminate.
  - unfold keywords in Hrec. rewrite !Forall_cons in Hrec.
    destruct Hrec as (_ & _ & _ & _ & _ & _ & Hs & _). congruence.
Qed.

Lemma read_lines_add_section name lines : forall st st',
  read_lines name st lines = Ok st' ->
  Forall no_section_directive lines ->
  add_section st' = add_section st.
Proof.
  induction lines as [|line lines IH]; intros st st'; simpl.
  - intros [= <-] _. reflexivity.
  - destruct (read_line name st line) as [st1| |] eqn:Hl; try discriminate.
    intros Hr Hall. apply Forall_cons in Hall as [Hline Hall].
    rewrite (IH _ _ Hr Hall).
    apply read_line_effect in Hl. apply (line_effect_add_section _ _ _ Hl Hline).
Qed.

(** C4 (amended). ENTRY_BEGIN leaves the target section as it is.  When an
    entry is opened the section is Question only if the file had no SECTION
    directive so far; otherwise it is the section named by the last SECTION
    directive before the ENTRY_BEGIN, in whichever entry that was.  From
    there it stays until a SECTION directive changes it. *)
Theorem target_section_at_entry_begin name before line st st' :
  read_lines name init_pstate before = Ok st ->
  directive_line "ENTRY_BEGIN" line ->
  read_line name st line = Ok st' ->
  add_section st' = add_section st
  /\ (Forall no_section_directive before -> add_section st' = LDNS_SECTION_QUESTION)
  /\ (forall pre sline mid st1 st2 parse,
        before = (pre ++ sline :: mid)%list ->
        read_lines name init_pstate pre = Ok st1 ->
        read_line name st1 sline = Ok st2 ->
        directive_line "SECTION" sline ->
        str_keyword (skip_space sline) "SECTION" = Some parse ->
        Forall no_section_directive mid ->
        section_named parse = Some (add_section st'))
  /\ (forall after st'',
        read_lines name st' after = Ok st'' ->
        Forall no_section_directive after ->
        add_section st'' = add_section st').
Proof.
  intros Hbefore Hdir Hline.
  assert (Hkeep : add_section st' = add_section st).
  { apply read_line_effect in Hline.
    apply (line_effect_add_section _ _ _ Hline).
    apply (directive_excl "ENTRY_BEGIN" "SECTION" line eq_refl Hdir). }
  split; [exact Hkeep|]. split; [|split].
  - intros Hall. rewrite Hkeep.
    apply (read_lines_add_section _ _ _ _ Hbefore Hall).
  - intros pre sline mid st1 st2 parse -> Hpre Hsl Hsd Hk Hmid.
    rewrite read_lines_app, Hpre in Hbefore. simpl in Hbefore. rewrite Hsl in Hbefore.
    rewrite Hkeep, (read_lines_add_section _ _ _ _ Hbefore Hmid).
    apply read_line_effect in Hsl.
    apply (line_effect_section_directive _ _ _ _ Hsl Hsd Hk).
  - intros after st'' Hafter Hall. apply (read_lines_add_section _ _ _ _ Hafter Hall).
Qed.
End SectionProps.

Lemma target_section_at_entry_begin_witness :
  add_section (state_after "f" (example_section_file ++ text_lines ["ENTRY_BEGIN"]))
  = add_section (state_after "f" example_section_file).
Proof.
  apply (target_section_at_entry_begin "f" example_section_file ("ENTRY_BEGIN" +:+ nl)
           (state_after "f" example_section_file)
           (state_after "f" (example_section_file ++ text_lines ["ENTRY_BEGIN"]))).
  - vm_compute. reflexivity.
  - split; [reflexivity|]. vm_compute. eauto.
  - vm_compute. reflexivity.
Defined.

Lemma section_reset_counterexample :
  ~ (forall name before line st st',
       read_lines name init_pstate before = Ok st ->
       directive_line "ENTRY_BEGIN" line ->
       read_line name st line = Ok st' ->
       add_section st' = LDNS_SECTION_QUESTION).
Proof.
  intros Hclaim.
  specialize (Hclaim "f" example_section_file ("ENTRY_BEGIN" +:+ nl)
                (state_after "f" example_section_file)
                (state_after "f" (example_section_file ++ text_lines ["ENTRY_BEGIN"]))).
  assert (Hq : add_section (state_after "f" (example_section_file ++ text_lines ["ENTRY_BEGIN"]))
               = LDNS_SECTION_QUESTION).
  { apply Hclaim.
    - vm_compute. reflexivity.
    - split; [reflexivity|]. vm_compute. eauto.
    - vm_compute. reflexivity. }
  vm_compute in Hq. discriminate.
Qed.

(** ** Entry nesting *)

Section NestingProps.
Context `{Codec}.

Lemma read_line_nested name st line cur :
  current st = Some cur ->
  directive_line "ENTRY_BEGIN" line ->
  read_line name st line = Fatal (ErrPrevEntry name (lineno st + 1)).
Proof.
  intros Hcur [Hend [p Hp]]. unfold read_line. rewrite Hend, Hp. simpl.
  rewrite Hcur. reflexivity.
Qed.

Lemma read_line_outside name st line :
  current st = None ->
  isendline (peek (skip_space line)) = false ->
  str_keyword (skip_space line) "ENTRY_BEGIN" = None ->
  str_keyword (skip_space line) "$ORIGIN" = None ->
  str_keyword (skip_space line) "$TTL" = None ->
  read_line name st line = Fatal (ErrExpectedBegin name (lineno st + 1) line).
Proof.
  intros Hcur Hend K1 K2 K3. unfold read_line. rewrite Hend, K1, K2, K3. simpl.
  rewrite Hcur. reflexivity.
Qed.

Lemma entry_only_line_outside name st line :
  current st = None -> entry_only_line line ->
  read_line name st line = Fatal (ErrExpectedBegin name (lineno st + 1) line).
Proof.
  intros Hcur Hl.
  assert (Hd : forall k, diverge k "ENTRY_BEGIN" = true -> diverge k "$ORIGIN" = true ->
                 diverge k "$TTL" = true -> directive_line k line ->
                 read_line name st line = Fatal (ErrExpectedBegin name (lineno st + 1) line)).
  { intros k D1 D2 D3 Hk. apply read_line_outside; try assumption.
    - apply Hk.
    - apply (directive_excl k _ line D1 Hk).
    - apply (directive_excl k _ line D2 Hk).
    - apply (directive_excl k _ line D3 Hk). }
  destruct Hl as [Hl|[Hl|[Hl|[Hl|[Hl|[Hend Hrec]]]]]];
    try (refine (Hd _ _ _ _ Hl); reflexivity).
  unfold keywords in Hrec. rewrite !Forall_cons in Hrec.
  destruct Hrec as (K1 & K2 & K3 & _). apply read_line_outside; assumption.
Qed.

(** C6. When the lines [before] leave an entry open and the next line is
    ENTRY_BEGIN, and when they leave no entry open and the next line is a
    MATCH, REPLY, ADJUST, SECTION or ENTRY_END directive or a record line,
    [read_datafile] ends in [error()], whatever follows: the message carries
    the file name and the number of that line, and no list is returned. *)
Theorem entry_nesting_is_fatal name before line after st :
  read_lines name init_pstate before = Ok st ->
  (is_Some (current st) /\ directive_line "ENTRY_BEGIN" line)
  \/ (current st = None /\ entry_only_line line) ->
  read_datafile name (Some (before ++ line :: after)%list)
  = Fatal (match current st with
           | Some _ => ErrPrevEntry name (Z.of_nat (length before) + 1)
           | None => ErrExpectedBegin name (Z.of_nat (length before) + 1) line
           end).
Proof.
  intros Hbefore Hcase. unfold read_datafile.
  rewrite read_lines_app, Hbefore. simpl.
  pose proof (read_lines_lineno _ _ _ _ Hbefore) as Hno. simpl in Hno.
  destruct Hcase as [[[cur Hcur] Hdir]|[Hcur Hl]]; rewrite Hcur.
  - rewrite (read_line_nested name st line cur Hcur Hdir), Hno. reflexivity.
  - rewrite (entry_only_line_outside name st line Hcur Hl), Hno. reflexivity.
Qed.
End NestingProps.

Lemma entry_nesting_is_fatal_witness :
  read_datafile "f" (Some example_record_first)
  = Fatal (ErrExpectedBegin "f" 2 ("www.example.com. IN A 10.0.0.1" +:+ nl)).
Proof.
  apply (entry_nesting_is_fatal "f" (text_lines ["; a record before any entry"])
           ("www.example.com. IN A 10.0.0.1" +:+ nl) [] (set_lineno 1 init_pstate)).
  - reflexivity.
  - right. split; [reflexivity|].
    unfold entry_only_line, record_line. do 5 right.
    split; [reflexivity|]. unfold keywords. repeat constructor.
Defined.

(** ** End of file inside an entry *)

Section EndOfFileProps.
Context `{Codec}.

Lemma find_match_skip h before rest q t :
  Forall (fun e' => ~ entry_matches h q t e') before ->
  find_match h (before ++ rest) q t = find_match h rest q t.
Proof.
  induction 1 as [|p before Hp _ IH]; [reflexivity|].
  change ((p :: before) ++ rest)%list with (p :: (before ++ rest))%list.
  destruct (find_match_head h p (before ++ rest) q t) as [[Hm _]|[_ ->]];
    [contradiction|exact IH].
Qed.

(** C10. When the last line is read with an entry still open,
    [read_datafile] returns: the open entry [e] is the last element of the
    list it returns, its canned reply is allocated, and [find_match] returns
    it like any other entry when it matches and no earlier entry does.  The
    number printed in "Read %d entries" is the number of the entries before
    it: the open entry is not counted. *)
Theorem eof_inside_entry name lines st cur :
  read_lines name init_pstate lines = Ok st ->
  current st = Some cur ->
  exists closed e,
    read_datafile name (Some lines)
    = Ok (entries st, heap st, (stdout st ++ [OutReadEntries (entry_num st)])%list)
    /\ entries st = (closed ++ [e])%list
    /\ entries st !! cur = Some e
    /\ entry_num st = Z.of_nat (length closed)
    /\ is_Some (heap st !! reply e)
    /\ forall q t,
         Forall (fun e' => ~ entry_matches (heap st) q t e') closed ->
         entry_matches (heap st) q t e ->
         find_match (heap st) (entries st) q t = Some e.
Proof.
  intros Hlines Hcur.
  destruct (read_lines_inv _ _ _ _ pstate_inv_init Hlines) as [Hc Hn Ha _].
  specialize (Hc cur Hcur). rewrite Hcur in Hn.
  destruct (lookup_lt_is_Some_2 (entries st) cur) as [e He]; [lia|].
  assert (Hsplit : entries st = (take cur (entries st) ++ [e])%list).
  { rewrite <- (take_drop_middle _ _ _ He) at 1.
    rewrite drop_ge by lia. reflexivity. }
  assert (Hlen : length (take cur (entries st)) = cur) by (rewrite length_take; lia).
  revert Hsplit Hlen. generalize (take cur (entries st)). intros closed Hsplit Hlen.
  exists closed, e.
  split; [unfold read_datafile; rewrite Hlines; reflexivity|].
  split; [exact Hsplit|]. split; [exact He|]. split.
  { lia. }
  split.
  { rewrite Forall_forall in Ha. apply Ha. eapply list_elem_of_lookup_2, He. }
  intros q t Hclosed Hm. rewrite Hsplit.
  rewrite (find_match_skip _ _ _ _ _ Hclosed).
  apply entry_fires_iff, Hm.
Qed.
End EndOfFileProps.

Lemma eof_inside_entry_witness :
  exists closed e,
    read_datafile "f" (Some example_dangling)
    = Ok (entries (state_after "f" example_dangling),
          heap (state_after "f" example_dangling),
          (stdout (state_after "f" example_dangling)
           ++ [OutReadEntries (entry_num (state_after "f" example_dangling))])%list)
    /\ entries (state_after "f" example_dangling) = (closed ++ [e])%list
    /\ entries (state_after "f" example_dangling) !! 1%nat = Some e
    /\ entry_num (state_after "f" example_dangling) = Z.of_nat (length closed)
    /\ is_Some (heap (state_after "f" example_dangling) !! reply e)
    /\ forall q t,
         Forall (fun e' => ~ entry_matches (heap (state_after "f" example_dangling)) q t e')
           closed ->
         entry_matches (heap (state_after "f" example_dangling)) q t e ->
         find_match (heap (state_after "f" example_dangling))
           (entries (state_after "f" example_dangling)) q t = Some e.
Proof.
  apply (eof_inside_entry "f" example_dangling (state_after "f" example_dangling) 1).
  - vm_compute. reflexivity.
  - vm_compute. reflexivity.
Defined.

(** ** The default TTL *)

Section TtlProps.
Context `{Codec}.

Lemma str_keyword_peek s c k r : str_keyword s (String c k) = Some r -> peek s = c.
Proof.
  unfold str_keyword. simpl. destruct s as [|a s]; [discriminate|].
  destruct (Ascii.eqb_spec a c) as [->|]; [reflexivity|discriminate].
Qed.

(** What a $TTL line does: the default TTL becomes the number [atoi] reads,
    converted to the 16 bits of the variable. *)
Lemma read_line_ttl name st line parse :
  str_keyword (skip_space line) "$TTL" = Some parse ->
  read_line name st line
  = Ok (set_default_ttl (to_uint16 (atoi parse)) (set_lineno (lineno st + 1) st)).
Proof.
  intros Hk. unfold read_line.
  rewrite (str_keyword_peek _ _ _ _ Hk).
  rewrite (str_keyword_excl "$TTL" "ENTRY_BEGIN" _ eq_refl (ex_intro _ _ Hk)).
  rewrite (str_keyword_excl "$TTL" "$ORIGIN" _ eq_refl (ex_intro _ _ Hk)).
  rewrite Hk. reflexivity.
Qed.

Lemma to_uint16_range v : 0 <= to_uint16 v < 65536.
Proof. unfold to_uint16. apply Z.mod_pos_bound. reflexivity. Qed.

(** The default TTL never holds a value of 65536 or more. *)
Lemma default_ttl_sixteen_bits name st line parse st' :
  str_keyword (skip_space line) "$TTL" = Some parse ->
  read_line name st line = Ok st' ->
  0 <= default_ttl st' < 65536.
Proof.
  intros Hk. rewrite (read_line_ttl _ _ _ _ Hk). intros [= <-]. simpl.
  apply to_uint16_range.
Qed.

(** A record line is parsed with the default TTL of the state it is read in. *)
Lemma read_line_record name st line cur e :
  record_line line -> current st = Some cur -> entries st !! cur = Some e ->
  read_line name st line =
    match ldns_rr_new_frm_str (skip_space line) (default_ttl st) (origin st) (prev_rr st) with
    | CodecErr status => Fatal (ErrRR name (lineno st + 1) status (skip_space line))
    | CodecOk (n, prev) =>
        Ok (set_heap (alter (pkt_push_rr (add_section st) n) (reply e) (heap st))
              (set_prev_rr prev (set_lineno (lineno st + 1) st)))
    end.
Proof.
  intros [Hend Hrec] Hcur He. unfold keywords in Hrec. rewrite !Forall_cons in Hrec.
  destruct Hrec as (K1 & K2 & K3 & K4 & K5 & K6 & K7 & K8 & _).
  unfold read_line. rewrite Hend, K1, K2, K3. simpl. rewrite Hcur, He.
  unfold read_entry_line. rewrite K4, K5, K6, K7, K8. reflexivity.
Qed.
End TtlProps.

(** The lines ENTRY_BEGIN, "$TTL 86400" and one record: the directive's
    number is 86400, the default TTL after it is 20864 (86400 modulo 65536),
    and the record that follows is parsed with 20864. *)
Example ttl_86400_is_truncated :
  read_lines "f" init_pstate example_ttl = Ok (state_after "f" example_ttl)
  /\ atoi "86400" = 86400
  /\ default_ttl (state_after "f" example_ttl) = 20864
  /\ ldns_pkt_question (heap (state_after "f" example_ttl) !!! 1%positive)
     = [example_rr "www.example.com." 20864].
Proof. vm_compute. repeat split. Qed.

(** ** The request handlers *)

Section HandlerProps.
Context `{Codec}.

(** The length test of [handle_tcp]: a request goes on to the pipeline when
    its declared length is below [INBUF_SIZE], and is rejected when it is
    [INBUF_SIZE] or more. *)
Lemma tcp_recv_length fuel inbound tcplen_mem inbuf r :
  tcp_recv fuel inbound tcplen_mem inbuf = Some r ->
  match r with
  | RecvTooLarge tcplen _ => INBUF_SIZE <= tcplen
  | RecvQuery tcplen _ _ => tcplen < INBUF_SIZE
  end.
Proof.
  unfold tcp_recv.
  destruct (read_n_bytes fuel inbound tcplen_mem 0 2) as [[[m i] o]|]; [|discriminate].
  simpl. destruct (Z.geb_spec (ntohs m) INBUF_SIZE) as [Hge|Hlt].
  - intros [= <-]. lia.
  - destruct (read_n_bytes fuel i inbuf 0 _) as [[[b i'] o']|]; [|discriminate].
    simpl. intros [= <-]. exact Hlt.
Qed.

(** C9. The code on a stream request whose length prefix is the two bytes
    16 and 0, that is 4096, the size of the buffer: whatever payload follows,
    the connection is closed with the message "too large", nothing is read
    into the buffer, the pipeline is not run and nothing is written. *)
Theorem tcp_length_4096_is_rejected fuel payload rest tcplen_mem inbuf h entries count0 :
  handle_tcp (S fuel) 5 (ReadData (16 :: 0 :: payload) :: rest) tcplen_mem inbuf
    h entries count0
  = Some (mk_tcp_result [] true count0 [OutTooLarge 4096 4096] h).
Proof.
  unfold handle_tcp, tcp_recv. simpl.
  destruct payload, fuel; reflexivity.
Qed.

Lemma handle_query_no_match inbuf inlen h entries count0 size0 t q :
  (forall st dest size, ldns_pkt2wire None = (st, Some dest, size) -> st <> LDNS_STATUS_OK) ->
  ldns_wire2pkt (take (Z.to_nat inlen) inbuf) = CodecOk q ->
  find_match h entries q t = None ->
  outbuf (handle_query inbuf inlen h entries count0 size0 t) = None
  /\ store (handle_query inbuf inlen h entries count0 size0 t) = h
  /\ count (handle_query inbuf inlen h entries count0 size0 t) = count0 + 1
  /\ exists rest,
       printed (handle_query inbuf inlen h entries count0 size0 t)
       = OutQuery (count0 + 1) (ldns_pkt_id q)
           (if bool_decide (t = transport_tcp) then "TCP" else "UDP") inlen
           (ldns_rr_list_rr (ldns_pkt_question q) 0) :: rest.
Proof.
  intros Hnull Hwire Hfind. unfold handle_query, get_answer.
  rewrite Hwire, Hfind.
  destruct (ldns_pkt2wire None) as [[st dest] size] eqn:Hw.
  destruct (Z.eqb_spec st LDNS_STATUS_OK) as [->|Hne]; simpl.
  - destruct dest as [d|].
    + exfalso. apply (Hnull _ _ _ eq_refl). reflexivity.
    + repeat split; eauto.
  - repeat split; eauto.
Qed.

End HandlerProps.



(** ** The list is in the order of the file

    An entry is known by its canned reply.  A line changes the list at its end
    only: the entries already in the list stay where they are, and a new one
    is put after them. *)

Section OrderProps.
Context `{Codec}.

Lemma line_effect_order line st st' :
  line_effect line st st' ->
  (reply <$> entries st) `prefix_of` (reply <$> entries st').
Proof.
  destruct 1 as [| | | |cur e e' _ _ He Hre| |cur e e' _ _ He Hre| | |];
    simpl; try reflexivity.
  - rewrite fmap_app. apply prefix_app_r. reflexivity.
  - rewrite list_fmap_insert, list_insert_id; [reflexivity|].
    rewrite list_lookup_fmap, He, Hre. reflexivity.
  - rewrite list_fmap_insert, list_insert_id; [reflexivity|].
    rewrite list_lookup_fmap, He, Hre. reflexivity.
Qed.

Lemma read_lines_order name lines : forall st st',
  read_lines name st lines = Ok st' ->
  (reply <$> entries st) `prefix_of` (reply <$> entries st').
Proof.
  induction lines as [|line lines IH]; intros st st'; simpl.
  - intros [= <-]. reflexivity.
  - destruct (read_line name st line) as [st1| |] eqn:Hl; try discriminate.
    intros Hr. apply read_line_effect, line_effect_order in Hl. simpl in Hl.
    etrans; [exact Hl|]. apply IH, Hr.
Qed.

(** The entry that an ENTRY_BEGIN line opens goes to the end of the list. *)
Lemma entry_begin_appends name st line st' :
  directive_line "ENTRY_BEGIN" line ->
  read_line name st line = Ok st' ->
  exists e, entries st' = (entries st ++ [e])%list
            /\ current st' = Some (length (entries st))
            /\ heap st !! reply e = None
            /\ heap st' !! reply e = Some empty_pkt.
Proof.
  intros [Hend [p Hp]]. unfold read_line. rewrite Hend, Hp. simpl.
  destruct (current st); [discriminate|].
  unfold new_entry, ldns_pkt_new. intros [= <-]. simpl.
  eexists. split; [reflexivity|]. split; [reflexivity|]. simpl. split.
  - apply not_elem_of_dom, is_fresh.
  - apply lookup_insert_eq.
Qed.
End OrderProps.

(** ** Reading from the connection *)

(** When the bytes asked for are ready in one piece, [read_n_bytes] puts
    exactly these into the buffer and leaves the rest on the connection. *)
Lemma read_n_bytes_ready fuel bytes rest buf sz :
  (0 < sz <= length bytes)%nat ->
  read_n_bytes (S fuel) (ReadData bytes :: rest) buf 0 sz
  = Some (take sz bytes ++ drop sz buf,
          match drop sz bytes with
          | [] => rest
          | more => ReadData more :: rest
          end, [])%list.
Proof.
  intros [Hpos Hlen]. cbn [read_n_bytes].
  destruct (Nat.leb_spec sz 0) as [|_]; [lia|].
  unfold sys_read. rewrite Nat.sub_0_r.
  assert (Htake : length (take sz bytes) = sz) by (rewrite length_take; lia).
  rewrite Htake. destruct (Z.ltb_spec (Z.of_nat sz) 0) as [|_]; [lia|].
  unfold write_at. rewrite Htake. simpl.
  destruct fuel; cbn [read_n_bytes];
    destruct (Nat.leb_spec sz sz) as [_|]; try lia; reflexivity.
Qed.

(** A request whose declared length is below [INBUF_SIZE] and whose bytes
    are ready: the payload is read into the buffer, no more and no less, and
    goes on to the pipeline. *)
Lemma tcp_recv_ready fuel hi lo payload rest tcplen_mem inbuf :
  0 < hi * 256 + lo < INBUF_SIZE ->
  (Z.to_nat (hi * 256 + lo) <= length payload)%nat ->
  tcp_recv (S fuel) (ReadData (hi :: lo :: payload) :: rest) tcplen_mem inbuf
  = Some (RecvQuery (hi * 256 + lo)
            (take (Z.to_nat (hi * 256 + lo)) payload
             ++ drop (Z.to_nat (hi * 256 + lo)) inbuf)%list []).
Proof.
  intros [Hpos Hlt] Hlen. unfold tcp_recv.
  rewrite (read_n_bytes_ready fuel (hi :: lo :: payload) rest tcplen_mem 2)
    by (simpl; lia).
  cbn [mbind option_bind take drop app ntohs].
  destruct (Z.geb_spec (hi * 256 + lo) INBUF_SIZE) as [|_]; [lia|].
  destruct payload as [|b payload]; [simpl in Hlen; lia|].
  rewrite (read_n_bytes_ready fuel (b :: payload) rest inbuf) by lia.
  reflexivity.
Qed.

(** ** The scenarios of the specification, run on the example codec *)

(** First match wins: a wildcard entry in front of an entry that matches too
    is the one selected. *)
Example first_match_wins :
  find_match example_store2 [example_wildcard; example_entry] example_query transport_udp
  = Some example_wildcard
  /\ find_match example_store2 [example_entry; example_wildcard] example_query transport_udp
     = Some example_entry.
Proof. vm_compute. split; reflexivity. Qed.

(** The query name is compared without regard to letter case; a query for
    another name, or without a question, does not match. *)
Example qname_match_scenario :
  find_match example_store [example_entry] example_query transport_udp
  = Some example_entry
  /\ find_match example_store [example_entry]
       (pkt_push_rr LDNS_SECTION_QUESTION (example_rr "other.com." 0) empty_pkt)
       transport_udp = None
  /\ find_match example_store [example_entry] empty_pkt transport_udp = None.
Proof. vm_compute. repeat split; reflexivity. Qed.

(** The serial is read from the canned reply: whatever the query, the entry
    matches for the literal 100 and for no other. *)
Example serial_match_scenario :
  get_serial (example_serial_store !!! 1%positive) = 100
  /\ find_match example_serial_store [example_serial_entry 100] example_query transport_tcp
     = Some (example_serial_entry 100)
  /\ find_match example_serial_store [example_serial_entry 100] empty_pkt transport_udp
     = Some (example_serial_entry 100)
  /\ find_match example_serial_store [example_serial_entry 101] example_query transport_tcp
     = None.
Proof. vm_compute. repeat split; reflexivity. Qed.

(** A stream request of 12 bytes for an entry with [copy_id]: the answer is
    framed with its own length and carries the id of the query. *)
Example copy_id_over_tcp :
  tcp_written <$>
    handle_tcp 1 5 [ReadData (0 :: 12 :: example_wire)] [0; 0] (replicate 4096 0)
      example_store2 [example_wildcard] 0
  = Some [0; 12; 0; 9; 0; 0; 0; 0; 0; 0; 0; 0; 0; 0]
  /\ tcp_written <$>
       handle_tcp 1 5 [ReadData (0 :: 12 :: example_wire)] [0; 0] (replicate 4096 0)
         example_store2 [set_copy_id true example_wildcard] 0
     = Some [0; 12; 0; 42; 0; 0; 0; 0; 0; 0; 0; 0; 0; 0].
Proof. vm_compute. split; reflexivity. Qed.

(** ** The number of a $TTL directive *)

Lemma isdigit_range c : isdigit c = true -> 0 <= digit_val c <= 9.
Proof.
  unfold isdigit, digit_val. intros Hd. apply andb_true_iff in Hd as [H1 H2].
  apply N.leb_le in H1, H2. lia.
Qed.

Lemma isdigit_not_space c : isdigit c = true -> isspace c = false.
Proof.
  unfold isdigit, isspace. intros Hd. apply andb_true_iff in Hd as [H1 H2].
  apply N.leb_le in H1, H2.
  destruct (N.eqb_spec (N_of_ascii c) 32); [lia|]. simpl.
  destruct (N.leb_spec 9 (N_of_ascii c)); [|reflexivity].
  destruct (N.leb_spec (N_of_ascii c) 13); [lia|reflexivity].
Qed.

Lemma isdigit_not_sign c :
  isdigit c = true -> Ascii.eqb c "-" = false /\ Ascii.eqb c "+" = false.
Proof.
  intros Hd. split.
  - destruct (Ascii.eqb_spec c "-") as [->|]; [discriminate|reflexivity].
  - destruct (Ascii.eqb_spec c "+") as [->|]; [discriminate|reflexivity].
Qed.

Lemma decimal_value_nonneg digits :
  Forall (fun c => isdigit c = true) digits -> 0 <= decimal_value digits.
Proof.
  induction 1 as [|c digits Hc _ IH]; simpl; [lia|].
  apply isdigit_range in Hc.
  assert (0 <= 10 ^ Z.of_nat (length digits)) by (apply Z.pow_nonneg; lia). nia.
Qed.

Lemma append_String c s rest : String c s +:+ rest = String c (s +:+ rest).
Proof. reflexivity. Qed.

(** [read_digits] computes the number the digits denote. *)
Lemma read_digits_value digits : forall rest acc,
  Forall (fun c => isdigit c = true) digits ->
  isdigit (peek rest) = false ->
  read_digits (string_of_list_ascii digits +:+ rest) acc
  = (acc * 10 ^ Z.of_nat (length digits) + decimal_value digits, rest).
Proof.
  induction digits as [|c digits IH]; intros rest acc Hall Hrest.
  - simpl. destruct rest as [|b rest]; simpl in *.
    + f_equal. lia.
    + rewrite Hrest. f_equal. lia.
  - apply Forall_cons in Hall as [Hc Hall].
    cbn [string_of_list_ascii]. rewrite append_String.
    cbn [read_digits]. rewrite Hc.
    rewrite (IH rest _ Hall Hrest). f_equal.
    cbn [length decimal_value]. rewrite Nat2Z.inj_succ, Z.pow_succ_r by lia. ring.
Qed.

Lemma strtol_decimal digits rest :
  digits <> [] ->
  Forall (fun c => isdigit c = true) digits ->
  isdigit (peek rest) = false ->
  strtol (string_of_list_ascii digits +:+ rest)
  = (clamp_long (decimal_value digits), rest).
Proof.
  intros Hne Hall Hrest. destruct digits as [|c digits]; [contradiction|].
  pose proof (Forall_inv Hall) as Hc. simpl in Hc.
  pose proof (read_digits_value (c :: digits) rest 0 Hall Hrest) as Hread.
  unfold strtol. cbn [string_of_list_ascii] in *. rewrite append_String in *.
  cbn [skip_space]. rewrite (isdigit_not_space c Hc). cbn [peek].
  destruct (isdigit_not_sign c Hc) as [-> ->]. cbn [peek]. rewrite Hc, Hread.
  reflexivity.
Qed.

Lemma atoi_decimal digits rest :
  digits <> [] ->
  Forall (fun c => isdigit c = true) digits ->
  isdigit (peek rest) = false ->
  decimal_value digits <= 2 ^ 31 - 1 ->
  atoi (string_of_list_ascii digits +:+ rest) = decimal_value digits.
Proof.
  intros Hne Hall Hrest Hmax. unfold atoi.
  rewrite (strtol_decimal digits rest Hne Hall Hrest). simpl.
  pose proof (decimal_value_nonneg digits Hall) as Hpos.
  unfold clamp_long, LONG_MAX, LONG_MIN.
  destruct (Z.gtb_spec (decimal_value digits) (2 ^ 63 - 1)); [lia|].
  destruct (Z.ltb_spec (decimal_value digits) (- 2 ^ 63)); [lia|].
  unfold to_int. rewrite Z.mod_small by lia. lia.
Qed.

Section TtlValueProps.
Context `{Codec}.

Lemma line_effect_default_ttl line st st' :
  line_effect line st st' -> no_ttl_directive line ->
  default_ttl st' = default_ttl st.
Proof.
  unfold no_ttl_directive. destruct 1; try reflexivity. congruence.
Qed.

Lemma read_lines_default_ttl name lines : forall st st',
  read_lines name st lines = Ok st' ->
  Forall no_ttl_directive lines ->
  default_ttl st' = default_ttl st.
Proof.
  induction lines as [|line lines IH]; intros st st'; simpl.
  - intros [= <-] _. reflexivity.
  - destruct (read_line name st line) as [st1| |] eqn:Hl; try discriminate.
    intros Hr Hall. apply Forall_cons in Hall as [Hline Hall].
    rewrite (IH _ _ Hr Hall).
    apply read_line_effect in Hl. apply (line_effect_default_ttl _ _ _ Hl Hline).
Qed.

(** C8 (amended). A line "$TTL <n>", with n written in decimal digits and
    within the range of [int], sets the default TTL to n modulo 65536, the
    variable being 16 bits wide: to n itself when n is at most 65535.  The
    line changes neither the list nor the packets parsed so far.  The value
    stays through the lines that follow until the next $TTL directive, and is
    the default TTL passed to the codec with each record line among them. *)
Theorem ttl_directive_sets_sixteen_bits name st line parse digits rest st' :
  str_keyword (skip_space line) "$TTL" = Some parse ->
  parse = string_of_list_ascii digits +:+ rest ->
  digits <> [] ->
  Forall (fun c => isdigit c = true) digits ->
  isdigit (peek rest) = false ->
  decimal_value digits <= 2 ^ 31 - 1 ->
  read_line name st line = Ok st' ->
  default_ttl st' = decimal_value digits mod 65536
  /\ (decimal_value digits <= 65535 -> default_ttl st' = decimal_value digits)
  /\ entries st' = entries st /\ heap st' = heap st
  /\ forall lines st'',
       read_lines name st' lines = Ok st'' ->
       Forall no_ttl_directive lines ->
       default_ttl st'' = decimal_value digits mod 65536
       /\ forall rline cur e,
            record_line rline ->
            current st'' = Some cur ->
            entries st'' !! cur = Some e ->
            read_line name st'' rline =
              match ldns_rr_new_frm_str (skip_space rline)
                      (decimal_value digits mod 65536) (origin st'') (prev_rr st'') with
              | CodecErr status =>
                  Fatal (ErrRR name (lineno st'' + 1) status (skip_space rline))
              | CodecOk (n, prev) =>
                  Ok (set_heap
                        (alter (pkt_push_rr (add_section st'') n) (reply e) (heap st''))
                        (set_prev_rr prev (set_lineno (lineno st'' + 1) st'')))
              end.
Proof.
  intros Hk -> Hne Hall Hrest Hmax. rewrite (read_line_ttl _ _ _ _ Hk).
  intros [= <-]. cbn [default_ttl entries heap set_default_ttl set_lineno].
  rewrite (atoi_decimal digits rest Hne Hall Hrest Hmax).
  pose proof (decimal_value_nonneg digits Hall) as Hpos.
  unfold to_uint16. change (2 ^ 16) with 65536.
  split; [reflexivity|]. split; [intros Hsmall; apply Z.mod_small; lia|].
  split; [reflexivity|]. split; [reflexivity|].
  intros lines st'' Hlines Hno.
  pose proof (read_lines_default_ttl _ _ _ _ Hlines Hno) as Httl.
  cbn [default_ttl set_default_ttl set_lineno] in Httl.
  split; [exact Httl|].
  intros rline cur e Hrec Hcur He.
  rewrite (read_line_record name st'' rline cur e Hrec Hcur He), Httl. reflexivity.
Qed.
End TtlValueProps.

Lemma ttl_directive_sets_sixteen_bits_witness :
  default_ttl (state_after "f" (text_lines ["$TTL 3600"])) = 3600.
Proof.
  destruct (ttl_directive_sets_sixteen_bits "f" init_pstate ("$TTL 3600" +:+ nl)
              ("3600" +:+ nl) ["3"; "6"; "0"; "0"]%char nl
              (state_after "f" (text_lines ["$TTL 3600"]))) as [Hmod _].
  - reflexivity.
  - reflexivity.
  - discriminate.
  - repeat constructor.
  - reflexivity.
  - vm_compute. discriminate.
  - reflexivity.
  - exact Hmod.
Defined.

Lemma ttl_value_counterexample :
  ~ (forall name st line parse digits rest st',
       str_keyword (skip_space line) "$TTL" = Some parse ->
       parse = string_of_list_ascii digits +:+ rest ->
       digits <> [] ->
       Forall (fun c => isdigit c = true) digits ->
       isdigit (peek rest) = false ->
       read_line name st line = Ok st' ->
       default_ttl st' = decimal_value digits).
Proof.
  intros Hclaim.
  specialize (Hclaim "f" init_pstate ("$TTL 86400" +:+ nl) ("86400" +:+ nl)
                ["8"; "6"; "4"; "0"; "0"]%char nl
                (state_after "f" (text_lines ["$TTL 86400"]))).
  assert (Hv : default_ttl (state_after "f" (text_lines ["$TTL 86400"])) = 86400).
  { apply Hclaim; try reflexivity; [discriminate|repeat constructor]. }
  vm_compute in Hv. discriminate.
Qed.

(** ** The length test of the stream transport *)

Lemma write_at_length buf off data :
  (off <= length buf)%nat -> (off + length data <= length (write_at buf off data))%nat.
Proof.
  intros Hoff. unfold write_at. rewrite !length_app, length_take. lia.
Qed.

Lemma write_at_take buf off data :
  (off <= length buf)%nat ->
  take (off + length data) (write_at buf off data) = (take off buf ++ data)%list.
Proof.
  intros Hoff. unfold write_at.
  assert (Hl : length (take off buf) = off) by (rewrite length_take; lia).
  rewrite app_assoc. rewrite take_app_length'; [reflexivity|].
  rewrite length_app, Hl. reflexivity.
Qed.

Lemma write_at_drop buf off data n :
  (off <= length buf)%nat -> (off + length data <= n)%nat ->
  drop n (write_at buf off data) = drop n buf.
Proof.
  intros Hoff Hn. unfold write_at.
  assert (Hl : length (take off buf) = off) by (rewrite length_take; lia).
  rewrite app_assoc, drop_app_ge by (rewrite length_app, Hl; lia).
  rewrite length_app, Hl, drop_drop. f_equal. lia.
Qed.

(** [read_n_bytes] on a connection that delivers the bytes asked for, in
    pieces of any size: exactly these bytes go into the buffer, at the
    offsets [count] to [sz]; the bytes after them stay on the connection. *)
Lemma read_n_bytes_exact inbound : forall fuel buf count sz,
  (length inbound <= fuel)%nat ->
  (count <= length buf)%nat ->
  (count <= sz)%nat ->
  (sz - count <= length (bytes_ready inbound))%nat ->
  exists inbound',
    read_n_bytes fuel inbound buf count sz
    = Some (take count buf ++ take (sz - count) (bytes_ready inbound) ++ drop sz buf,
            inbound', [])%list
    /\ bytes_ready inbound' = drop (sz - count) (bytes_ready inbound)
    /\ (length inbound' <= length inbound)%nat.
Proof.
  induction inbound as [|ev inbound IH]; intros fuel buf count sz Hfuel Hbuf Hcs Hready.
  - simpl in Hready. assert (sz = count) as -> by lia.
    exists []. destruct fuel; simpl; rewrite Nat.leb_refl, Nat.sub_diag; simpl;
      rewrite take_drop; auto.
  - destruct (Nat.leb_spec sz count) as [Hle|Hlt].
    { assert (sz = count) as -> by lia. exists (ev :: inbound).
      destruct fuel; simpl; rewrite Nat.leb_refl, Nat.sub_diag; simpl;
        rewrite take_drop, ?drop_0; auto. }
    destruct fuel as [|fuel]; [simpl in Hfuel; lia|].
    destruct ev as [|bytes]; [simpl in Hready; lia|].
    cbn [read_n_bytes]. destruct (Nat.leb_spec sz count) as [|_]; [lia|].
    cbn [sys_read bytes_ready]. cbn [bytes_ready] in Hready.
    destruct (Z.ltb_spec (Z.of_nat (length (take (sz - count) bytes))) 0) as [|_]; [lia|].
    destruct (Nat.le_gt_cases (sz - count) (length bytes)) as [Henough|Hshort].
    + assert (Hl : length (take (sz - count) bytes) = (sz - count)%nat)
        by (rewrite length_take; lia).
      rewrite Hl. replace (count + (sz - count))%nat with sz by lia.
      eexists. split; [|split].
      * destruct fuel; cbn [read_n_bytes]; rewrite Nat.leb_refl; unfold write_at;
          rewrite Hl, take_app_le by lia;
          replace (count + (sz - count))%nat with sz by lia; reflexivity.
      * rewrite drop_app_le by lia.
        destruct (drop (sz - count) bytes); reflexivity.
      * destruct (drop (sz - count) bytes); simpl; lia.
    + rewrite take_ge, drop_ge by lia.
      rewrite length_app in Hready.
      destruct (IH fuel (write_at buf count bytes) (count + length bytes)%nat sz)
        as (inbound' & Hread & Hrest & Hlen).
      * simpl in Hfuel. lia.
      * apply write_at_length, Hbuf.
      * lia.
      * lia.
      * exists inbound'. split; [|split].
        -- rewrite Hread. f_equal. f_equal. f_equal.
           rewrite (write_at_take _ _ _ Hbuf), (write_at_drop _ _ _ _ Hbuf) by lia.
           rewrite take_app_ge by lia. rewrite <- !app_assoc.
           replace (sz - (count + length bytes))%nat
             with (sz - count - length bytes)%nat by lia.
           reflexivity.
        -- rewrite Hrest, drop_app_ge by lia. f_equal. lia.
        -- simpl. lia.
Qed.

Section ThresholdProps.
Context `{Codec}.

(** X24. What [handle_tcp] does on both sides of its length test.  Once the two
    bytes of the length prefix have arrived, a request is rejected when the
    length they declare is [INBUF_SIZE] or more: the connection is closed, the
    pipeline is not run, nothing is written.  For a smaller declared length,
    when the connection delivers the payload, exactly the declared number of
    payload bytes is read into the buffer and the pipeline runs on them. *)
Lemma tcp_length_threshold fuel s inbound tcplen_mem inbuf h entries count0 hi lo payload :
  0 <= s ->
  (length inbound <= fuel)%nat ->
  bytes_ready inbound = hi :: lo :: payload ->
  (INBUF_SIZE <= hi * 256 + lo ->
   handle_tcp fuel s inbound tcplen_mem inbuf h entries count0
   = Some (mk_tcp_result [] true count0 [OutTooLarge (hi * 256 + lo) INBUF_SIZE] h))
  /\ (hi * 256 + lo < INBUF_SIZE ->
      (Z.to_nat (hi * 256 + lo) <= length payload)%nat ->
      tcp_recv fuel inbound tcplen_mem inbuf
      = Some (RecvQuery (hi * 256 + lo)
                (take (Z.to_nat (hi * 256 + lo)) payload
                 ++ drop (Z.to_nat (hi * 256 + lo)) inbuf)%list [])
      /\ handle_tcp fuel s inbound tcplen_mem inbuf h entries count0
         = let r := handle_query
                      (take (Z.to_nat (hi * 256 + lo)) payload
                       ++ drop (Z.to_nat (hi * 256 + lo)) inbuf)%list
                      (hi * 256 + lo) h entries count0 0 transport_tcp in
           Some (match outbuf r with
                 | None => mk_tcp_result [] true (count r) (printed r) (store r)
                 | Some out =>
                     mk_tcp_result
                       (htons (answer_size r) ++ take (Z.to_nat (answer_size r)) out)%list
                       true (count r) (printed r) (store r)
                 end)).
Proof.
  intros Hs Hfuel Hready.
  destruct (read_n_bytes_exact inbound fuel tcplen_mem 0 2 Hfuel)
    as (inbound1 & Hread1 & Hready1 & Hlen1); [lia|lia|rewrite Hready; simpl; lia|].
  rewrite Hready in Hread1, Hready1. simpl in Hread1, Hready1.
  rewrite drop_0 in Hready1.
  assert (Hrecv_large : INBUF_SIZE <= hi * 256 + lo ->
            tcp_recv fuel inbound tcplen_mem inbuf
            = Some (RecvTooLarge (hi * 256 + lo) [OutTooLarge (hi * 256 + lo) INBUF_SIZE])).
  { intros Hge. unfold tcp_recv. rewrite Hread1. cbn [mbind option_bind ntohs].
    destruct (Z.geb_spec (hi * 256 + lo) INBUF_SIZE) as [_|]; [reflexivity|lia]. }
  assert (Hrecv_small : hi * 256 + lo < INBUF_SIZE ->
            (Z.to_nat (hi * 256 + lo) <= length payload)%nat ->
            tcp_recv fuel inbound tcplen_mem inbuf
            = Some (RecvQuery (hi * 256 + lo)
                      (take (Z.to_nat (hi * 256 + lo)) payload
                       ++ drop (Z.to_nat (hi * 256 + lo)) inbuf)%list [])).
  { intros Hlt Hlen. unfold tcp_recv. rewrite Hread1. cbn [mbind option_bind ntohs].
    destruct (Z.geb_spec (hi * 256 + lo) INBUF_SIZE) as [|_]; [lia|].
    destruct (read_n_bytes_exact inbound1 fuel inbuf 0 (Z.to_nat (hi * 256 + lo)))
      as (inbound2 & Hread2 & _ & _); [lia|lia|lia|rewrite Hready1; lia|].
    rewrite Hread2, Hready1, Nat.sub_0_r. reflexivity. }
  split.
  - intros Hge. unfold handle_tcp. destruct (Z.ltb_spec s 0) as [|_]; [lia|].
    rewrite (Hrecv_large Hge). reflexivity.
  - intros Hlt Hlen. split; [exact (Hrecv_small Hlt Hlen)|].
    unfold handle_tcp. destruct (Z.ltb_spec s 0) as [|_]; [lia|].
    rewrite (Hrecv_small Hlt Hlen). cbn [mbind option_bind].
    destruct (outbuf _); reflexivity.
Qed.
End ThresholdProps.

(** The two sides of the test next to each other: 4095 bytes are read and
    decoded, 4096 bytes are turned away. *)
Example tcp_length_4095_and_4096 :
  tcp_recv 1 [ReadData (15 :: 255 :: replicate 4095 7)] [0; 0] (replicate 4096 0)
  = Some (RecvQuery 4095 (replicate 4095 7 ++ [0])%list [])
  /\ tcp_recv 1 [ReadData (16 :: 0 :: replicate 4096 7)] [0; 0] (replicate 4096 0)
     = Some (RecvTooLarge 4096 [OutTooLarge 4096 4096]).
Proof. vm_compute. split; reflexivity. Qed.

(** ** What the parser hands to the server, and what the server keeps *)

Section LifecycleProps.
Context `{Codec}.

(** X26. [read_datafile] ends in a list or in [error()] on every file: the
    loops of [matchline], [replyline] and [adjustline] consume their line and
    stop, and the pointer to the open entry always points into the list. *)
Lemma read_datafile_not_stuck name file : read_datafile name file <> Stuck.
Proof.
  destruct file as [lines|]; simpl; [|discriminate].
  pose proof (read_lines_not_stuck name lines init_pstate pstate_inv_init) as Hns.
  destruct (read_lines name init_pstate lines); [discriminate|discriminate|contradiction].
Qed.

(** X25. In the list that [read_datafile] returns every entry has a canned
    reply of its own in the store: each reply is allocated, and no two entries
    share one. *)
Lemma read_datafile_replies name lines es h out :
  read_datafile name (Some lines) = Ok (es, h, out) ->
  Forall (fun e => is_Some (h !! reply e)) es /\ NoDup (reply <$> es).
Proof.
  simpl. destruct (read_lines name init_pstate lines) as [st| |] eqn:Hl; try discriminate.
  intros [= <- <- <-].
  destruct (read_lines_inv _ _ _ _ pstate_inv_init Hl) as [_ _ Ha Hd]. auto.
Qed.

(** Serving a request leaves the store as it was: the answer is a copy,
    freed once it is encoded, and no canned reply is touched. *)
Lemma handle_query_store inbuf inlen h entries count0 size0 t :
  store (handle_query inbuf inlen h entries count0 size0 t) = h.
Proof.
  unfold handle_query.
  destruct (ldns_wire2pkt _) as [q|status]; [|reflexivity].
  assert (Hfree : forall a h1, get_answer h entries q t = (a, h1) -> ldns_pkt_free h1 a = h).
  { unfold get_answer, ldns_pkt_clone.
    destruct (find_match h entries q t) as [m|]; [|intros a h1 [= <- <-]; reflexivity].
    assert (Hl : h !! fresh (dom h) = None) by (apply not_elem_of_dom, is_fresh).
    destruct (copy_id m); intros a h1 [= <- <-]; simpl.
    - rewrite delete_alter_eq, delete_insert_eq. apply delete_id, Hl.
    - rewrite delete_insert_eq. apply delete_id, Hl. }
  destruct (get_answer h entries q t) as [a h1] eqn:Ha.
  specialize (Hfree a h1 eq_refl).
  destruct (ldns_pkt2wire _) as [[st dest] size].
  destruct (negb _); simpl; exact Hfree.
Qed.
End LifecycleProps.

(** * Further properties *)

(** ** Keywords, directive kinds and the REPLY vocabulary *)

Lemma strip_prefix_app keyword : forall rest,
  strip_prefix keyword (keyword +:+ rest) = Some rest.
Proof.
  induction keyword as [|k keyword IH]; intros rest; [reflexivity|].
  rewrite append_String. simpl. rewrite Ascii.eqb_refl. apply IH.
Qed.

Lemma strip_prefix_inv keyword : forall s rest,
  strip_prefix keyword s = Some rest -> s = keyword +:+ rest.
Proof.
  induction keyword as [|k keyword IH]; intros s rest; simpl.
  - intros [= ->]. reflexivity.
  - destruct s as [|c s]; [discriminate|].
    destruct (Ascii.eqb_spec c k) as [->|]; [|discriminate].
    intros Hs. rewrite append_String. f_equal. apply IH, Hs.
Qed.

Lemma skip_space_peek s : isspace (peek (skip_space s)) = false.
Proof.
  induction s as [|c s IH]; [reflexivity|]. simpl.
  destruct (isspace c) eqn:Hc; [exact IH|]. simpl. exact Hc.
Qed.

Lemma str_keyword_app keyword rest :
  str_keyword (keyword +:+ rest) keyword = Some (skip_space rest).
Proof. unfold str_keyword. rewrite strip_prefix_app. reflexivity. Qed.

(** X1. [str_keyword] succeeds exactly on the strings that start with the
    keyword, whatever follows it (no word boundary is asked for), and it
    returns what follows the keyword with the leading white space removed: the
    string it returns never starts with white space. *)
Theorem str_keyword_is_prefix_test s keyword r :
  (str_keyword s keyword = Some r
   <-> exists rest, s = keyword +:+ rest /\ r = skip_space rest)
  /\ (str_keyword s keyword = Some r -> isspace (peek r) = false).
Proof.
  assert (Hinv : str_keyword s keyword = Some r ->
                 exists rest, s = keyword +:+ rest /\ r = skip_space rest).
  { unfold str_keyword.
    destruct (strip_prefix keyword s) as [rest|] eqn:Hs; [|discriminate].
    intros [= <-]. exists rest. split; [|reflexivity]. apply strip_prefix_inv, Hs. }
  split; [split; [exact Hinv|]|].
  - intros (rest & -> & ->). apply str_keyword_app.
  - intros Hk. destruct (Hinv Hk) as (rest & _ & ->). apply skip_space_peek.
Qed.

Lemma keywords_diverge :
  Forall (fun k1 => Forall (fun k2 => k1 = k2 \/ diverge k1 k2 = true) keywords) keywords.
Proof.
  assert (Hb : forallb (fun k1 => forallb (fun k2 => String.eqb k1 k2 || diverge k1 k2)
                                   keywords) keywords = true) by (vm_compute; reflexivity).
  rewrite forallb_forall in Hb. apply Forall_forall. intros k1 H1.
  apply list_elem_of_In in H1. specialize (Hb k1 H1). rewrite forallb_forall in Hb.
  apply Forall_forall. intros k2 H2. apply list_elem_of_In in H2.
  specialize (Hb k2 H2). apply orb_true_iff in Hb as [Hb|Hb]; [left|right; exact Hb].
  apply String.eqb_eq, Hb.
Qed.

(** X2. The eight directive keywords of the data file exclude each other: a
    line whose content starts with one of them starts with no other one, so
    the order of the tests in [read_datafile]'s if-else chain does not decide
    how a directive line is read. *)
Theorem directive_kind_is_unique k1 k2 line :
  k1 ∈ keywords -> k2 ∈ keywords -> k1 <> k2 ->
  directive_line k1 line -> ~ directive_line k2 line.
Proof.
  intros H1 H2 Hne [_ Hd1] [_ Hd2].
  pose proof keywords_diverge as Hall. rewrite Forall_forall in Hall.
  specialize (Hall k1 H1). rewrite Forall_forall in Hall.
  destruct (Hall k2 H2) as [Heq|Hdiv]; [contradiction|].
  rewrite (str_keyword_excl k1 k2 _ Hdiv Hd1) in Hd2. destruct Hd2 as [x Hx]. discriminate.
Qed.

Lemma directive_kind_is_unique_witness :
  ~ directive_line "ENTRY_BEGIN" ("  ENTRY_END" +:+ nl).
Proof.
  apply (directive_kind_is_unique "ENTRY_END" "ENTRY_BEGIN" ("  ENTRY_END" +:+ nl)).
  - unfold keywords. do 7 apply list_elem_of_further. apply list_elem_of_here.
  - unfold keywords. apply list_elem_of_here.
  - discriminate.
  - split; [reflexivity|]. vm_compute. eauto.
Defined.

Lemma first_keyword_hit {A} (table : list (string * A)) kw a rest :
  unshadowed table = true -> (kw, a) ∈ table ->
  first_keyword table (kw +:+ rest) = Some (skip_space rest, a).
Proof.
  induction table as [|[k x] table IH]; intros Hu Hin; [inversion Hin|].
  simpl in Hu. apply andb_true_iff in Hu as [Hdiv Hu]. cbn [first_keyword].
  apply elem_of_cons in Hin as [[= <- <-]|Hin].
  - rewrite str_keyword_app. reflexivity.
  - rewrite forallb_forall in Hdiv.
    specialize (Hdiv (kw, a) (proj1 (list_elem_of_In _ _) Hin)). simpl in Hdiv.
    rewrite (str_keyword_excl kw k (kw +:+ rest) Hdiv).
    + apply IH; assumption.
    + rewrite str_keyword_app. eauto.
Qed.

Lemma reply_keywords_unshadowed : unshadowed reply_keywords = true.
Proof. vm_compute. reflexivity. Qed.

Lemma reply_keywords_start :
  Forall (fun ka => isendline (peek ka.1) = false /\ isspace (peek ka.1) = false
                    /\ (0 < String.length ka.1)%nat) reply_keywords.
Proof. unfold reply_keywords. repeat constructor. Qed.

Lemma peek_append s rest : (0 < String.length s)%nat -> peek (s +:+ rest) = peek s.
Proof. destruct s; simpl; [lia|reflexivity]. Qed.

Lemma append_length s rest :
  String.length (s +:+ rest) = (String.length s + String.length rest)%nat.
Proof. induction s as [|c s IH]; simpl; [reflexivity|]. rewrite IH. reflexivity. Qed.

Lemma isendline_not_zero c : isendline c = false -> Ascii.eqb c Ascii.zero = false.
Proof. unfold isendline. intros Hc. apply orb_false_iff in Hc as [_ Hc]. exact Hc. Qed.

Lemma skip_space_ws ws rest : skip_space ws = "" -> skip_space (ws +:+ rest) = skip_space rest.
Proof.
  induction ws as [|c ws IH]; [reflexivity|]. rewrite append_String. simpl.
  destruct (isspace c); [exact IH|discriminate].
Qed.

Lemma skip_space_id s : isspace (peek s) = false -> skip_space s = s.
Proof. destruct s as [|c s]; simpl; [reflexivity|]. intros ->. reflexivity. Qed.

Lemma replyline_loop_end fuel parse r h :
  isendline (peek parse) = true -> replyline_loop (S fuel) parse r h = Ok h.
Proof. intros He. simpl. rewrite He. destruct (Ascii.eqb _ _); reflexivity. Qed.

(** X3. A REPLY line made of keywords of [replyline]'s vocabulary, each
    followed by any amount of white space (none is needed), and ended by the
    end of the line or a comment, is accepted: the setters of its keywords are
    applied to the canned reply of the entry one after the other, from left to
    right. *)
Theorem replyline_applies_in_order toks tail e h :
  Forall (fun tok => tok.1 ∈ reply_keywords /\ skip_space tok.2 = "") toks ->
  isendline (peek tail) = true ->
  isendline (peek (skip_space tail)) = true ->
  replyline (reply_text toks tail) e h
  = Ok (foldl (fun h tok => alter tok.1.2 (reply e) h) h toks).
Proof.
  intros Hall Ht1 Ht2. unfold replyline.
  assert (Hfuel : (String.length (reply_text toks tail)
                   < S (String.length (reply_text toks tail)))%nat) by lia.
  revert Hfuel. generalize (S (String.length (reply_text toks tail))) as fuel.
  generalize (reply e) as r. intros r fuel. revert fuel h.
  induction toks as [|[[kw a] ws] toks IH]; intros fuel h Hfuel.
  - destruct fuel; [simpl in Hfuel; lia|]. apply replyline_loop_end, Ht1.
  - apply Forall_cons in Hall as [[Hin Hws] Hall]. simpl in Hin, Hws.
    pose proof reply_keywords_start as Hs. rewrite Forall_forall in Hs.
    destruct (Hs _ Hin) as (Hend & Hsp & Hlen). simpl in Hend, Hsp, Hlen.
    destruct fuel as [|fuel]; [lia|].
    cbn [replyline_loop reply_text fold_right fst snd foldl].
    cbn [reply_text fold_right fst snd] in Hfuel.
    fold (reply_text toks tail) in *.
    rewrite peek_append by exact Hlen.
    rewrite (isendline_not_zero _ Hend), Hend.
    rewrite (first_keyword_hit reply_keywords kw a _ reply_keywords_unshadowed Hin).
    rewrite (skip_space_ws _ _ Hws).
    rewrite !append_length in Hfuel.
    destruct toks as [|[[kw' a'] ws'] toks].
    + cbn [reply_text fold_right foldl].
      pose proof (skip_space_length tail) as Hl. cbn [reply_text fold_right] in Hfuel.
      destruct fuel as [|fuel]; [lia|]. apply replyline_loop_end, Ht2.
    + rewrite skip_space_id.
      * apply IH; [exact Hall|lia].
      * apply Forall_cons in Hall as [[Hin' _] _]. simpl in Hin'.
        destruct (Hs _ Hin') as (_ & Hsp' & Hlen'). simpl in Hsp', Hlen'.
        cbn [reply_text fold_right fst snd]. rewrite peek_append by exact Hlen'. exact Hsp'.
Qed.

Lemma replyline_applies_in_order_witness :
  replyline ("NOERRORQR  AA " +:+ nl) example_entry example_store
  = Ok (alter (pkt_set_aa true) 1%positive
          (alter (pkt_set_qr true) 1%positive
             (alter (pkt_set_rcode LDNS_RCODE_NOERROR) 1%positive example_store))).
Proof.
  apply (replyline_applies_in_order
           [ ("NOERROR", pkt_set_rcode LDNS_RCODE_NOERROR, "");
             ("QR", pkt_set_qr true, "  "); ("AA", pkt_set_aa true, " ") ]
           nl example_entry example_store).
  - repeat constructor; apply list_elem_of_In; simpl; auto 30.
  - reflexivity.
  - reflexivity.
Defined.

(** ** The words of a MATCH line *)

Lemma string_app_assoc (a b c : string) : (a +:+ b) +:+ c = a +:+ (b +:+ c).
Proof. induction a as [|x a IH]; [reflexivity|]. rewrite !append_String, IH. reflexivity. Qed.

Lemma matchline_loop_end fuel line parse e :
  isendline (peek parse) = true -> matchline_loop (S fuel) line parse e = Ok e.
Proof. intros He. simpl. rewrite He. destruct (Ascii.eqb _ _); reflexivity. Qed.

Ltac other_keyword kw k :=
  rewrite (str_keyword_excl kw k _ eq_refl)
    by (rewrite str_keyword_app; eexists; reflexivity).

Lemma matchline_loop_serial fuel line sep digits rest e :
  sep = "="%char \/ sep = ":"%char ->
  digits <> [] -> Forall (fun c => isdigit c = true) digits ->
  isdigit (peek rest) = false ->
  matchline_loop (S fuel) line
    ("serial" +:+ String sep (string_of_list_ascii digits +:+ rest)) e
  = matchline_loop fuel line (skip_space rest)
      (set_ixfr_soa_serial (to_uint32 (clamp_long (decimal_value digits)))
         (set_match_serial true e)).
Proof.
  intros Hsep Hne Hall Hrest. cbn [matchline_loop].
  rewrite peek_append by (simpl; lia). cbn [peek].
  change (Ascii.eqb "s" Ascii.zero) with false. change (isendline "s") with false. cbn iota.
  other_keyword "serial" "opcode". other_keyword "serial" "qtype".
  other_keyword "serial" "qname". other_keyword "serial" "UDP".
  other_keyword "serial" "TCP". rewrite str_keyword_app.
  assert (Hsp : skip_space (String sep (string_of_list_ascii digits +:+ rest))
                = String sep (string_of_list_ascii digits +:+ rest)).
  { destruct Hsep as [-> | ->]; reflexivity. }
  rewrite Hsp. cbn [peek advance].
  assert (Hchk : negb (Ascii.eqb sep "=") && negb (Ascii.eqb sep ":") = false).
  { destruct Hsep as [-> | ->]; reflexivity. }
  rewrite Hchk. rewrite (strtol_decimal digits rest Hne Hall Hrest). reflexivity.
Qed.

Lemma match_token_step fuel line tok rest e :
  match_token_ok tok -> isdigit (peek rest) = false ->
  matchline_loop (S fuel) line (match_token_text tok +:+ rest) e
  = matchline_loop fuel line (skip_space rest) (match_token_effect tok e).
Proof.
  intros Hok Hrest. destruct tok; cbn [match_token_text match_token_effect].
  - cbn [matchline_loop]. rewrite peek_append by (simpl; lia). cbn [peek].
    change (Ascii.eqb "o" Ascii.zero) with false. change (isendline "o") with false. cbn iota.
    rewrite str_keyword_app. reflexivity.
  - cbn [matchline_loop]. rewrite peek_append by (simpl; lia). cbn [peek].
    change (Ascii.eqb "q" Ascii.zero) with false. change (isendline "q") with false. cbn iota.
    other_keyword "qtype" "opcode". rewrite str_keyword_app. reflexivity.
  - cbn [matchline_loop]. rewrite peek_append by (simpl; lia). cbn [peek].
    change (Ascii.eqb "q" Ascii.zero) with false. change (isendline "q") with false. cbn iota.
    other_keyword "qname" "opcode". other_keyword "qname" "qtype".
    rewrite str_keyword_app. reflexivity.
  - cbn [matchline_loop]. rewrite peek_append by (simpl; lia). cbn [peek].
    change (Ascii.eqb "U" Ascii.zero) with false. change (isendline "U") with false. cbn iota.
    other_keyword "UDP" "opcode". other_keyword "UDP" "qtype". other_keyword "UDP" "qname".
    rewrite str_keyword_app. reflexivity.
  - cbn [matchline_loop]. rewrite peek_append by (simpl; lia). cbn [peek].
    change (Ascii.eqb "T" Ascii.zero) with false. change (isendline "T") with false. cbn iota.
    other_keyword "TCP" "opcode". other_keyword "TCP" "qtype". other_keyword "TCP" "qname".
    other_keyword "TCP" "UDP". rewrite str_keyword_app. reflexivity.
  - destruct Hok as (Hsep & Hne & Hall).
    rewrite string_app_assoc, append_String.
    apply matchline_loop_serial; assumption.
Qed.

Lemma match_token_text_start tok :
  isspace (peek (match_token_text tok)) = false
  /\ isdigit (peek (match_token_text tok)) = false
  /\ (0 < String.length (match_token_text tok))%nat.
Proof. destruct tok; simpl; repeat split; lia. Qed.

Lemma isspace_not_digit c : isspace c = true -> isdigit c = false.
Proof.
  intros Hc. destruct (isdigit c) eqn:Hd; [|reflexivity].
  apply isdigit_not_space in Hd. congruence.
Qed.

Lemma isendline_not_digit c : isendline c = true -> isdigit c = false.
Proof.
  unfold isendline. intros Hc.
  repeat (apply orb_true_iff in Hc as [Hc|Hc]); apply Ascii.eqb_eq in Hc; subst; reflexivity.
Qed.

Lemma ws_peek ws rest :
  skip_space ws = "" -> isdigit (peek rest) = false -> isdigit (peek (ws +:+ rest)) = false.
Proof.
  destruct ws as [|c ws]; [intros _ Hr; exact Hr|]. simpl.
  destruct (isspace c) eqn:Hc; [|discriminate]. intros _ _. apply isspace_not_digit, Hc.
Qed.

Lemma match_text_peek toks tail :
  isendline (peek tail) = true -> isdigit (peek (match_text toks tail)) = false.
Proof.
  intros Ht. destruct toks as [|[tok ws] toks]; simpl.
  - apply isendline_not_digit, Ht.
  - destruct (match_token_text_start tok) as (_ & Hd & Hl).
    rewrite peek_append by exact Hl. exact Hd.
Qed.

(** X4. A MATCH line made of the words opcode, qtype, qname, UDP, TCP and
    serial=N (or serial:N, N decimal digits), each followed by any amount of
    white space, and ended by the end of the line or a comment, is accepted:
    the words take effect from left to right, and a serial is stored as the
    number clamped to a [long] and then reduced modulo 2^32. *)
Theorem matchline_applies_in_order toks tail e :
  Forall (fun tok => match_token_ok tok.1 /\ skip_space tok.2 = "") toks ->
  isendline (peek tail) = true ->
  isendline (peek (skip_space tail)) = true ->
  matchline (match_text toks tail) e
  = Ok (foldl (fun e tok => match_token_effect tok.1 e) e toks).
Proof.
  intros Hall Ht1 Ht2. unfold matchline.
  assert (Hfuel : (String.length (match_text toks tail)
                   < S (String.length (match_text toks tail)))%nat) by lia.
  revert Hfuel. generalize (S (String.length (match_text toks tail))) as fuel.
  generalize (match_text toks tail) at 2 as line. intros line fuel. revert fuel e.
  induction toks as [|[tok ws] toks IH]; intros fuel e Hfuel.
  - destruct fuel; [simpl in Hfuel; lia|]. apply matchline_loop_end, Ht1.
  - apply Forall_cons in Hall as [[Hok Hws] Hall]. simpl in Hok, Hws.
    destruct fuel as [|fuel]; [lia|].
    cbn [match_text fold_right fst snd foldl]. cbn [match_text fold_right fst snd] in Hfuel.
    fold (match_text toks tail) in *.
    rewrite match_token_step;
      [|exact Hok|apply ws_peek; [exact Hws|apply match_text_peek, Ht1]].
    rewrite (skip_space_ws _ _ Hws). rewrite !append_length in Hfuel.
    destruct (match_token_text_start tok) as (_ & _ & Hl).
    destruct toks as [|[tok' ws'] toks].
    + cbn [match_text fold_right foldl].
      pose proof (skip_space_length tail) as Hlt. cbn [match_text fold_right] in Hfuel.
      destruct fuel as [|fuel]; [lia|]. apply matchline_loop_end, Ht2.
    + rewrite skip_space_id.
      * apply IH; [exact Hall|lia].
      * destruct (match_token_text_start tok') as (Hsp' & _ & Hl').
        cbn [match_text fold_right fst snd]. rewrite peek_append by exact Hl'. exact Hsp'.
Qed.

Lemma matchline_applies_in_order_witness :
  matchline ("qname TCP serial=4294967297opcode " +:+ nl) example_wildcard
  = Ok (mk_entry true false true true 1 transport_tcp 2%positive false).
Proof.
  apply (matchline_applies_in_order
           [ (TokQname, " "); (TokTCP, " ");
             (TokSerial "=" ["4";"2";"9";"4";"9";"6";"7";"2";"9";"7"]%char, "");
             (TokOpcode, " ") ] nl example_wildcard).
  - repeat constructor; auto; discriminate.
  - reflexivity.
  - reflexivity.
Defined.

(** ** What MATCH and ADJUST lines can and cannot do *)

Lemma flags_kept_refl e : flags_kept e e.
Proof. unfold flags_kept. tauto. Qed.

Lemma flags_kept_trans e1 e2 e3 : flags_kept e1 e2 -> flags_kept e2 e3 -> flags_kept e1 e3.
Proof. unfold flags_kept. tauto. Qed.

Lemma frame_step (f : entry -> entry) e e' :
  reply (f e) = reply e -> copy_id (f e) = copy_id e -> flags_kept e (f e) ->
  reply e' = reply (f e) /\ copy_id e' = copy_id (f e) /\ flags_kept (f e) e' ->
  reply e' = reply e /\ copy_id e' = copy_id e /\ flags_kept e e'.
Proof.
  intros Hr Hc Hf (Hr' & Hc' & Hf'). rewrite Hr', Hc'.
  eauto using flags_kept_trans.
Qed.

Lemma flags_kept_opcode e : flags_kept e (set_match_opcode true e).
Proof. unfold flags_kept. simpl. tauto. Qed.
Lemma flags_kept_qtype e : flags_kept e (set_match_qtype true e).
Proof. unfold flags_kept. simpl. tauto. Qed.
Lemma flags_kept_qname e : flags_kept e (set_match_qname true e).
Proof. unfold flags_kept. simpl. tauto. Qed.
Lemma flags_kept_transport t e : t <> transport_any -> flags_kept e (set_match_transport t e).
Proof. unfold flags_kept. simpl. tauto. Qed.
Lemma flags_kept_serial v e : flags_kept e (set_ixfr_soa_serial v (set_match_serial true e)).
Proof. unfold flags_kept. simpl. tauto. Qed.

(** X5. Whatever a MATCH line holds, when [matchline] returns the entry
    has the canned reply and the [copy_id] flag it had; a match flag that was
    set is still set, and a transport that was chosen is not back to
    [transport_any]. *)
Theorem matchline_only_adds line e e' :
  matchline line e = Ok e' ->
  reply e' = reply e /\ copy_id e' = copy_id e /\ flags_kept e e'.
Proof.
  unfold matchline. generalize (S (String.length line)) as fuel.
  generalize line at 2 as parse. intros parse fuel. revert parse e.
  induction fuel as [|fuel IH]; intros parse e; [discriminate|].
  simpl.
  destruct (Ascii.eqb (peek parse) Ascii.zero);
    [intros [= <-]; auto using flags_kept_refl|].
  destruct (isendline (peek parse)); [intros [= <-]; auto using flags_kept_refl|].
  destruct (str_keyword parse "opcode") as [p|].
  { intros Hl. apply IH in Hl.
    exact (frame_step (set_match_opcode true) e e' eq_refl eq_refl (flags_kept_opcode e) Hl). }
  destruct (str_keyword parse "qtype") as [p|].
  { intros Hl. apply IH in Hl.
    exact (frame_step (set_match_qtype true) e e' eq_refl eq_refl (flags_kept_qtype e) Hl). }
  destruct (str_keyword parse "qname") as [p|].
  { intros Hl. apply IH in Hl.
    exact (frame_step (set_match_qname true) e e' eq_refl eq_refl (flags_kept_qname e) Hl). }
  destruct (str_keyword parse "UDP") as [p|].
  { intros Hl. apply IH in Hl.
    refine (frame_step (set_match_transport transport_udp) e e' eq_refl eq_refl
              (flags_kept_transport _ e _) Hl). discriminate. }
  destruct (str_keyword parse "TCP") as [p|].
  { intros Hl. apply IH in Hl.
    refine (frame_step (set_match_transport transport_tcp) e e' eq_refl eq_refl
              (flags_kept_transport _ e _) Hl). discriminate. }
  destruct (str_keyword parse "serial") as [p|]; [|discriminate].
  destruct (negb _ && negb _); [discriminate|].
  destruct (strtol (advance p)) as [v rest].
  intros Hl. apply IH in Hl.
  exact (frame_step (fun e => set_ixfr_soa_serial (to_uint32 v) (set_match_serial true e))
           e e' eq_refl eq_refl (flags_kept_serial _ e) Hl).
Qed.

Lemma matchline_only_adds_witness :
  reply (mk_entry true false true false 0 transport_udp 2%positive false) = 2%positive
  /\ copy_id (mk_entry true false true false 0 transport_udp 2%positive false) = false
  /\ flags_kept (mk_entry true false false false 0 transport_tcp 2%positive false)
       (mk_entry true false true false 0 transport_udp 2%positive false).
Proof.
  apply (matchline_only_adds ("qname UDP" +:+ nl)
           (mk_entry true false false false 0 transport_tcp 2%positive false)).
  vm_compute. reflexivity.
Defined.

Lemma match_text_start toks tail :
  isspace (peek tail) = false -> isdigit (peek tail) = false ->
  isspace (peek (match_text toks tail)) = false
  /\ isdigit (peek (match_text toks tail)) = false.
Proof.
  intros Hs Hd. destruct toks as [|[tok ws] toks]; [auto|].
  destruct (match_token_text_start tok) as (Hs' & Hd' & Hl).
  cbn [match_text fold_right fst snd]. rewrite peek_append by exact Hl. auto.
Qed.

Lemma match_text_length toks tail :
  (length toks + String.length tail <= String.length (match_text toks tail))%nat.
Proof.
  induction toks as [|[tok ws] toks IH]; [simpl; lia|].
  cbn [match_text fold_right fst snd length]. fold (match_text toks tail).
  destruct (match_token_text_start tok) as (_ & _ & Hl).
  rewrite !append_length. lia.
Qed.

(** The loop of [matchline] over the words at the head of its text. *)
Lemma matchline_loop_words line tail toks : forall fuel e,
  Forall (fun tok => match_token_ok tok.1 /\ skip_space tok.2 = "") toks ->
  isspace (peek tail) = false -> isdigit (peek tail) = false ->
  matchline_loop (length toks + fuel) line (match_text toks tail) e
  = matchline_loop fuel line tail (foldl (fun e tok => match_token_effect tok.1 e) e toks).
Proof.
  induction toks as [|[tok ws] toks IH]; intros fuel e Hall Hs Hd; [reflexivity|].
  apply Forall_cons in Hall as [[Hok Hws] Hall]. simpl in Hok, Hws.
  destruct (match_text_start toks tail Hs Hd) as [Hs' Hd'].
  cbn [match_text fold_right fst snd foldl length Nat.add].
  fold (match_text toks tail).
  rewrite match_token_step; [|exact Hok|apply ws_peek; assumption].
  rewrite (skip_space_ws _ _ Hws), (skip_space_id _ Hs').
  apply IH; assumption.
Qed.

Lemma matchline_loop_no_separator fuel line rest e :
  Ascii.eqb (peek (skip_space rest)) "=" = false ->
  Ascii.eqb (peek (skip_space rest)) ":" = false ->
  matchline_loop (S fuel) line ("serial" +:+ rest) e = Fatal (ErrMatchEq line).
Proof.
  intros H1 H2. cbn [matchline_loop].
  rewrite peek_append by (simpl; lia). cbn [peek].
  change (Ascii.eqb "s" Ascii.zero) with false. change (isendline "s") with false. cbn iota.
  other_keyword "serial" "opcode". other_keyword "serial" "qtype".
  other_keyword "serial" "qname". other_keyword "serial" "UDP".
  other_keyword "serial" "TCP". rewrite str_keyword_app.
  rewrite H1, H2. reflexivity.
Qed.

(** X6. Wherever the word serial stands in a MATCH line, at its start or
    after any words that [matchline] accepts, it must be followed by [=] or
    [:] (white space may come in between): with any other character there,
    [matchline] ends in [error()] with the message "expected = or : in MATCH"
    and the whole text it was given. *)
Theorem matchline_serial_needs_separator toks rest e :
  Forall (fun tok => match_token_ok tok.1 /\ skip_space tok.2 = "") toks ->
  Ascii.eqb (peek (skip_space rest)) "=" = false ->
  Ascii.eqb (peek (skip_space rest)) ":" = false ->
  matchline (match_text toks ("serial" +:+ rest)) e
  = Fatal (ErrMatchEq (match_text toks ("serial" +:+ rest))).
Proof.
  intros Hall H1 H2. unfold matchline.
  pose proof (match_text_length toks ("serial" +:+ rest)) as Hlen.
  rewrite append_length in Hlen. simpl in Hlen.
  generalize dependent (String.length (match_text toks ("serial" +:+ rest))).
  intros n Hlen.
  replace (S n) with (length toks + S (n - length toks))%nat by lia.
  rewrite matchline_loop_words; [|exact Hall|reflexivity|reflexivity].
  apply matchline_loop_no_separator; assumption.
Qed.

Lemma matchline_serial_needs_separator_witness :
  matchline ("opcode UDP serial 2004" +:+ nl) example_wildcard
  = Fatal (ErrMatchEq ("opcode UDP serial 2004" +:+ nl)).
Proof.
  apply (matchline_serial_needs_separator [(TokOpcode, " "); (TokUDP, " ")]
           (" 2004" +:+ nl) example_wildcard).
  - repeat constructor.
  - reflexivity.
  - reflexivity.
Defined.

Lemma adjustline_loop_outcome : forall fuel parse e e',
  adjustline_loop fuel parse e = Ok e' -> e' = e \/ e' = set_copy_id true e.
Proof.
  induction fuel as [|fuel IH]; intros parse e e'; [discriminate|].
  cbn [adjustline_loop].
  destruct (Ascii.eqb (peek parse) Ascii.zero); [intros [= <-]; auto|].
  destruct (isendline (peek parse)); [intros [= <-]; auto|].
  destruct (str_keyword parse "copy_id") as [p|]; [|discriminate].
  intros Hl. apply IH in Hl as [-> | ->]; right; reflexivity.
Qed.

(** X7. An ADJUST line can only turn [copy_id] on: when [adjustline]
    returns, the entry is the one it was given or that one with [copy_id]
    set, and it is set when the text starts with the keyword. *)
Theorem adjustline_outcome line e e' :
  adjustline line e = Ok e' ->
  (e' = e \/ e' = set_copy_id true e)
  /\ (is_Some (str_keyword line "copy_id") -> copy_id e' = true).
Proof.
  intros Hl. split; [exact (adjustline_loop_outcome _ _ _ _ Hl)|].
  intros [p Hp]. unfold adjustline in Hl. cbn [adjustline_loop] in Hl.
  destruct (Ascii.eqb (peek line) Ascii.zero) eqn:Hz.
  { apply Ascii.eqb_eq in Hz. unfold str_keyword in Hp. destruct line; [discriminate|].
    simpl in Hz. subst. discriminate. }
  destruct (isendline (peek line)) eqn:He.
  { unfold str_keyword in Hp. destruct line as [|c line]; [discriminate|]. simpl in Hp, He.
    destruct (Ascii.eqb_spec c "c"); [subst; discriminate|discriminate]. }
  rewrite Hp in Hl. apply adjustline_loop_outcome in Hl as [-> | ->]; reflexivity.
Qed.

Lemma adjustline_outcome_witness :
  (set_copy_id true example_wildcard = example_wildcard
   \/ set_copy_id true example_wildcard = set_copy_id true example_wildcard)
  /\ (is_Some (str_keyword ("copy_id" +:+ nl) "copy_id")
      -> copy_id (set_copy_id true example_wildcard) = true).
Proof.
  apply (adjustline_outcome ("copy_id" +:+ nl) example_wildcard). reflexivity.
Defined.

(** ** Closed entries, parsing context and line numbers *)

Lemma matchline_error line e m : matchline line e = Fatal m -> error_lineno m = None.
Proof.
  unfold matchline. generalize (S (String.length line)) as fuel. generalize line at 2 as parse.
  intros parse fuel. revert parse e.
  induction fuel as [|fuel IH]; intros parse e; simpl; [discriminate|].
  repeat match goal with
         | |- context [if ?b then _ else _] => destruct b
         | |- context [match str_keyword ?p ?k with _ => _ end] =>
             destruct (str_keyword p k)
         | |- context [let '(_, _) := ?x in _] => destruct x
         end;
    try discriminate; try (intros [= <-]; reflexivity); apply IH.
Qed.

Lemma replyline_error line e h m : replyline line e h = Fatal m -> error_lineno m = None.
Proof.
  unfold replyline. generalize (S (String.length line)) as fuel. generalize (reply e) as r.
  intros r fuel. revert line h.
  induction fuel as [|fuel IH]; intros parse h; cbn [replyline_loop]; [discriminate|].
  destruct (Ascii.eqb (peek parse) Ascii.zero); [discriminate|].
  destruct (isendline (peek parse)); [discriminate|].
  destruct (first_keyword reply_keywords parse) as [[p set]|].
  - apply IH.
  - intros [= <-]. reflexivity.
Qed.

Lemma adjustline_error line e m : adjustline line e = Fatal m -> error_lineno m = None.
Proof.
  unfold adjustline. generalize (S (String.length line)) as fuel. intros fuel. revert line e.
  induction fuel as [|fuel IH]; intros parse e; simpl; [discriminate|].
  destruct (Ascii.eqb (peek parse) Ascii.zero); [discriminate|].
  destruct (isendline (peek parse)); [discriminate|].
  destruct (str_keyword parse "copy_id") as [p|].
  - apply IH.
  - intros [= <-]. reflexivity.
Qed.

Section ContextProps.
Context `{Codec}.

Lemma reply_inj_lookup es j cur (e e0 : entry) :
  NoDup (reply <$> es) -> es !! j = Some e -> es !! cur = Some e0 -> j <> cur ->
  reply e <> reply e0.
Proof.
  intros Hnd Hj Hcur Hne Heq. apply Hne.
  apply (NoDup_lookup _ _ _ (reply e) Hnd); rewrite list_lookup_fmap.
  - rewrite Hj. reflexivity.
  - rewrite Hcur, Heq. reflexivity.
Qed.

Lemma line_effect_closed line st st' j e :
  pstate_inv st -> line_effect line st st' ->
  entries st !! j = Some e -> current st <> Some j ->
  entries st' !! j = Some e /\ heap st' !! reply e = heap st !! reply e
  /\ current st' <> Some j.
Proof.
  intros [Hc Hn Ha Hd] Heff Hj Hcl.
  assert (Hne : forall cur e0, current st = Some cur -> entries st !! cur = Some e0 ->
                               reply e <> reply e0).
  { intros cur e0 Hcur He0. eapply reply_inj_lookup; eauto. congruence. }
  destruct Heff as [Hend|r Hdir Hcur Hr|p d Hk Hd'|p Hk|cur e0 e' Hdir Hcur He Hre
                   |cur e0 h' Hdir Hcur He Hs Hf|cur e0 e' Hdir Hcur He Hre
                   |cur p sec Hend Hk Hsec Hcur|cur Hdir Hcur|cur e0 n prev Hrec Hcur He Hrr];
    simpl.
  - auto.
  - split; [|split].
    + rewrite lookup_app_l; [exact Hj|]. eapply lookup_lt_Some, Hj.
    + apply lookup_insert_ne. intros ->.
      rewrite Forall_forall in Ha.
      destruct (Ha e) as [x Hx]; [eapply list_elem_of_lookup_2, Hj|]. congruence.
    + intros [= <-]. apply lookup_lt_Some in Hj. lia.
  - auto.
  - auto.
  - split; [|auto]. rewrite list_lookup_insert_ne; [exact Hj|]. congruence.
  - split; [exact Hj|]. split; [|exact Hcl]. apply Hf. eauto.
  - split; [|auto]. rewrite list_lookup_insert_ne; [exact Hj|]. congruence.
  - auto.
  - split; [exact Hj|]. split; [reflexivity|discriminate].
  - split; [exact Hj|]. split; [|exact Hcl]. apply lookup_alter_ne.
    intros Heq. eapply Hne; eauto.
Qed.

Lemma read_lines_closed name lines : forall st st' j e,
  pstate_inv st -> read_lines name st lines = Ok st' ->
  entries st !! j = Some e -> current st <> Some j ->
  entries st' !! j = Some e /\ heap st' !! reply e = heap st !! reply e.
Proof.
  induction lines as [|line lines IH]; intros st st' j e Hinv; simpl.
  - intros [= <-]. auto.
  - destruct (read_line name st line) as [st1| |] eqn:Hl; try discriminate.
    intros Hr Hj Hcl.
    pose proof (read_line_inv _ _ _ _ Hinv Hl) as Hinv1.
    apply read_line_effect in Hl.
    destruct (line_effect_closed _ _ _ j e (pstate_inv_set_lineno _ _ Hinv) Hl Hj Hcl)
      as (Hj1 & Hh1 & Hcl1).
    destruct (IH _ _ _ _ Hinv1 Hr Hj1 Hcl1) as [Hj2 Hh2].
    split; [exact Hj2|]. rewrite Hh2. exact Hh1.
Qed.

(** X8. Once the parser has moved past an entry, the rest of the file
    leaves it alone: an entry that is in the list and is not the open one
    after the first part of a file has the same predicates and the same
    canned reply after the whole file, whatever the later lines are. *)
Theorem closed_entries_are_final name before after st1 st2 j e :
  read_lines name init_pstate before = Ok st1 ->
  read_lines name st1 after = Ok st2 ->
  entries st1 !! j = Some e -> current st1 <> Some j ->
  entries st2 !! j = Some e /\ heap st2 !! reply e = heap st1 !! reply e.
Proof.
  intros H1 H2. apply (read_lines_closed name after); [|exact H2].
  exact (read_lines_inv _ _ _ _ pstate_inv_init H1).
Qed.

Lemma line_effect_origin line st st' :
  line_effect line st st' -> no_origin_directive line -> origin st' = origin st.
Proof. unfold no_origin_directive. destruct 1; try reflexivity. congruence. Qed.

Lemma read_lines_origin name lines : forall st st',
  read_lines name st lines = Ok st' -> Forall no_origin_directive lines ->
  origin st' = origin st.
Proof.
  induction lines as [|line lines IH]; intros st st'; simpl.
  - intros [= <-] _. reflexivity.
  - destruct (read_line name st line) as [st1| |] eqn:Hl; try discriminate.
    intros Hr Hall. apply Forall_cons in Hall as [Hline Hall].
    rewrite (IH _ _ Hr Hall).
    apply read_line_effect in Hl. apply (line_effect_origin _ _ _ Hl Hline).
Qed.

Lemma read_line_origin name st line parse :
  str_keyword (skip_space line) "$ORIGIN" = Some parse ->
  read_line name st line = get_origin name (set_lineno (lineno st + 1) st) parse.
Proof.
  intros Hk. unfold read_line.
  rewrite (str_keyword_peek _ _ _ _ Hk).
  rewrite (str_keyword_excl "$ORIGIN" "ENTRY_BEGIN" _ eq_refl (ex_intro _ _ Hk)).
  rewrite Hk. reflexivity.
Qed.

(** X9. When the lines from a $ORIGIN directive on are accepted and no
    other $ORIGIN directive is among them, the name of the directive (its
    text up to the first white space or comment character) was decoded by
    [ldns_str2rdf_dname] and is still the origin after the last of these
    lines, entry boundaries included. *)
Theorem origin_directive_persists name st line parse lines st2 :
  str_keyword (skip_space line) "$ORIGIN" = Some parse ->
  Forall no_origin_directive lines ->
  read_lines name st (line :: lines) = Ok st2 ->
  exists d, ldns_str2rdf_dname (snip_word parse) = CodecOk d /\ origin st2 = Some d.
Proof.
  intros Hk Hall. cbn [read_lines]. rewrite (read_line_origin _ _ _ _ Hk).
  unfold get_origin.
  destruct (ldns_str2rdf_dname (snip_word parse)) as [d|status]; [|discriminate].
  intros Hr. exists d. split; [reflexivity|].
  rewrite (read_lines_origin _ _ _ _ Hr Hall). reflexivity.
Qed.

(** X10. ENTRY_BEGIN and ENTRY_END change no parsing context: the target
    section, the default TTL, the origin and the previous owner name are after
    such a line what they were before it, so they carry over from one entry
    to the next. *)
Theorem entry_boundaries_keep_context name st line st' :
  directive_line "ENTRY_BEGIN" line \/ directive_line "ENTRY_END" line ->
  read_line name st line = Ok st' ->
  add_section st' = add_section st /\ default_ttl st' = default_ttl st
  /\ origin st' = origin st /\ prev_rr st' = prev_rr st.
Proof.
  intros Hdir Hl. apply read_line_effect in Hl.
  assert (Hex : forall k, diverge "ENTRY_BEGIN" k = true -> diverge "ENTRY_END" k = true ->
                          str_keyword (skip_space line) k = None).
  { intros k D1 D2. destruct Hdir as [Hd|Hd].
    - exact (directive_excl _ _ _ D1 Hd).
    - exact (directive_excl _ _ _ D2 Hd). }
  assert (Hkw : exists k, k ∈ keywords /\ is_Some (str_keyword (skip_space line) k)).
  { destruct Hdir as [[_ Hd]|[_ Hd]]; eexists; (split; [|exact Hd]); unfold keywords.
    - apply list_elem_of_here.
    - do 7 apply list_elem_of_further. apply list_elem_of_here. }
  destruct Hl as [Hend|r _ _ _|p d Hx _|p Hx|cur e e' _ _ _ _
                 |cur e h' _ _ _ _ _|cur e e' _ _ _ _
                 |cur p sec _ Hx _ _|cur _ _|cur e n prev [_ Hrec] _ _ _];
    simpl; auto.
  - rewrite (Hex "$ORIGIN" eq_refl eq_refl) in Hx. discriminate.
  - rewrite (Hex "$TTL" eq_refl eq_refl) in Hx. discriminate.
  - rewrite (Hex "SECTION" eq_refl eq_refl) in Hx. discriminate.
  - destruct Hkw as (k & Hin & [x Hx]). rewrite Forall_forall in Hrec.
    rewrite (Hrec k Hin) in Hx. discriminate.
Qed.

Lemma read_line_error_lineno name st line m n :
  read_line name st line = Fatal m -> error_lineno m = Some n -> n = lineno st + 1.
Proof.
  unfold read_line, read_entry_line, get_origin, new_entry, ldns_pkt_new.
  cbn [lineno set_lineno set_origin set_stdout current entries heap].
  repeat match goal with
  | |- context [if ?b then _ else _] => destruct b
  | |- context [match str_keyword ?p ?k with _ => _ end] => destruct (str_keyword p k)
  | |- context [match current st with _ => _ end] => destruct (current st)
  | |- context [match entries st !! ?c with _ => _ end] => destruct (entries st !! c)
  | |- context [ldns_str2rdf_dname ?w] => destruct (ldns_str2rdf_dname w)
  | |- context [ldns_rr_new_frm_str ?a ?b ?c ?d] =>
      destruct (ldns_rr_new_frm_str a b c d) as [[? ?]|?]
  | |- context [matchline ?p ?e] =>
      pose proof (matchline_error p e); destruct (matchline p e)
  | |- context [replyline ?p ?e ?h] =>
      pose proof (replyline_error p e h); destruct (replyline p e h)
  | |- context [adjustline ?p ?e] =>
      pose proof (adjustline_error p e); destruct (adjustline p e)
  end; simpl; try discriminate;
    intros [= <-]; simpl; try discriminate;
    try (intros [= <-]; reflexivity);
    match goal with
    | Hm : forall m, Fatal ?f = Fatal m -> error_lineno m = None |- _ =>
        rewrite (Hm f eq_refl); discriminate
    end.
Qed.

Lemma read_lines_error name lines : forall st m,
  read_lines name st lines = Fatal m ->
  exists before line after st1,
    lines = (before ++ line :: after)%list
    /\ read_lines name st before = Ok st1
    /\ read_line name st1 line = Fatal m
    /\ lineno st1 = lineno st + Z.of_nat (length before).
Proof.
  induction lines as [|line lines IH]; intros st m; simpl; [discriminate|].
  destruct (read_line name st line) as [st1|m1|] eqn:Hl; try discriminate.
  - intros Hr. destruct (IH _ _ Hr) as (before & l & after & st2 & -> & Hb & Hf & Hn).
    exists (line :: before), l, after, st2. simpl. rewrite Hl.
    repeat split; auto. rewrite Hn, (read_line_lineno _ _ _ _ Hl). lia.
  - intros [= <-]. exists [], line, lines, st. simpl. repeat split; auto. lia.
Qed.

(** X11. The line number in a message of [error()] is the number, counted
    from 1, of the line at which [read_datafile] stopped: all lines before it
    were accepted, and the message is the one that this line produces in the
    state they left. *)
Theorem error_line_number name lines m n :
  read_datafile name (Some lines) = Fatal m ->
  error_lineno m = Some n ->
  exists before line after st,
    lines = (before ++ line :: after)%list
    /\ n = Z.of_nat (length before) + 1
    /\ read_lines name init_pstate before = Ok st
    /\ read_line name st line = Fatal m.
Proof.
  simpl. destruct (read_lines name init_pstate lines) as [st|m1|] eqn:Hr; try discriminate.
  simpl. intros [= <-] Hn.
  destruct (read_lines_error _ _ _ _ Hr) as (before & line & after & st1 & -> & Hb & Hf & Hno).
  exists before, line, after, st1. repeat split; auto.
  rewrite (read_line_error_lineno _ _ _ _ _ Hf Hn), Hno. simpl. lia.
Qed.
End ContextProps.

Lemma closed_entries_are_final_witness :
  entries (state_after "f" example_dangling) !! 0%nat
  = Some (mk_entry false false false false 0 transport_any 1%positive false)
  /\ heap (state_after "f" example_dangling)
       !! reply (mk_entry false false false false 0 transport_any 1%positive false)
     = heap (state_after "f" (take 3 example_dangling))
         !! reply (mk_entry false false false false 0 transport_any 1%positive false).
Proof.
  apply (closed_entries_are_final "f" (take 3 example_dangling) (drop 3 example_dangling)
           (state_after "f" (take 3 example_dangling)) (state_after "f" example_dangling)).
  - vm_compute. reflexivity.
  - vm_compute. reflexivity.
  - vm_compute. reflexivity.
  - vm_compute. discriminate.
Defined.

Lemma origin_directive_persists_witness :
  exists d, ldns_str2rdf_dname (snip_word ("example.com. ; zone" +:+ nl)) = CodecOk d
            /\ origin (state_after "f" (text_lines ["$ORIGIN example.com. ; zone"; "ENTRY_BEGIN"]))
               = Some d.
Proof.
  apply (origin_directive_persists "f" init_pstate ("$ORIGIN example.com. ; zone" +:+ nl)
           ("example.com. ; zone" +:+ nl) (text_lines ["ENTRY_BEGIN"])).
  - vm_compute. reflexivity.
  - repeat constructor.
  - vm_compute. reflexivity.
Defined.

Lemma entry_boundaries_keep_context_witness :
  add_section (state_after "f" example_section_file)
  = add_section (state_after "f" (take 2 example_section_file))
  /\ default_ttl (state_after "f" example_section_file)
     = default_ttl (state_after "f" (take 2 example_section_file))
  /\ origin (state_after "f" example_section_file)
     = origin (state_after "f" (take 2 example_section_file))
  /\ prev_rr (state_after "f" example_section_file)
     = prev_rr (state_after "f" (take 2 example_section_file)).
Proof.
  apply (entry_boundaries_keep_context "f" (state_after "f" (take 2 example_section_file))
           ("ENTRY_END" +:+ nl)).
  - right. split; [reflexivity|]. vm_compute. eauto.
  - vm_compute. reflexivity.
Defined.

Lemma error_line_number_witness :
  exists before line after st,
    example_record_first = (before ++ line :: after)%list
    /\ 2 = Z.of_nat (length before) + 1
    /\ read_lines "f" init_pstate before = Ok st
    /\ read_line "f" st line
       = Fatal (ErrExpectedBegin "f" 2 ("www.example.com. IN A 10.0.0.1" +:+ nl)).
Proof.
  apply (error_line_number "f" example_record_first
           (ErrExpectedBegin "f" 2 ("www.example.com. IN A 10.0.0.1" +:+ nl)) 2).
  - vm_compute. reflexivity.
  - reflexivity.
Defined.

(** ** What the matcher reads, and how scans compose *)

Section ScanProps.
Context `{Codec}.

(** X12. Scanning a list made of two parts is scanning the first part
    and, when nothing matches there, the second one. *)
Theorem find_match_app h before after q t :
  find_match h (before ++ after) q t
  = match find_match h before q t with
    | Some e => Some e
    | None => find_match h after q t
    end.
Proof.
  induction before as [|p before IH]; [reflexivity|].
  change ((p :: before) ++ after)%list with (p :: (before ++ after))%list.
  cbn [find_match]. rewrite IH.
  repeat match goal with |- context [if ?b then _ else _] => destruct b end; reflexivity.
Qed.

(** X13. [find_match] reads the packet store only at the canned replies
    of the entries it is given: on two stores that hold the same packets at
    these places it returns the same entry. *)
Theorem find_match_reads_listed_replies h h' entries q t :
  Forall (fun e => h !! reply e = h' !! reply e) entries ->
  find_match h entries q t = find_match h' entries q t.
Proof.
  induction 1 as [|p next Hp _ IH]; [reflexivity|].
  cbn [find_match]. rewrite IH.
  assert (Hr : h !!! reply p = h' !!! reply p).
  { unfold lookup_total, map_lookup_total. rewrite Hp. reflexivity. }
  rewrite Hr. reflexivity.
Qed.

(** X14. Of the query, [find_match] reads the opcode and the first record
    of the question section, nothing else: two queries that agree on these
    select the same entry, whatever their ids, flags and other records. *)
Theorem find_match_reads_opcode_and_first_question h entries q q' t :
  ldns_pkt_get_opcode q = ldns_pkt_get_opcode q' ->
  ldns_rr_list_rr (ldns_pkt_question q) 0 = ldns_rr_list_rr (ldns_pkt_question q') 0 ->
  find_match h entries q t = find_match h entries q' t.
Proof.
  intros Hop Hq. induction entries as [|p next IH]; [reflexivity|].
  cbn [find_match]. unfold get_qtype, get_owner. rewrite IH, Hop, Hq. reflexivity.
Qed.

(** X15. An entry without any active predicate matches every query on
    every transport: it is selected whenever no entry before it matches, and
    no entry after it is ever selected.  The entry that [new_entry] makes is
    one, so an entry without a MATCH line is a catch-all. *)
Theorem catch_all_entry_ends_the_scan h before e after q t :
  catch_all e ->
  find_match h (before ++ e :: after) q t
  = match find_match h before q t with
    | Some e' => Some e'
    | None => Some e
    end
  /\ catch_all (new_entry h).1.
Proof.
  intros (H1 & H2 & H3 & H4 & H5). split; [|repeat split].
  induction before as [|p before IH].
  - simpl. rewrite H1, H2, H3, H4, H5. reflexivity.
  - change ((p :: before) ++ e :: after)%list with (p :: (before ++ e :: after))%list.
    cbn [find_match]. rewrite IH.
    repeat match goal with |- context [if ?b then _ else _] => destruct b end; reflexivity.
Qed.

(** X16. With the opcode predicate active, an entry is selected exactly
    when it is selected without it and the opcode of the query is that of its
    canned reply.  An entry whose transport is [m] is selected exactly when
    it is selected with [transport_any] and [m] is [transport_any] or the
    transport of the request. *)
Theorem opcode_and_transport_predicates h e q t m :
  (entry_fires h (set_match_opcode true e) q t
   <-> entry_fires h (set_match_opcode false e) q t
       /\ ldns_pkt_get_opcode q = ldns_pkt_get_opcode (h !!! reply e))
  /\ (entry_fires h (set_match_transport m e) q t
      <-> entry_fires h (set_match_transport transport_any e) q t
          /\ (m = transport_any \/ m = t)).
Proof.
  rewrite !entry_fires_iff. unfold entry_matches, spec_opcode_holds, spec_transport_holds.
  simpl. split; split; intuition congruence.
Qed.
End ScanProps.

Lemma find_match_reads_listed_replies_witness :
  find_match example_store2 [example_entry] example_query transport_udp
  = find_match example_store [example_entry] example_query transport_udp.
Proof.
  apply (find_match_reads_listed_replies example_store2 example_store [example_entry]).
  repeat constructor.
Defined.

Lemma find_match_reads_opcode_and_first_question_witness :
  find_match example_store [example_entry] example_query transport_udp
  = find_match example_store [example_entry]
      (pkt_push_rr LDNS_SECTION_ADDITIONAL (example_rr "other.com." 0)
         (pkt_set_rd true (pkt_set_id 1 example_query))) transport_udp.
Proof.
  apply (find_match_reads_opcode_and_first_question example_store [example_entry]);
    reflexivity.
Defined.

Lemma catch_all_entry_ends_the_scan_witness :
  find_match example_store2 ([example_entry] ++ example_wildcard :: [example_entry])
    empty_pkt transport_tcp
  = match find_match example_store2 [example_entry] empty_pkt transport_tcp with
    | Some e' => Some e'
    | None => Some example_wildcard
    end
  /\ catch_all (new_entry example_store2).1.
Proof.
  apply (catch_all_entry_ends_the_scan example_store2 [example_entry] example_wildcard).
  repeat split.
Defined.

(** ** The pipeline of a request *)

Section PipelineProps.
Context `{Codec}.

(** X17. Serving a request, over either transport and whatever it holds,
    leaves the packet store as it was: the answer is a clone ([ldns_pkt_clone]
    and [ldns_pkt_free] as modelled above) that is freed once encoded, and no
    canned reply is changed. *)
Theorem serving_keeps_the_store h entries count0 :
  (forall nb inbuf, udp_store (handle_udp nb inbuf h entries count0) = h)
  /\ (forall fuel s inbound tcplen_mem inbuf r,
        handle_tcp fuel s inbound tcplen_mem inbuf h entries count0 = Some r ->
        tcp_store r = h).
Proof.
  split.
  - intros nb inbuf. unfold handle_udp. destruct (nb <? 1); [reflexivity|].
    destruct (outbuf _); apply handle_query_store.
  - intros fuel s inbound tcplen_mem inbuf r. unfold handle_tcp.
    destruct (s <? 0); [intros [= <-]; reflexivity|].
    destruct (tcp_recv fuel inbound tcplen_mem inbuf) as [[tcplen out|tcplen buf out]|];
      cbn [mbind option_bind]; [intros [= <-]; reflexivity| |discriminate].
    destruct (outbuf _); intros [= <-]; apply handle_query_store.
Qed.

Lemma handle_query_bad inbuf inlen h entries count0 size0 t status :
  ldns_wire2pkt (take (Z.to_nat inlen) inbuf) = CodecErr status ->
  handle_query inbuf inlen h entries count0 size0 t
  = mk_query_result None size0 count0 [OutBadPacket status] h.
Proof. intros Hw. unfold handle_query. rewrite Hw. reflexivity. Qed.

(** X18. A request that [ldns_wire2pkt] does not decode is dropped on
    both transports: "Got bad packet" is printed, nothing is sent, the query
    counter is not incremented, and the stream connection is closed. *)
Theorem bad_packet_is_dropped inbuf inlen h entries count0 status :
  ldns_wire2pkt (take (Z.to_nat inlen) inbuf) = CodecErr status ->
  (1 <= inlen ->
   handle_udp inlen inbuf h entries count0
   = mk_udp_result None count0 [OutBadPacket status] h)
  /\ (forall fuel s inbound tcplen_mem inbuf0 out,
        0 <= s ->
        tcp_recv fuel inbound tcplen_mem inbuf0 = Some (RecvQuery inlen inbuf out) ->
        handle_tcp fuel s inbound tcplen_mem inbuf0 h entries count0
        = Some (mk_tcp_result [] true count0 (out ++ [OutBadPacket status])%list h)).
Proof.
  intros Hw. split.
  - intros Hnb. unfold handle_udp. destruct (Z.ltb_spec inlen 1) as [|_]; [lia|].
    rewrite (handle_query_bad _ _ _ _ _ _ _ _ Hw). reflexivity.
  - intros fuel s inbound tcplen_mem inbuf0 out Hs Hr. unfold handle_tcp.
    destruct (Z.ltb_spec s 0) as [|_]; [lia|]. rewrite Hr. cbn [mbind option_bind].
    rewrite (handle_query_bad _ _ _ _ _ _ _ _ Hw). reflexivity.
Qed.

Lemma get_answer_match h entries q t m :
  find_match h entries q t = Some m ->
  exists l, get_answer h entries q t = (Some l, <[l := answer_of h m q]> h)
            /\ h !! l = None.
Proof.
  intros Hm. unfold get_answer, ldns_pkt_clone, answer_of. rewrite Hm.
  exists (fresh (dom h)). split.
  - destruct (copy_id m); [|reflexivity]. f_equal.
    rewrite alter_insert_eq. reflexivity.
  - apply not_elem_of_dom, is_fresh.
Qed.

Lemma handle_query_match inbuf inlen h entries count0 size0 t q m out size :
  ldns_wire2pkt (take (Z.to_nat inlen) inbuf) = CodecOk q ->
  find_match h entries q t = Some m ->
  ldns_pkt2wire (Some (answer_of h m q)) = (LDNS_STATUS_OK, Some out, size) ->
  handle_query inbuf inlen h entries count0 size0 t
  = mk_query_result (Some out) size (count0 + 1)
      [ OutQuery (count0 + 1) (ldns_pkt_id q)
          (if bool_decide (t = transport_tcp) then "TCP" else "UDP") inlen
          (ldns_rr_list_rr (ldns_pkt_question q) 0);
        OutAnswerSize size ] h.
Proof.
  intros Hw Hm He. unfold handle_query. rewrite Hw.
  destruct (get_answer_match h entries q t m Hm) as (l & -> & Hl).
  rewrite lookup_total_insert_eq, He. simpl.
  rewrite delete_insert_eq, (delete_id _ _ Hl). reflexivity.
Qed.

(** X19. The whole pipeline for a request that decodes, matches the entry
    [m] and whose answer encodes to [out] with the size [size]: the answer is
    the canned reply of [m], with the id of the query when [copy_id] is set;
    the counter goes up by one; over UDP the datagram sent is the first [size]
    bytes of [out], over TCP these bytes follow the two bytes of
    [htons(size)]. *)
Theorem matched_request_is_answered inbuf inlen h entries count0 t q m out size :
  ldns_wire2pkt (take (Z.to_nat inlen) inbuf) = CodecOk q ->
  find_match h entries q t = Some m ->
  ldns_pkt2wire (Some (answer_of h m q)) = (LDNS_STATUS_OK, Some out, size) ->
  (t = transport_udp -> 1 <= inlen ->
   handle_udp inlen inbuf h entries count0
   = mk_udp_result (Some (take (Z.to_nat size) out)) (count0 + 1)
       [ OutQuery (count0 + 1) (ldns_pkt_id q) "UDP" inlen
           (ldns_rr_list_rr (ldns_pkt_question q) 0);
         OutAnswerSize size ] h)
  /\ (t = transport_tcp ->
      forall fuel s inbound tcplen_mem inbuf0,
        0 <= s ->
        tcp_recv fuel inbound tcplen_mem inbuf0 = Some (RecvQuery inlen inbuf []) ->
        handle_tcp fuel s inbound tcplen_mem inbuf0 h entries count0
        = Some (mk_tcp_result
                  (htons size ++ take (Z.to_nat size) out)%list true (count0 + 1)
                  [ OutQuery (count0 + 1) (ldns_pkt_id q) "TCP" inlen
                      (ldns_rr_list_rr (ldns_pkt_question q) 0);
                    OutAnswerSize size ] h)).
Proof.
  intros Hw Hm He. split.
  - intros -> Hnb. unfold handle_udp. destruct (Z.ltb_spec inlen 1) as [|_]; [lia|].
    rewrite (handle_query_match _ _ _ _ _ _ _ _ _ _ _ Hw Hm He). reflexivity.
  - intros -> fuel s inbound tcplen_mem inbuf0 Hs Hr. unfold handle_tcp.
    destruct (Z.ltb_spec s 0) as [|_]; [lia|]. rewrite Hr. cbn [mbind option_bind].
    rewrite (handle_query_match _ _ _ _ _ _ _ _ _ _ _ Hw Hm He). reflexivity.
Qed.
End PipelineProps.

Lemma ntohs_htons v : ntohs (htons v) = v mod 65536.
Proof.
  unfold ntohs, htons, to_uint16. change (2 ^ 16) with 65536.
  pose proof (Z.div_mod (v mod 65536) 256). lia.
Qed.

(** X20. The two-byte length prefix is big-endian and holds 16 bits: it
    reads back as the length exactly for lengths below 65536.  A message below
    [INBUF_SIZE] bytes that is framed the way [handle_tcp] frames an answer is
    read back by the receive path of [handle_tcp] as the same bytes and the
    same length. *)
Theorem tcp_framing_round_trip fuel payload tcplen_mem inbuf :
  (ntohs (htons (Z.of_nat (length payload))) = Z.of_nat (length payload)
   <-> Z.of_nat (length payload) < 65536)
  /\ (Z.of_nat (length payload) < INBUF_SIZE ->
      tcp_recv (S fuel) [ReadData (htons (Z.of_nat (length payload)) ++ payload)]
        tcplen_mem inbuf
      = Some (RecvQuery (Z.of_nat (length payload))
                (payload ++ drop (length payload) inbuf)%list [])).
Proof.
  split.
  - rewrite ntohs_htons. split.
    + intros Hm. pose proof (Z.mod_pos_bound (Z.of_nat (length payload)) 65536).
      rewrite Hm in *. lia.
    + intros Hlt. apply Z.mod_small. lia.
  - unfold INBUF_SIZE. intros Hlt.
    assert (Hn : to_uint16 (Z.of_nat (length payload)) = Z.of_nat (length payload)).
    { unfold to_uint16. apply Z.mod_small. change (2 ^ 16) with 65536. lia. }
    assert (Hv : Z.of_nat (length payload) / 256 * 256 + Z.of_nat (length payload) mod 256
                 = Z.of_nat (length payload)).
    { pose proof (Z.div_mod (Z.of_nat (length payload)) 256). lia. }
    unfold htons. rewrite Hn. cbn [app].
    destruct payload as [|b payload].
    + change (Z.of_nat (length [])) with 0. unfold tcp_recv.
      rewrite (read_n_bytes_ready fuel [0 / 256; 0 mod 256] [] tcplen_mem 2) by (simpl; lia).
      cbn. rewrite drop_0. reflexivity.
    + rewrite tcp_recv_ready; rewrite Hv.
      * rewrite Nat2Z.id, firstn_all. reflexivity.
      * unfold INBUF_SIZE. simpl length in *. lia.
      * rewrite Nat2Z.id. lia.
Qed.

Lemma bad_packet_is_dropped_witness :
  (1 <= 2 ->
   handle_udp 2 [0; 1] example_store [example_entry] 0
   = mk_udp_result None 0 [OutBadPacket 1] example_store)
  /\ (forall fuel s inbound tcplen_mem inbuf0 out,
        0 <= s ->
        tcp_recv fuel inbound tcplen_mem inbuf0 = Some (RecvQuery 2 [0; 1] out) ->
        handle_tcp fuel s inbound tcplen_mem inbuf0 example_store [example_entry] 0
        = Some (mk_tcp_result [] true 0 (out ++ [OutBadPacket 1])%list example_store)).
Proof.
  apply (bad_packet_is_dropped [0; 1] 2 example_store [example_entry] 0 1).
  reflexivity.
Defined.

Lemma matched_request_is_answered_witness :
  (transport_udp = transport_udp -> 1 <= 12 ->
   handle_udp 12 example_wire example_store2 [set_copy_id true example_wildcard] 0
   = mk_udp_result (Some (take (Z.to_nat 12) [0; 42; 0; 0; 0; 0; 0; 0; 0; 0; 0; 0])) (0 + 1)
       [ OutQuery (0 + 1) (ldns_pkt_id (pkt_set_id 42 empty_pkt)) "UDP" 12
           (ldns_rr_list_rr (ldns_pkt_question (pkt_set_id 42 empty_pkt)) 0);
         OutAnswerSize 12 ] example_store2)
  /\ (transport_udp = transport_tcp ->
      forall fuel s inbound tcplen_mem inbuf0,
        0 <= s ->
        tcp_recv fuel inbound tcplen_mem inbuf0 = Some (RecvQuery 12 example_wire []) ->
        handle_tcp fuel s inbound tcplen_mem inbuf0 example_store2
          [set_copy_id true example_wildcard] 0
        = Some (mk_tcp_result
                  (htons 12 ++ take (Z.to_nat 12) [0; 42; 0; 0; 0; 0; 0; 0; 0; 0; 0; 0])%list
                  true (0 + 1)
                  [ OutQuery (0 + 1) (ldns_pkt_id (pkt_set_id 42 empty_pkt)) "TCP" 12
                      (ldns_rr_list_rr (ldns_pkt_question (pkt_set_id 42 empty_pkt)) 0);
                    OutAnswerSize 12 ] example_store2)).
Proof.
  apply (matched_request_is_answered example_wire 12 example_store2
           [set_copy_id true example_wildcard] 0 transport_udp
           (pkt_set_id 42 empty_pkt) (set_copy_id true example_wildcard));
    vm_compute; reflexivity.
Defined.

(** ** The read loop at the end of the stream and on errors *)

Lemma read_n_bytes_short : forall fuel inbound buf count sz,
  no_read_error inbound ->
  (count + length (bytes_ready inbound) < sz)%nat ->
  read_n_bytes fuel inbound buf count sz = None.
Proof.
  induction fuel as [|fuel IH]; intros inbound buf count sz Hne Hlt; cbn [read_n_bytes];
    (destruct (Nat.leb_spec sz count) as [|_]; [lia|]); [reflexivity|].
  destruct inbound as [|[|bytes] inbound].
  - cbn [sys_read]. simpl. apply IH; [constructor|simpl; lia].
  - apply Forall_cons in Hne as [Hne _]. contradiction.
  - apply Forall_cons in Hne as [_ Hne]. cbn [bytes_ready] in Hlt.
    rewrite length_app in Hlt. cbn [sys_read].
    rewrite take_ge, drop_ge by lia.
    destruct (Z.ltb_spec (Z.of_nat (length bytes)) 0) as [|_]; [lia|].
    apply IH; [exact Hne|lia].
Qed.

Lemma read_n_bytes_some : forall fuel inbound buf count sz buf' inbound' out,
  no_read_error inbound -> (count <= length buf)%nat -> (count <= sz)%nat ->
  read_n_bytes fuel inbound buf count sz = Some (buf', inbound', out) ->
  (sz - count <= length (bytes_ready inbound))%nat
  /\ buf' = (take count buf ++ take (sz - count) (bytes_ready inbound) ++ drop sz buf)%list
  /\ bytes_ready inbound' = drop (sz - count) (bytes_ready inbound)
  /\ no_read_error inbound' /\ out = [].
Proof.
  assert (Hdone : forall fuel inbound buf count sz buf' inbound' out,
            no_read_error inbound -> (sz <= count)%nat -> (count <= sz)%nat ->
            read_n_bytes fuel inbound buf count sz = Some (buf', inbound', out) ->
            (sz - count <= length (bytes_ready inbound))%nat
            /\ buf' = (take count buf ++ take (sz - count) (bytes_ready inbound)
                       ++ drop sz buf)%list
            /\ bytes_ready inbound' = drop (sz - count) (bytes_ready inbound)
            /\ no_read_error inbound' /\ out = []).
  { intros fuel inbound buf count sz buf' inbound' out Hne Hle Hcs.
    assert (sz = count) as -> by lia.
    destruct fuel; cbn [read_n_bytes]; rewrite Nat.leb_refl; intros [= <- <- <-];
      rewrite Nat.sub_diag; simpl; rewrite take_drop, drop_0; repeat split; auto; lia. }
  induction fuel as [|fuel IH]; intros inbound buf count sz buf' inbound' out Hne Hbuf Hcs;
    destruct (Nat.le_gt_cases sz count) as [Hle|Hlt]; try (apply Hdone; assumption).
  { cbn [read_n_bytes]. destruct (Nat.leb_spec sz count) as [|_]; [lia|discriminate]. }
  cbn [read_n_bytes]. destruct (Nat.leb_spec sz count) as [|_]; [lia|].
  destruct inbound as [|[|bytes] inbound].
  - cbn [sys_read]. simpl. intros Hr.
    rewrite read_n_bytes_short in Hr; [discriminate|constructor|simpl; lia].
  - apply Forall_cons in Hne as [Hne _]. contradiction.
  - apply Forall_cons in Hne as [_ Hne]. cbn [sys_read bytes_ready].
    destruct (Z.ltb_spec (Z.of_nat (length (take (sz - count) bytes))) 0) as [|_]; [lia|].
    rewrite length_app.
    destruct (Nat.le_gt_cases (sz - count) (length bytes)) as [Hen|Hsh].
    + assert (Hl : length (take (sz - count) bytes) = (sz - count)%nat)
        by (rewrite length_take; lia).
      rewrite Hl. replace (count + (sz - count))%nat with sz by lia.
      intros Hr. apply Hdone in Hr as (_ & -> & Hrest & Hne' & ->); [| |lia|lia].
      * rewrite Nat.sub_diag in *. rewrite drop_0 in Hrest. simpl.
        rewrite take_drop. split; [lia|].
        split; [|split; [|split; [exact Hne'|reflexivity]]].
        -- unfold write_at. rewrite Hl, take_app_le by lia.
           replace (count + (sz - count))%nat with sz by lia. reflexivity.
        -- rewrite Hrest, drop_app_le by lia.
           destruct (drop (sz - count) bytes); reflexivity.
      * destruct (drop (sz - count) bytes); [exact Hne|].
        constructor; [discriminate|exact Hne].
    + rewrite take_ge, drop_ge by lia. intros Hr.
      apply IH in Hr as (Hlen & -> & Hrest & Hne' & ->);
        [|exact Hne|apply write_at_length, Hbuf|lia].
      split; [lia|]. split; [|split; [|split; [exact Hne'|reflexivity]]].
      * rewrite (write_at_take _ _ _ Hbuf), (write_at_drop _ _ _ _ Hbuf) by lia.
        rewrite take_app_ge by lia. rewrite <- !app_assoc.
        replace (sz - (count + length bytes))%nat
          with (sz - count - length bytes)%nat by lia.
        reflexivity.
      * rewrite Hrest, drop_app_ge by lia. f_equal. lia.
Qed.

Lemma read_n_bytes_error chunks : forall fuel buf count sz rest,
  (length chunks < fuel)%nat -> (count <= length buf)%nat ->
  (count + length (concat chunks) < sz)%nat ->
  read_n_bytes fuel ((ReadData <$> chunks) ++ ReadError :: rest) buf count sz
  = Some (take count buf ++ concat chunks
            ++ drop (count + length (concat chunks)) buf, rest, [OutReadFailed])%list.
Proof.
  induction chunks as [|bytes chunks IH]; intros fuel buf count sz rest Hfuel Hbuf Hlt;
    (destruct fuel as [|fuel]; [simpl in Hfuel; lia|]);
    cbn [read_n_bytes]; (destruct (Nat.leb_spec sz count) as [|_]; [simpl in Hlt; lia|]).
  - simpl. rewrite Nat.add_0_r, take_drop. reflexivity.
  - cbn [fmap list_fmap app sys_read concat] in *. rewrite length_app in Hlt.
    rewrite take_ge, drop_ge by lia.
    destruct (Z.ltb_spec (Z.of_nat (length bytes)) 0) as [|_]; [lia|].
    change (list_fmap _ _ ReadData chunks) with (ReadData <$> chunks).
    rewrite IH; [|simpl in Hfuel; lia|apply write_at_length, Hbuf|lia].
    rewrite (write_at_take _ _ _ Hbuf), (write_at_drop _ _ _ _ Hbuf) by lia.
    rewrite length_app, <- !app_assoc, Nat.add_assoc. reflexivity.
Qed.

Section ReadLoopProps.
Context `{Codec}.

(** X21. [read] returns 0 at the end of the stream and [read_n_bytes]
    adds it and asks again: when a peer delivers fewer than the two bytes of
    the prefix, or fewer payload bytes than a prefix below [INBUF_SIZE]
    declares, and no read fails, the loop does not end within any number of
    iterations and [handle_tcp] never returns. *)
Theorem short_request_is_never_answered fuel s inbound tcplen_mem inbuf h entries count0 :
  0 <= s -> no_read_error inbound ->
  ((length (bytes_ready inbound) < 2)%nat
   \/ ntohs (bytes_ready inbound) < INBUF_SIZE
      /\ Z.of_nat (length (bytes_ready inbound)) < 2 + ntohs (bytes_ready inbound)) ->
  handle_tcp fuel s inbound tcplen_mem inbuf h entries count0 = None.
Proof.
  intros Hs Hne Hshort. unfold handle_tcp. destruct (Z.ltb_spec s 0) as [|_]; [lia|].
  assert (Hrecv : tcp_recv fuel inbound tcplen_mem inbuf = None); [|rewrite Hrecv; reflexivity].
  unfold tcp_recv.
  destruct (read_n_bytes fuel inbound tcplen_mem 0 2) as [[[mem1 inbound1] out1]|] eqn:Hr1;
    [|reflexivity].
  cbn [mbind option_bind].
  apply read_n_bytes_some in Hr1 as (Hlen & -> & Hrest & Hne1 & ->); [|exact Hne|lia|lia].
  destruct Hshort as [Hlt|[Hsmall Hlt]]; [lia|].
  destruct (bytes_ready inbound) as [|hi [|lo payload]] eqn:Hb; try (simpl in Hlen; lia).
  change (2 - 0)%nat with 2%nat in *. rewrite take_0.
  cbn [take drop app ntohs] in *.
  destruct (Z.geb_spec (hi * 256 + lo) INBUF_SIZE) as [|_]; [lia|].
  rewrite read_n_bytes_short; [reflexivity|exact Hne1|].
  rewrite Hrest, drop_0. simpl length in *. lia.
Qed.

(** X22. [read_n_bytes] reports a failed [read] on the output only.  When
    the payload breaks off with a read error, [handle_tcp] goes on with the
    declared length: [handle_query] runs on the bytes that arrived followed
    by what the buffer held before, and its answer is written as for any
    request. *)
Theorem read_error_does_not_stop_the_request fuel s hi lo part rest tcplen_mem inbuf
    h entries count0 :
  0 <= s -> 0 <= hi * 256 + lo < INBUF_SIZE ->
  Z.of_nat (length part) < hi * 256 + lo ->
  handle_tcp (S (S fuel)) s (ReadData (hi :: lo :: part) :: ReadError :: rest)
    tcplen_mem inbuf h entries count0
  = let r := handle_query (part ++ drop (length part) inbuf)%list (hi * 256 + lo)
               h entries count0 0 transport_tcp in
    Some (mk_tcp_result
            match outbuf r with
            | None => []
            | Some out => (htons (answer_size r) ++ take (Z.to_nat (answer_size r)) out)%list
            end
            true (count r) (OutReadFailed :: printed r) (store r)).
Proof.
  intros Hs [Hpos Hsmall] Hlt. unfold handle_tcp.
  destruct (Z.ltb_spec s 0) as [|_]; [lia|]. unfold tcp_recv.
  rewrite (read_n_bytes_ready (S fuel) (hi :: lo :: part)) by (simpl; lia).
  cbn [mbind option_bind take drop app ntohs].
  destruct (Z.geb_spec (hi * 256 + lo) INBUF_SIZE) as [|_]; [lia|].
  assert (Hread : read_n_bytes (S (S fuel))
                    match part with
                    | [] => ReadError :: rest
                    | b :: l => ReadData (b :: l) :: ReadError :: rest
                    end inbuf 0 (Z.to_nat (hi * 256 + lo))
                  = Some ((part ++ drop (length part) inbuf)%list, rest, [OutReadFailed])).
  { destruct part as [|b part].
    - rewrite (read_n_bytes_error [] (S (S fuel)) inbuf 0 _ rest); simpl; try lia.
      rewrite drop_0. reflexivity.
    - assert (Hc : concat [b :: part] = b :: part) by (simpl; rewrite app_nil_r; reflexivity).
      rewrite (read_n_bytes_error [b :: part] (S (S fuel)) inbuf 0 _ rest).
      + rewrite Hc, take_0. reflexivity.
      + simpl. lia.
      + lia.
      + rewrite Hc. simpl length in *. lia. }
  rewrite drop_0, Hread. cbn [mbind option_bind app].
  destruct (outbuf _); reflexivity.
Qed.
End ReadLoopProps.

(** ** The write loop *)

Lemma write_n_bytes_from buf sz : forall fuel outbound count,
  (length outbound < fuel)%nat -> (count <= sz)%nat -> (sz <= length buf)%nat ->
  exists written outbound' failed,
    write_n_bytes fuel outbound buf count sz = Some (written, outbound', failed)
    /\ written `prefix_of` take (sz - count) (drop count buf)
    /\ (failed = false -> written = take (sz - count) (drop count buf)).
Proof.
  induction fuel as [|fuel IH]; intros outbound count Hfuel Hcs Hbuf; [lia|].
  cbn [write_n_bytes]. destruct (Nat.leb_spec sz count) as [Hle|Hlt].
  { exists [], outbound, false. replace (sz - count)%nat with 0%nat by lia.
    rewrite take_0. split; [reflexivity|]. split; [apply prefix_nil|reflexivity]. }
  destruct outbound as [|[|n] outbound]; cbn [sys_write].
  - exists [], [], true. split; [reflexivity|]. split; [apply prefix_nil|discriminate].
  - exists [], outbound, true. split; [reflexivity|]. split; [apply prefix_nil|discriminate].
  - set (X := drop count buf). set (sent := take n (take (sz - count) X)).
    assert (HX : (sz - count <= length X)%nat) by (unfold X; rewrite length_drop; lia).
    assert (Hk : (length sent <= sz - count)%nat)
      by (unfold sent; rewrite !length_take; lia).
    assert (Hsent : sent = take (length sent) X).
    { unfold sent. rewrite take_take, length_take. f_equal. lia. }
    destruct (Z.ltb_spec (Z.of_nat (length sent)) 0) as [|_]; [lia|].
    destruct (IH outbound (count + length sent)%nat) as (more & ob' & failed & -> & Hp & He);
      [simpl in Hfuel; lia|lia|exact Hbuf|].
    cbn [mbind option_bind]. exists (sent ++ more)%list, ob', failed.
    assert (Hsplit : take (sz - count) X
                     = (sent ++ take (sz - (count + length sent))
                                  (drop (count + length sent) buf))%list).
    { rewrite Hsent at 1. unfold X. rewrite <- drop_drop. fold X.
      rewrite take_take_drop. f_equal. lia. }
    split; [reflexivity|]. rewrite Hsplit. split.
    + apply prefix_app, Hp.
    + intros Hf. rewrite (He Hf). reflexivity.
Qed.

(** X23. [write_n_bytes] returns after at most one call of [write] for
    each answer the connection has (and one that fails when it has no more),
    and what it has handed to [write] is a prefix of the first [sz] bytes of
    the buffer, in order and without repetition, however the kernel splits
    the calls; it is all of them unless a [write] failed. *)
Theorem write_n_bytes_sends_a_prefix fuel outbound buf sz :
  (length outbound < fuel)%nat -> (sz <= length buf)%nat ->
  exists written outbound' failed,
    write_n_bytes fuel outbound buf 0 sz = Some (written, outbound', failed)
    /\ written `prefix_of` take sz buf
    /\ (failed = false -> written = take sz buf).
Proof.
  intros Hfuel Hbuf.
  destruct (write_n_bytes_from buf sz fuel outbound 0 Hfuel) as (w & ob & f & Hw & Hp & He);
    [lia|exact Hbuf|].
  rewrite Nat.sub_0_r, drop_0 in Hp, He. eauto 10.
Qed.

Lemma write_n_bytes_sends_a_prefix_witness :
  exists written outbound' failed,
    write_n_bytes 4 [WriteAccept 2; WriteAccept 0; WriteAccept 5] [1; 2; 3; 4; 5; 6] 0 5
    = Some (written, outbound', failed)
    /\ written `prefix_of` take 5 [1; 2; 3; 4; 5; 6]
    /\ (failed = false -> written = take 5 [1; 2; 3; 4; 5; 6]).
Proof.
  apply (write_n_bytes_sends_a_prefix 4 [WriteAccept 2; WriteAccept 0; WriteAccept 5]
           [1; 2; 3; 4; 5; 6] 5); simpl; lia.
Defined.

Lemma short_request_is_never_answered_witness :
  handle_tcp 7 5 [ReadData [0; 12; 1]; ReadData [2; 3]] [0; 0] (replicate 16 0)
    example_store2 [example_wildcard] 0 = None.
Proof.
  apply (short_request_is_never_answered 7 5 [ReadData [0; 12; 1]; ReadData [2; 3]]).
  - lia.
  - repeat constructor; discriminate.
  - right. vm_compute. split; reflexivity.
Defined.

Lemma read_error_does_not_stop_the_request_witness :
  handle_tcp 2 5 [ReadData [0; 12; 0; 42]; ReadError] [0; 0] (replicate 12 0)
    example_store2 [example_wildcard] 0
  = let r := handle_query ([0; 42] ++ drop (length [0; 42]) (replicate 12 0))%list
               (0 * 256 + 12) example_store2 [example_wildcard] 0 0 transport_tcp in
    Some (mk_tcp_result
            match outbuf r with
            | None => []
            | Some out => (htons (answer_size r) ++ take (Z.to_nat (answer_size r)) out)%list
            end
            true (count r) (OutReadFailed :: printed r) (store r)).
Proof.
  apply (read_error_does_not_stop_the_request 0 5 0 12 [0; 42] [] [0; 0] (replicate 12 0)
           example_store2 [example_wildcard] 0); simpl; unfold INBUF_SIZE; lia.
Defined.

Lemma tcp_length_threshold_witness :
  (INBUF_SIZE <= 0 * 256 + 12 ->
   handle_tcp 1 5 [ReadData (0 :: 12 :: example_wire)] [0; 0] (replicate 16 0)
     example_store2 [example_wildcard] 0
   = Some (mk_tcp_result [] true 0 [OutTooLarge (0 * 256 + 12) INBUF_SIZE] example_store2))
  /\ (0 * 256 + 12 < INBUF_SIZE ->
      (Z.to_nat (0 * 256 + 12) <= length example_wire)%nat ->
      tcp_recv 1 [ReadData (0 :: 12 :: example_wire)] [0; 0] (replicate 16 0)
      = Some (RecvQuery (0 * 256 + 12)
                (take (Z.to_nat (0 * 256 + 12)) example_wire
                 ++ drop (Z.to_nat (0 * 256 + 12)) (replicate 16 0))%list [])
      /\ handle_tcp 1 5 [ReadData (0 :: 12 :: example_wire)] [0; 0] (replicate 16 0)
           example_store2 [example_wildcard] 0
         = let r := handle_query
                      (take (Z.to_nat (0 * 256 + 12)) example_wire
                       ++ drop (Z.to_nat (0 * 256 + 12)) (replicate 16 0))%list
                      (0 * 256 + 12) example_store2 [example_wildcard] 0 0 transport_tcp in
           Some (match outbuf r with
                 | None => mk_tcp_result [] true (count r) (printed r) (store r)
                 | Some out =>
                     mk_tcp_result
                       (htons (answer_size r) ++ take (Z.to_nat (answer_size r)) out)%list
                       true (count r) (printed r) (store r)
                 end)).
Proof.
  apply (tcp_length_threshold 1 5 [ReadData (0 :: 12 :: example_wire)] [0; 0]
           (replicate 16 0) example_store2 [example_wildcard] 0 0 12 example_wire).
  - lia.
  - simpl. lia.
  - reflexivity.
Defined.

Lemma read_datafile_replies_witness :
  Forall (fun e => is_Some (heap (state_after "f" example_dangling) !! reply e))
    (entries (state_after "f" example_dangling))
  /\ NoDup (reply <$> entries (state_after "f" example_dangling)).
Proof.
  apply (read_datafile_replies "f" example_dangling
           (entries (state_after "f" example_dangling))
           (heap (state_after "f" example_dangling))
           (stdout (state_after "f" example_dangling)
            ++ [OutReadEntries (entry_num (state_after "f" example_dangling))])%list).
  vm_compute. reflexivity.
Defined.
